(** * Text layout and rasterisation engine of [backend/main.py]

    A shallow embedding of the font routes of the backend: the line
    breaker [wrap_text_lines], the style synthesiser
    [draw_line_with_style], the block layout [draw_layout_text], the
    preview renderer [draw_text_preview] and the two routes
    [fonts_preview] and [fonts_layout] that drive them.

    Modelling conventions.
    - A Python [str] is a list of Unicode code points ([N]).
    - Pixel quantities are Python floats in the source; they are modelled
      as exact rationals ([Q]), so [==] is equality of values.  Where
      rounding decides what is drawn -- the overflow test of the block
      layout -- the loops are embedded a second time in binary64.
    - Pillow is outside the repository: the font loader, the advance
      width and the multi-line bounding box are section variables, and an
      image is its allocation data together with the log of the drawing
      calls made on it, in order. *)

From Stdlib Require Import String Ascii.
From Stdlib Require Import List Bool Arith ZArith NArith QArith Qround Qabs.
From Stdlib Require Import Lia Lqa.
From Stdlib Require PrimFloat FloatOps SpecFloat.
Import ListNotations.

Local Open Scope Q_scope.

(** ** Python strings *)

Definition char := N.
Definition str := list char.

(** A Rocq string literal read as a Python [str]. *)
Definition lit (s : string) : str :=
  map N_of_ascii (list_ascii_of_string s).

Definition in_range (lo hi c : N) : bool := (N.leb lo c && N.leb c hi)%bool.

(** [ch.isspace()]: the code points CPython classifies as whitespace. *)
Definition isspace (c : char) : bool :=
  (in_range 9 13 c || in_range 28 32 c || N.eqb c 133 || N.eqb c 160
   || N.eqb c 5760 || in_range 8192 8202 c || in_range 8232 8233 c
   || N.eqb c 8239 || N.eqb c 8287 || N.eqb c 12288)%bool%N.

Definition space : char := 32%N.
Definition newline : char := 10%N.

(** Truth value of a string: [not s] is [is_empty s]. *)
Definition is_empty (s : str) : bool :=
  match s with [] => true | _ :: _ => false end.

Definition str_eqb (a b : str) : bool :=
  if list_eq_dec N.eq_dec a b then true else false.

(** [s.lower()], on the ASCII letters the routes compare against. *)
Definition lower_char (c : char) : char :=
  if in_range 65 90 c then (c + 32)%N else c.
Definition lower (s : str) : str := map lower_char s.

Fixpoint lstrip (s : str) : str :=
  match s with
  | [] => []
  | c :: s' => if isspace c then lstrip s' else s
  end.
Definition rstrip (s : str) : str := rev (lstrip (rev s)).
(** [s.strip()] *)
Definition strip (s : str) : str := rstrip (lstrip s).

(** [s.split()]: maximal runs of non-whitespace, [cur] being the run
    read so far. *)
Fixpoint split_from (cur : str) (s : str) : list str :=
  match s with
  | [] => if is_empty cur then [] else [cur]
  | c :: s' =>
      if isspace c
      then (if is_empty cur then split_from [] s' else cur :: split_from [] s')
      else split_from (cur ++ [c]) s'
  end.
Definition split (s : str) : list str := split_from [] s.

(** [s.split(sep)] for a one-character separator: never an empty list. *)
Fixpoint split_on_from (sep : char) (cur : str) (s : str) : list str :=
  match s with
  | [] => [cur]
  | c :: s' =>
      if N.eqb c sep then cur :: split_on_from sep [] s'
      else split_on_from sep (cur ++ [c]) s'
  end.
Definition split_on (sep : char) (s : str) : list str := split_on_from sep [] s.

(** [" ".join(parts)] *)
Fixpoint join_space (parts : list str) : str :=
  match parts with
  | [] => []
  | [p] => p
  | p :: rest => p ++ space :: join_space rest
  end.

Definition is_nil {A} (l : list A) : bool :=
  match l with [] => true | _ :: _ => false end.

(** A word: not empty, no whitespace inside. *)
Definition is_word (wd : str) : Prop := wd <> [] /\ existsb isspace wd = false.

(** ** Numbers *)

(** [int(q)]: truncation towards zero. *)
Definition py_int (q : Q) : Z := Z.quot (Qnum q) (Zpos (Qden q)).

(** [round(q)]: to the nearest integer, ties to the even one. *)
Definition py_round (q : Q) : Z :=
  let f := Qfloor q in
  let r := q - inject_Z f in
  if Qle_bool r (1 # 2)
  then (if Qle_bool (1 # 2) r then (if Z.even f then f else f + 1)%Z else f)
  else (f + 1)%Z.

Definition Qgt_bool (a b : Q) : bool := negb (Qle_bool a b).
Definition Qmax (a b : Q) : Q := if Qle_bool a b then b else a.

(** ** Images and fonts *)

Record FreeTypeFont := { ft_file : str; ft_size : Z }.

Inductive exn :=
| HTTPException (status_code : Z) (detail : str)
| LibraryError.

Inductive mode := RGB | RGBA.

Inductive fill :=
| Transparent                 (* the tuple (0, 0, 0, 0) *)
| ColorName (c : str).

(** One call of [draw.text(xy, text, font=font, fill=fill)]. *)
Record TextOp := {
  t_xy : Q * Q;
  t_text : str;
  t_font : FreeTypeFont;
  t_fill : str
}.

(** The off-screen buffer of the italic path and its sheared copy. *)
Record TempImage := { tmp_size : Z * Z; tmp_ops : list TextOp }.
Record Transformed := {
  tr_src : TempImage;
  tr_size : Z * Z;
  tr_matrix : list Q
}.

Inductive op :=
| Text (t : TextOp)
| MultilineText (t : TextOp)                       (* align="center" *)
| Line (xy0 xy1 : Q * Q) (color : str) (width : Z)
| Paste (src : Transformed) (box : Z * Z).         (* masked by itself *)

Record Image := {
  im_mode : mode;
  im_size : Z * Z;
  im_fill : fill;
  im_ops : list op
}.

(** [Image.new(mode, size, color)] *)
Definition Image_new (m : mode) (size : Z * Z) (c : fill) : Image :=
  {| im_mode := m; im_size := size; im_fill := c; im_ops := [] |}.

Definition draw_on (im : Image) (ops : list op) : Image :=
  {| im_mode := im_mode im; im_size := im_size im; im_fill := im_fill im;
     im_ops := im_ops im ++ ops |}.

Definition is_rule (o : op) : bool :=
  match o with Line _ _ _ _ => true | _ => false end.

(** ** Request payloads *)

Record PreviewRequest := {
  pr_font : str;
  pr_text : str;
  pr_size : Z;
  pr_width : Z;
  pr_height : Z;
  pr_padding : Z;
  pr_color : str;
  pr_background : str;
  pr_format : str
}.

Record TextBoxPayload := { box_x : Q; box_y : Q; box_width : Q; box_height : Q }.

Record TextStylePayload := {
  fontSize : Z;
  color : str;
  fontWeight : Z;
  fontStyle : str;
  textDecoration : str;
  textAlign : str
}.

Record TextBlockPayload := {
  key : str;
  text : str;
  box : TextBoxPayload;
  style : TextStylePayload
}.

Record LayoutRequest := {
  lr_font : str;
  lr_width : Z;
  lr_height : Z;
  lr_background : str;
  lr_format : str;
  blocks : list TextBlockPayload;
  respectLineBreaks : bool
}.

Record Response := { content : Image; media_type : str }.

(** What a route does: it raises, leaving the canvas (if one was already
    allocated) as drawn so far, or it returns a response. *)
Inductive outcome :=
| Raised (e : exn) (canvas : option Image)
| Returned (r : Response).

(** ** Positions in closed form

    Line number [k] of the block (counting from 0), in paragraph number
    [i], at [y + k * line_height + i * (0.2 * line_height)]. *)

Definition closed_position (y line_height : Q) (i k : nat) : Q :=
  y + inject_Z (Z.of_nat k) * line_height
    + inject_Z (Z.of_nat i) * (line_height * (2 # 10)).

Fixpoint closed_lines (y line_height : Q) (i k : nat) (lines : list str)
    : list (str * Q) :=
  match lines with
  | [] => []
  | line :: rest =>
      (line, closed_position y line_height i k)
      :: closed_lines y line_height i (S k) rest
  end.

Fixpoint closed_paragraphs (y line_height : Q) (i k : nat)
    (paragraphs : list (list str)) : list (str * Q) :=
  match paragraphs with
  | [] => []
  | lines :: rest =>
      closed_lines y line_height i k lines
      ++ closed_paragraphs y line_height (S i) (k + length lines) rest
  end.

Definition same_place (a b : str * Q) : Prop :=
  fst a = fst b /\ snd a == snd b.

Section Engine.

(** Pillow and the file system. *)
Variable resolve_font_path : str -> exn + str.
Variable load_font : str -> Z -> exn + FreeTypeFont.
Variable textlength : FreeTypeFont -> str -> Q.
Variable multiline_textbbox : FreeTypeFont -> str -> Q * Q * Q * Q.

Definition measure_text (text : str) (font : FreeTypeFont) : Q :=
  textlength font text.

(** ** LineBreaker *)

(** The character loop of [wrap_text_lines] (it occurs twice, over the
    whole text and over one oversized word): [current] is the line being
    filled, [lines] the lines closed so far. *)
Fixpoint break_chars (font : FreeTypeFont) (max_width : Q)
    (s : str) (lines : list str) (current : str) : list str * str :=
  match s with
  | [] => (lines, current)
  | ch :: s' =>
      let test := current ++ [ch] in
      if (Qle_bool (measure_text test font) max_width || is_empty current)%bool
      then break_chars font max_width s' lines test
      else break_chars font max_width s' (lines ++ [current]) [ch]
  end.

(** The word loop of [wrap_text_lines]. *)
Fixpoint wrap_words (font : FreeTypeFont) (max_width : Q)
    (words : list str) (lines : list str) (current : str) : list str * str :=
  match words with
  | [] => (lines, current)
  | word :: words' =>
      let test := strip (current ++ space :: word) in
      if Qle_bool (measure_text test font) max_width
      then wrap_words font max_width words' lines test
      else
        let lines1 := if is_empty current then lines else lines ++ [current] in
        if Qle_bool (measure_text word font) max_width
        then wrap_words font max_width words' lines1 word
        else
          let '(lines2, chunk) := break_chars font max_width word lines1 [] in
          wrap_words font max_width words' lines2 chunk
  end.

Definition flush (st : list str * str) : list str :=
  let '(lines, current) := st in
  if is_empty current then lines else lines ++ [current].

Definition wrap_text_lines (text : str) (max_width : Q) (font : FreeTypeFont)
    : list str :=
  if is_empty text then [ [] ]
  else if negb (existsb isspace text)
  then flush (break_chars font max_width text [] [])
  else flush (wrap_words font max_width (split text) [] []).

(** A line is acceptable when it fits, or is one character that does
    not (used to state the width property of the breaker). *)
Definition acceptable (font : FreeTypeFont) (max_width : Q) (line : str)
    : Prop :=
  measure_text line font <= max_width
  \/ (length line = 1%nat /\ max_width < measure_text line font).

(** ** StyleSynthesizer *)

Definition offsets (bold : bool) : list (Z * Z) :=
  if bold then [(0, 0); (1, 0); (0, 1)]%Z else [(0, 0)]%Z.

Definition shear : Q := - (25 # 100).

(** The glyph part of [draw_line_with_style]: the branch on [italic]. *)
Definition glyph_ops (text : str) (x y : Q) (font : FreeTypeFont)
    (color : str) (bold italic : bool) (line_height : Q) : list op :=
  if italic then
    let text_width := (py_int (measure_text text font) + 20)%Z in
    let temp_height := py_int (line_height * (12 # 10)) in
    let temp :=
      {| tmp_size := (text_width, temp_height);
         tmp_ops :=
           map (fun d : Z * Z =>
                  {| t_xy := (inject_Z (fst d), inject_Z (snd d));
                     t_text := text; t_font := font; t_fill := color |})
               (offsets bold) |} in
    let transformed :=
      {| tr_src := temp;
         tr_size :=
           ((text_width + py_int (inject_Z temp_height * Qabs shear))%Z,
            temp_height);
         tr_matrix := [1; shear; 0; 0; 1; 0] |} in
    [Paste transformed (py_int x, py_int y)]
  else
    map (fun d : Z * Z =>
           Text {| t_xy := (x + inject_Z (fst d), y + inject_Z (snd d));
                   t_text := text; t_font := font; t_fill := color |})
        (offsets bold).

(** The underline part of [draw_line_with_style]. *)
Definition underline_ops (text : str) (x y : Q) (font : FreeTypeFont)
    (color : str) (underline : bool) (line_height : Q) : list op :=
  if underline then
    let text_width := measure_text text font in
    let underline_y := y + line_height * (85 # 100) in
    [Line (x, underline_y) (x + text_width, underline_y) color
          (Z.max 1 (py_int (line_height * (6 # 100))))]
  else [].

Definition draw_line_with_style (base : Image) (text : str) (x y : Q)
    (font : FreeTypeFont) (color : str) (underline bold italic : bool)
    (line_height : Q) : Image :=
  let base1 := draw_on base (glyph_ops text x y font color bold italic line_height) in
  draw_on base1 (underline_ops text x y font color underline line_height).

(** ** BlockLayoutEngine *)

(** The [if align == "center" ... elif align == "right" ...] of both
    line loops. *)
Definition draw_x_of (align : str) (x w line_width : Q) : Q :=
  if str_eqb align (lit "center") then x + (w - line_width) / 2
  else if str_eqb align (lit "right") then x + (w - line_width)
  else x.

Section Block.

(** The locals of [draw_layout_text] that its loops read. *)
Variable font : FreeTypeFont.
Variable block_color : str.
Variables underline bold italic : bool.
Variable line_height : Q.
Variables x y w h : Q.
Variable align : str.

(** The loop over the lines of one paragraph (in [respectLineBreaks]
    mode: over all segments).  The flag tells whether the loop left the
    function through [return]. *)
Fixpoint draw_lines (lines : list str) (image : Image) (cursor_y : Q)
    : Image * Q * bool :=
  match lines with
  | [] => (image, cursor_y, false)
  | line :: rest =>
      if Qgt_bool (cursor_y + line_height) (y + h)
      then (image, cursor_y, true)
      else
        let line_width := measure_text line font in
        let draw_x := draw_x_of align x w line_width in
        let image1 :=
          draw_line_with_style image line draw_x cursor_y font block_color
                               underline bold italic line_height in
        draw_lines rest image1 (cursor_y + line_height)
  end.

(** The loop over [enumerate(paragraphs)]; [n] is [len(paragraphs)]. *)
Fixpoint draw_paragraphs (n : nat) (idx : nat) (paragraphs : list str)
    (image : Image) (cursor_y : Q) : Image * Q * bool :=
  match paragraphs with
  | [] => (image, cursor_y, false)
  | paragraph :: rest =>
      let lines := wrap_text_lines paragraph w font in
      let '(image1, cursor1, returned) := draw_lines lines image cursor_y in
      if returned then (image1, cursor1, true)
      else
        let cursor2 :=
          if (Z.of_nat idx <? Z.of_nat n - 1)%Z
          then cursor1 + line_height * (2 # 10)
          else cursor1 in
        draw_paragraphs n (S idx) rest image1 cursor2
  end.

(** *** The layout a block asks for

    These four definitions are not in the source: they describe what the
    loops are meant to do, and the theorems below relate the loops to
    them.  [place_lines] gives every line its vertical position when
    nothing is clipped, [fitting_prefix] keeps the lines in front of the
    first one that overflows the box, [render] draws placed lines. *)

Fixpoint place_lines (lines : list str) (cursor_y : Q) : list (str * Q) :=
  match lines with
  | [] => []
  | line :: rest => (line, cursor_y) :: place_lines rest (cursor_y + line_height)
  end.

Fixpoint cursor_after (lines : list str) (cursor_y : Q) : Q :=
  match lines with
  | [] => cursor_y
  | _ :: rest => cursor_after rest (cursor_y + line_height)
  end.

Fixpoint place_paragraphs (n : nat) (idx : nat) (paragraphs : list str)
    (cursor_y : Q) : list (str * Q) :=
  match paragraphs with
  | [] => []
  | paragraph :: rest =>
      let lines := wrap_text_lines paragraph w font in
      let cursor1 := cursor_after lines cursor_y in
      place_lines lines cursor_y ++
      place_paragraphs n (S idx) rest
        (if (Z.of_nat idx <? Z.of_nat n - 1)%Z
         then cursor1 + line_height * (2 # 10) else cursor1)
  end.

Definition overflows (cursor_y : Q) : bool :=
  Qgt_bool (cursor_y + line_height) (y + h).

Fixpoint fitting_prefix (placed : list (str * Q)) : list (str * Q) :=
  match placed with
  | [] => []
  | p :: rest => if overflows (snd p) then [] else p :: fitting_prefix rest
  end.

Definition render_line (image : Image) (p : str * Q) : Image :=
  draw_line_with_style image (fst p)
    (draw_x_of align x w (measure_text (fst p) font)) (snd p)
    font block_color underline bold italic line_height.

Definition render (image : Image) (placed : list (str * Q)) : Image :=
  fold_left render_line placed image.

Definition all_fit (placed : list (str * Q)) : bool :=
  forallb (fun p => negb (overflows (snd p))) placed.

(** The drawing calls one placed line stands for. *)
Definition placed_ops (p : str * Q) : list op :=
  let draw_x := draw_x_of align x w (measure_text (fst p) font) in
  glyph_ops (fst p) draw_x (snd p) font block_color bold italic line_height
  ++ underline_ops (fst p) draw_x (snd p) font block_color underline line_height.

End Block.

Definition block_line_height (block : TextBlockPayload) : Q :=
  inject_Z (fontSize (style block)) * (12 # 10).

Definition block_align (block : TextBlockPayload) : str :=
  if is_empty (textAlign (style block)) then lit "left"
  else textAlign (style block).

Definition draw_layout_text (image : Image) (block : TextBlockPayload)
    (font_path : str) (respect_line_breaks : bool) : exn + Image :=
  match load_font font_path (fontSize (style block)) with
  | inl e => inl e
  | inr font =>
      let bold := (700 <=? fontWeight (style block))%Z in
      let italic := str_eqb (fontStyle (style block)) (lit "italic") in
      let underline := str_eqb (textDecoration (style block)) (lit "underline") in
      let line_height := block_line_height block in
      let x := box_x (box block) * inject_Z (fst (im_size image)) in
      let y := box_y (box block) * inject_Z (snd (im_size image)) in
      let w := box_width (box block) * inject_Z (fst (im_size image)) in
      let h := box_height (box block) * inject_Z (snd (im_size image)) in
      let cursor_y := y in
      let align := block_align block in
      let paragraphs := split_on newline (text block) in
      if respect_line_breaks then
        inr (fst (fst (draw_lines font (color (style block)) underline bold
                                  italic line_height x y w h align
                                  paragraphs image cursor_y)))
      else
        inr (fst (fst (draw_paragraphs font (color (style block)) underline
                                       bold italic line_height x y w h align
                                       (List.length paragraphs) 0 paragraphs
                                       image cursor_y)))
  end.

(** The locals of [draw_layout_text], named, and the layout of a whole
    block in terms of them (again not in the source). *)
Definition block_x (image : Image) (block : TextBlockPayload) : Q :=
  box_x (box block) * inject_Z (fst (im_size image)).
Definition block_y (image : Image) (block : TextBlockPayload) : Q :=
  box_y (box block) * inject_Z (snd (im_size image)).
Definition block_w (image : Image) (block : TextBlockPayload) : Q :=
  box_width (box block) * inject_Z (fst (im_size image)).
Definition block_h (image : Image) (block : TextBlockPayload) : Q :=
  box_height (box block) * inject_Z (snd (im_size image)).
Definition block_bold (block : TextBlockPayload) : bool :=
  (700 <=? fontWeight (style block))%Z.
Definition block_italic (block : TextBlockPayload) : bool :=
  str_eqb (fontStyle (style block)) (lit "italic").
Definition block_underline (block : TextBlockPayload) : bool :=
  str_eqb (textDecoration (style block)) (lit "underline").

Definition block_plan (font : FreeTypeFont) (image : Image)
    (block : TextBlockPayload) (respect_line_breaks : bool) : list (str * Q) :=
  let paragraphs := split_on newline (text block) in
  if respect_line_breaks
  then place_lines (block_line_height block) paragraphs (block_y image block)
  else place_paragraphs font (block_line_height block) (block_w image block)
         (length paragraphs) 0 paragraphs (block_y image block).

Definition block_clip (image : Image) (block : TextBlockPayload)
    (placed : list (str * Q)) : list (str * Q) :=
  fitting_prefix (block_line_height block) (block_y image block)
    (block_h image block) placed.

Definition block_render (font : FreeTypeFont) (image0 : Image)
    (block : TextBlockPayload) (image : Image) (placed : list (str * Q))
    : Image :=
  render font (color (style block)) (block_underline block) (block_bold block)
    (block_italic block) (block_line_height block) (block_x image0 block)
    (block_w image0 block) (block_align block) image placed.

Definition block_ops (font : FreeTypeFont) (image0 : Image)
    (block : TextBlockPayload) (p : str * Q) : list op :=
  placed_ops font (color (style block)) (block_underline block)
    (block_bold block) (block_italic block) (block_line_height block)
    (block_x image0 block) (block_w image0 block) (block_align block) p.

(** ** PreviewRenderer *)

(** The canvas allocation that opens [draw_text_preview]. *)
Definition preview_canvas (width height : Z) (background image_format : str)
    : Image :=
  if str_eqb (lower image_format) (lit "png")
  then Image_new RGBA (width, height) Transparent
  else Image_new RGB (width, height) (ColorName background).

(** On failure the exception comes with the canvas as it was. *)
Definition draw_text_preview (font_path text : str)
    (size width height padding : Z) (color background image_format : str)
    : exn * Image + Image :=
  let image := preview_canvas width height background image_format in
  match load_font font_path size with
  | inl e => inl (e, image)
  | inr font =>
      let '(b0, b1, b2, b3) := multiline_textbbox font text in
      let text_width := b2 - b0 in
      let text_height := b3 - b1 in
      let x := Qmax (inject_Z padding)
                    (inject_Z (Qfloor ((inject_Z width - text_width) / 2))) in
      let y := Qmax (inject_Z padding)
                    (inject_Z (Qfloor ((inject_Z height - text_height) / 2))) in
      inr (draw_on image
             [MultilineText {| t_xy := (x, y); t_text := text;
                               t_font := font; t_fill := color |}])
  end.

(** ** Routes *)

Definition supported_format (image_format : str) : bool :=
  (str_eqb image_format (lit "png") || str_eqb image_format (lit "webp"))%bool.

Definition media_type_of (image_format : str) : str :=
  if str_eqb image_format (lit "webp") then lit "image/webp"
  else lit "image/png".

Definition fonts_preview (payload : PreviewRequest) : outcome :=
  match resolve_font_path (pr_font payload) with
  | inl e => Raised e None
  | inr font_path =>
      if ((pr_size payload <=? 0) || (pr_width payload <=? 0)
          || (pr_height payload <=? 0))%Z%bool
      then Raised (HTTPException 400
                     (lit "Size and dimensions must be positive.")) None
      else
        let image_format := lower (pr_format payload) in
        if negb (supported_format image_format)
        then Raised (HTTPException 400 (lit "Unsupported format.")) None
        else
          match draw_text_preview font_path (pr_text payload)
                  (pr_size payload) (pr_width payload) (pr_height payload)
                  (pr_padding payload) (pr_color payload)
                  (pr_background payload) image_format with
          | inl (e, image) => Raised e (Some image)
          | inr image =>
              Returned {| content := image;
                          media_type := media_type_of image_format |}
          end
  end.

(** The loop over [payload.blocks]. *)
Fixpoint draw_blocks (font_path : str) (respect_line_breaks : bool)
    (bs : list TextBlockPayload) (image : Image) : exn * Image + Image :=
  match bs with
  | [] => inr image
  | block :: bs' =>
      match draw_layout_text image block font_path respect_line_breaks with
      | inl e => inl (e, image)
      | inr image1 => draw_blocks font_path respect_line_breaks bs' image1
      end
  end.

Definition layout_canvas (payload : LayoutRequest) (image_format : str)
    : Image :=
  let mode := if str_eqb image_format (lit "png") then RGBA else RGB in
  let background :=
    if is_empty (lr_background payload) then lit "#000000"
    else lr_background payload in
  let background :=
    if str_eqb (lower background) (lit "transparent") then Transparent
    else ColorName background in
  Image_new mode (lr_width payload, lr_height payload) background.

Definition fonts_layout (payload : LayoutRequest) : outcome :=
  match resolve_font_path (lr_font payload) with
  | inl e => Raised e None
  | inr font_path =>
      if ((lr_width payload <=? 0) || (lr_height payload <=? 0))%Z%bool
      then Raised (HTTPException 400 (lit "Invalid layout dimensions.")) None
      else
        let image_format := lower (lr_format payload) in
        if negb (supported_format image_format)
        then Raised (HTTPException 400 (lit "Unsupported format.")) None
        else
          let image := layout_canvas payload image_format in
          match draw_blocks font_path (respectLineBreaks payload)
                  (blocks payload) image with
          | inl (e, image1) => Raised e (Some image1)
          | inr image1 =>
              Returned {| content := image1;
                          media_type := media_type_of image_format |}
          end
  end.

End Engine.

(** ** The GET variant of the preview route

    [fonts_preview_get] takes the fields of the request as query
    parameters; [text] may be absent. *)

Definition default_preview_text : str :=
  lit "The quick brown fox jumps over the lazy dog 0123456789".

Definition fonts_preview_get
    (resolve_font_path : str -> exn + str)
    (load_font : str -> Z -> exn + FreeTypeFont)
    (multiline_textbbox : FreeTypeFont -> str -> Q * Q * Q * Q)
    (font : str) (text : option str) (size width height padding : Z)
    (color background format : str) : outcome :=
  match resolve_font_path font with
  | inl e => Raised e None
  | inr font_path =>
      if ((size <=? 0) || (width <=? 0) || (height <=? 0))%Z%bool
      then Raised (HTTPException 400
                     (lit "Size and dimensions must be positive.")) None
      else
        let image_format := lower format in
        if negb (supported_format image_format)
        then Raised (HTTPException 400 (lit "Unsupported format.")) None
        else
          let preview_text :=
            match text with
            | Some t => if is_empty t then default_preview_text else t
            | None => default_preview_text
            end in
          match draw_text_preview load_font multiline_textbbox font_path
                  preview_text size width height padding color background
                  image_format with
          | inl (e, image) => Raised e (Some image)
          | inr image =>
              Returned {| content := image;
                          media_type := media_type_of image_format |}
          end
  end.

(** ** A fixed-pitch font, for running the model

    Every character advances by one pixel; the loader refuses sizes that
    are not positive, as FreeType does. *)

Definition mono_textlength (font : FreeTypeFont) (s : str) : Q :=
  inject_Z (Z.of_nat (List.length s)).

Definition mono_bbox (font : FreeTypeFont) (s : str) : Q * Q * Q * Q :=
  (0, 0, mono_textlength font s, inject_Z (ft_size font)).

Definition strict_load_font (path : str) (size : Z) : exn + FreeTypeFont :=
  if (size <=? 0)%Z then inl LibraryError
  else inr {| ft_file := path; ft_size := size |}.

Definition resolve_any (name : str) : exn + str := inr name.

Definition sample_font : FreeTypeFont :=
  {| ft_file := lit "demo.ttf"; ft_size := 10 |}.

Definition blank_canvas : Image :=
  Image_new RGB (100, 100)%Z (ColorName (lit "#000000")).

Definition plain_style (size : Z) : TextStylePayload :=
  {| fontSize := size; color := lit "#ffffff"; fontWeight := 600;
     fontStyle := lit "normal"; textDecoration := lit "none";
     textAlign := lit "left" |}.

(** Seven characters in a box one pixel wide and two line heights tall. *)
Definition narrow_block : TextBlockPayload :=
  {| key := lit "title"; text := lit "aaaaaaa";
     box := {| box_x := 0; box_y := 0;
               box_width := 1 # 100; box_height := 24 # 100 |};
     style := plain_style 10 |}.

(** Three paragraphs, the middle one blank, in a box that holds them. *)
Definition three_paragraph_block : TextBlockPayload :=
  {| key := lit "body"; text := lit "ab cd" ++ newline :: newline :: lit "ef";
     box := {| box_x := 0; box_y := 1 # 10;
               box_width := 1 # 2; box_height := 8 # 10 |};
     style := plain_style 10 |}.

(** A preview request that asks for a red background on a PNG. *)
Definition red_png_preview : PreviewRequest :=
  {| pr_font := lit "demo.ttf"; pr_text := lit "Aa"; pr_size := 64;
     pr_width := 1200; pr_height := 600; pr_padding := 40;
     pr_color := lit "#111827"; pr_background := lit "#ff0000";
     pr_format := lit "png" |}.

Definition full_box : TextBoxPayload :=
  {| box_x := 0; box_y := 0; box_width := 1; box_height := 1 |}.

(** A layout request whose second block has font size 0. *)
Definition zero_size_layout : LayoutRequest :=
  {| lr_font := lit "demo.ttf"; lr_width := 100; lr_height := 100;
     lr_background := lit "#000000"; lr_format := lit "webp";
     blocks := [ {| key := lit "first"; text := lit "a"; box := full_box;
                    style := plain_style 10 |};
                 {| key := lit "second"; text := lit "b"; box := full_box;
                    style := plain_style 0 |} ];
     respectLineBreaks := false |}.

(** * Accounts and sessions

    The account routes work on two tables of the SQLite database.  A
    table is the list of its rows in insertion order; [fetchone] gives the
    first row that matches.  A timestamp column holds an instant
    (microseconds since the epoch, UTC): the source stores
    [datetime.isoformat()] and reads it back with
    [datetime.fromisoformat], and [NULL] is [None].  What the source draws
    from the clock, from [uuid] and from [secrets] during one request is
    handed to the model in an [Entropy] record; the hash functions, the
    JWT codec and the two time-to-live settings are section variables. *)

Definition time := Z.

Record UserRow := {
  u_id : str;
  u_username : str;
  u_password_hash : str;
  u_is_admin : Z;
  u_password_changed : Z;
  u_created_at : time;
  u_last_login_at : option time
}.

Record RefreshTokenRow := {
  rt_id : str;
  rt_user_id : str;
  rt_token_hash : str;
  rt_created_at : time;
  rt_expires_at : time;
  rt_revoked_at : option time;
  rt_user_agent : str;
  rt_ip : str
}.

Record Database := {
  users : list UserRow;
  refresh_tokens : list RefreshTokenRow
}.

(** A computation on the database that returns or raises; what it
    committed before raising stays committed. *)
Definition M (A : Type) : Type := Database -> (exn + A) * Database.

Definition ret {A} (a : A) : M A := fun db => (inr a, db).
Definition raise {A} (e : exn) : M A := fun db => (inl e, db).
Definition bind {A B} (c : M A) (k : A -> M B) : M B :=
  fun db =>
    match c db with
    | (inl e, db1) => (inl e, db1)
    | (inr a, db1) => k a db1
    end.

Notation "x <- c ;; k" := (bind c (fun x => k))
  (at level 61, c at next level, right associativity).
Notation "c ;;; k" := (bind c (fun _ => k))
  (at level 61, right associativity).

Record Request := {
  authorization : option str;       (* header Authorization *)
  user_agent : option str;          (* header user-agent *)
  client_host : option str;         (* request.client.host *)
  refresh_cookie : option str       (* cookie refresh_token *)
}.

Record AuthRequest := { username : str; password : str }.

Record ChangePasswordRequest := { currentPassword : str; newPassword : str }.

(** The JSON body of the three session routes, with the cookie set. *)
Record AuthResponse := {
  accessToken : str;
  ar_id : str;
  ar_username : str;
  ar_is_admin : bool;
  ar_must_change_password : bool;
  ar_set_cookie : str
}.

Inductive VerifyResult :=
| VerifyOk
| VerifyMismatch                 (* VerifyMismatchError *)
| VerifyFailed.                  (* any other exception of the hasher *)

Inductive JwtResult :=
| JwtExpired                     (* ExpiredSignatureError *)
| JwtInvalid                     (* InvalidTokenError *)
| JwtPayload (sub : option str).

Record Entropy := {
  new_user_id : str;               (* uuid4 of create_user *)
  salt : str;                      (* randomness of the password hasher *)
  now_user : time;                 (* clock in create_user *)
  now_login : time;                (* clock in update_last_login *)
  now_check : time;                (* clock of the expiry test *)
  now_revoke : time;               (* clock in revoke_refresh_tokens_for_user *)
  now_access : time;               (* clock in create_access_token *)
  jti : str;                       (* uuid4 of create_access_token *)
  new_token : str;                 (* secrets.token_urlsafe(64) *)
  now_token : time;                (* clock in create_refresh_token_record *)
  new_token_id : str;              (* uuid4 of create_refresh_token_record *)
  new_password : str               (* secrets.token_urlsafe(10) *)
}.

Definition is_none {A} (o : option A) : bool :=
  match o with None => true | Some _ => false end.

(** [s.startswith(p)] *)
Fixpoint startswith (s p : str) : bool :=
  match p, s with
  | [], _ => true
  | _ :: _, [] => false
  | c :: p', d :: s' => (N.eqb c d && startswith s' p')%bool
  end.

(** [s.replace(old, new, 1)] *)
Fixpoint replace_first (old new s : str) : str :=
  match s with
  | [] => if startswith [] old then new else []
  | c :: s' =>
      if startswith s old then new ++ skipn (length old) s
      else c :: replace_first old new s'
  end.

Definition microseconds_per_second : Z := 1000000.

(** [int(t.timestamp())] *)
Definition timestamp_seconds (t : time) : Z := Z.quot t microseconds_per_second.

Definition minutes (n : Z) : Z := (n * 60 * microseconds_per_second)%Z.
Definition days (n : Z) : Z := (n * 86400 * microseconds_per_second)%Z.

(** [user["is_admin"]] and [user["password_changed"]] under [bool]. *)
Definition truthy (z : Z) : bool := negb (z =? 0)%Z.

Section Auth.

Variable sha256_hex : str -> str.
Variable jwt_encode : str -> Z -> Z -> str -> str.    (* sub, iat, exp, jti *)
Variable jwt_decode : str -> JwtResult.
Variable argon2_hash : str -> str -> str.              (* password, salt *)
Variable argon2_verify : str -> str -> VerifyResult.   (* hash, password *)
Variable ACCESS_TOKEN_TTL_MINUTES : Z.
Variable REFRESH_TOKEN_TTL_DAYS : Z.

Definition hash_refresh_token (token : str) : str := sha256_hex token.

Definition create_access_token (user_id : str) (env : Entropy) : str :=
  jwt_encode user_id
    (timestamp_seconds (now_access env))
    (timestamp_seconds (now_access env + minutes ACCESS_TOKEN_TTL_MINUTES)%Z)
    (jti env).

Definition decode_access_token (token : str) : M (option str) :=
  match jwt_decode token with
  | JwtExpired => raise (HTTPException 401 (lit "Access token expired"))
  | JwtInvalid => raise (HTTPException 401 (lit "Invalid access token"))
  | JwtPayload sub => ret sub
  end.

Definition get_user_by_username (name : str) : M (option UserRow) :=
  fun db => (inr (find (fun u => str_eqb (u_username u) name) (users db)), db).

Definition get_user_by_id (user_id : str) : M (option UserRow) :=
  fun db => (inr (find (fun u => str_eqb (u_id u) user_id) (users db)), db).

(** [INSERT INTO users]: the primary key and the [UNIQUE] user name are
    checked by SQLite. *)
Definition insert_user (row : UserRow) : M unit :=
  fun db =>
    if existsb (fun u => str_eqb (u_id u) (u_id row)
                         || str_eqb (u_username u) (u_username row))%bool
               (users db)
    then (inl LibraryError, db)
    else (inr tt, {| users := users db ++ [row];
                     refresh_tokens := refresh_tokens db |}).

Definition create_user (name pass : str) (is_admin password_changed : Z)
    (env : Entropy) : M (option UserRow) :=
  let user_id := new_user_id env in
  let password_hash := argon2_hash pass (salt env) in
  let now := now_user env in
  insert_user {| u_id := user_id; u_username := name;
                      u_password_hash := password_hash;
                      u_is_admin := is_admin;
                      u_password_changed := password_changed;
                      u_created_at := now; u_last_login_at := Some now |} ;;;
  get_user_by_id user_id.

Definition update_last_login (user_id : str) (env : Entropy) : M unit :=
  fun db =>
    (inr tt,
     {| users :=
          map (fun u =>
                 if str_eqb (u_id u) user_id
                 then {| u_id := u_id u; u_username := u_username u;
                         u_password_hash := u_password_hash u;
                         u_is_admin := u_is_admin u;
                         u_password_changed := u_password_changed u;
                         u_created_at := u_created_at u;
                         u_last_login_at := Some (now_login env) |}
                 else u)
              (users db);
        refresh_tokens := refresh_tokens db |}).

Definition revoke_row (t : RefreshTokenRow) (now : time) : RefreshTokenRow :=
  {| rt_id := rt_id t; rt_user_id := rt_user_id t;
     rt_token_hash := rt_token_hash t; rt_created_at := rt_created_at t;
     rt_expires_at := rt_expires_at t; rt_revoked_at := Some now;
     rt_user_agent := rt_user_agent t; rt_ip := rt_ip t |}.

(** [UPDATE refresh_tokens SET revoked_at = ? WHERE user_id = ? AND
    revoked_at IS NULL] *)
Definition revoke_refresh_tokens_for_user (user_id : str) (env : Entropy)
    : M unit :=
  fun db =>
    (inr tt,
     {| users := users db;
        refresh_tokens :=
          map (fun t =>
                 if (str_eqb (rt_user_id t) user_id
                     && is_none (rt_revoked_at t))%bool
                 then revoke_row t (now_revoke env) else t)
              (refresh_tokens db) |}).

Definition create_refresh_token_record (user_id agent ip : str)
    (env : Entropy) : M (str * str) :=
  let token := new_token env in
  let token_hash := hash_refresh_token token in
  let now := now_token env in
  let expires_at := (now + days REFRESH_TOKEN_TTL_DAYS)%Z in
  let token_id := new_token_id env in
  fun db =>
    if existsb (fun t => str_eqb (rt_id t) token_id) (refresh_tokens db)
    then (inl LibraryError, db)
    else (inr (token, token_hash),
          {| users := users db;
             refresh_tokens :=
               refresh_tokens db
               ++ [{| rt_id := token_id; rt_user_id := user_id;
                      rt_token_hash := token_hash; rt_created_at := now;
                      rt_expires_at := expires_at; rt_revoked_at := None;
                      rt_user_agent := agent; rt_ip := ip |}] |}).

Definition get_refresh_token_record (token_hash : str)
    : M (option RefreshTokenRow) :=
  fun db =>
    (inr (find (fun t => str_eqb (rt_token_hash t) token_hash)
               (refresh_tokens db)), db).

Definition header_or_empty (h : option str) : str :=
  match h with Some v => v | None => [] end.

Definition require_current_user (request : Request) : M UserRow :=
  let auth_header := header_or_empty (authorization request) in
  if negb (startswith auth_header (lit "Bearer "))
  then raise (HTTPException 401 (lit "Missing access token"))
  else
    let token := strip (replace_first (lit "Bearer ") [] auth_header) in
    sub <- decode_access_token token ;;
    match sub with
    | None => raise (HTTPException 401 (lit "Invalid access token"))
    | Some user_id =>
        if is_empty user_id
        then raise (HTTPException 401 (lit "Invalid access token"))
        else
          user <- get_user_by_id user_id ;;
          match user with
          | None => raise (HTTPException 401 (lit "User not found"))
          | Some user => ret user
          end
    end.

Definition require_admin_user (request : Request) : M UserRow :=
  user <- require_current_user request ;;
  if negb (truthy (u_is_admin user))
  then raise (HTTPException 403 (lit "Admin access required"))
  else ret user.

(** The body and cookie shared by register, login and refresh. *)
Definition auth_response (access_token : str) (user : UserRow)
    (refresh_token : str) : AuthResponse :=
  {| accessToken := access_token;
     ar_id := u_id user;
     ar_username := u_username user;
     ar_is_admin := truthy (u_is_admin user);
     ar_must_change_password := negb (truthy (u_password_changed user));
     ar_set_cookie := refresh_token |}.

Definition register (payload : AuthRequest) (request : Request)
    (env : Entropy) : M AuthResponse :=
  let name := strip (username payload) in
  let pass := strip (password payload) in
  if (is_empty name || is_empty pass)%bool
  then raise (HTTPException 400 (lit "Username and password are required"))
  else
    existing <- get_user_by_username name ;;
    match existing with
    | Some _ => raise (HTTPException 409 (lit "Username already exists"))
    | None =>
        created <- create_user name pass 0 1 env ;;
        match created with
        | None => raise LibraryError       (* subscripting None *)
        | Some user =>
            let access_token := create_access_token (u_id user) env in
            let agent := header_or_empty (user_agent request) in
            let ip := header_or_empty (client_host request) in
            revoke_refresh_tokens_for_user (u_id user) env ;;;
            tok <- create_refresh_token_record (u_id user) agent ip env ;;
            ret (auth_response access_token user (fst tok))
        end
    end.

Definition login (payload : AuthRequest) (request : Request)
    (env : Entropy) : M AuthResponse :=
  let name := strip (username payload) in
  let pass := strip (password payload) in
  if (is_empty name || is_empty pass)%bool
  then raise (HTTPException 400 (lit "Username and password are required"))
  else
    found <- get_user_by_username name ;;
    match found with
    | None => raise (HTTPException 401 (lit "Invalid username or password"))
    | Some user =>
        match argon2_verify (u_password_hash user) pass with
        | VerifyMismatch =>
            raise (HTTPException 401 (lit "Invalid username or password"))
        | VerifyFailed => raise LibraryError
        | VerifyOk =>
            update_last_login (u_id user) env ;;;
            revoke_refresh_tokens_for_user (u_id user) env ;;;
            let access_token := create_access_token (u_id user) env in
            let agent := header_or_empty (user_agent request) in
            let ip := header_or_empty (client_host request) in
            tok <- create_refresh_token_record (u_id user) agent ip env ;;
            ret (auth_response access_token user (fst tok))
        end
    end.

Definition refresh (request : Request) (env : Entropy) : M AuthResponse :=
  match refresh_cookie request with
  | None => raise (HTTPException 401 (lit "Missing refresh token"))
  | Some raw_token =>
      if is_empty raw_token
      then raise (HTTPException 401 (lit "Missing refresh token"))
      else
        let token_hash := hash_refresh_token raw_token in
        record <- get_refresh_token_record token_hash ;;
        match record with
        | None => raise (HTTPException 401 (lit "Invalid refresh token"))
        | Some record =>
            if negb (is_none (rt_revoked_at record))
            then raise (HTTPException 401 (lit "Refresh token revoked"))
            else if (rt_expires_at record <=? now_check env)%Z
            then raise (HTTPException 401 (lit "Refresh token expired"))
            else
              found <- get_user_by_id (rt_user_id record) ;;
              match found with
              | None => raise (HTTPException 401 (lit "User not found"))
              | Some user =>
                  revoke_refresh_tokens_for_user (u_id user) env ;;;
                  let agent := header_or_empty (user_agent request) in
                  let ip := header_or_empty (client_host request) in
                  tok <- create_refresh_token_record (u_id user) agent ip env ;;
                  let access_token := create_access_token (u_id user) env in
                  ret (auth_response access_token user (fst tok))
              end
        end
  end.

(** [logout] answers [{"success": true}] and clears the cookie. *)
Definition logout (request : Request) (env : Entropy) : M unit :=
  match refresh_cookie request with
  | None => ret tt
  | Some raw_token =>
      if is_empty raw_token then ret tt
      else
        let token_hash := hash_refresh_token raw_token in
        record <- get_refresh_token_record token_hash ;;
        match record with
        | None => ret tt
        | Some record => revoke_refresh_tokens_for_user (rt_user_id record) env
        end
  end.

(** [UPDATE users SET password_hash = ?, password_changed = 1 WHERE id = ?] *)
Definition set_password (user_id new_hash : str) : M unit :=
  fun db =>
    (inr tt,
     {| users :=
          map (fun u =>
                 if str_eqb (u_id u) user_id
                 then {| u_id := u_id u; u_username := u_username u;
                         u_password_hash := new_hash;
                         u_is_admin := u_is_admin u;
                         u_password_changed := 1;
                         u_created_at := u_created_at u;
                         u_last_login_at := u_last_login_at u |}
                 else u)
              (users db);
        refresh_tokens := refresh_tokens db |}).

Definition change_password (payload : ChangePasswordRequest)
    (request : Request) (env : Entropy) : M unit :=
  user <- require_current_user request ;;
  let current_password := strip (currentPassword payload) in
  let new_pass := strip (newPassword payload) in
  if (is_empty current_password || is_empty new_pass)%bool
  then raise (HTTPException 400 (lit "Current and new password are required"))
  else
    match argon2_verify (u_password_hash user) current_password with
    | VerifyMismatch =>
        raise (HTTPException 401 (lit "Current password is incorrect"))
    | VerifyFailed => raise LibraryError
    | VerifyOk => set_password (u_id user) (argon2_hash new_pass (salt env))
    end.

(** [admin_register]; [requested] is [str(payload.get("username", ""))].
    It answers with the user name and the generated password. *)
Definition admin_register (requested : str) (request : Request)
    (env : Entropy) : M (str * str) :=
  user <- require_current_user request ;;
  if negb (truthy (u_is_admin user))
  then raise (HTTPException 403 (lit "Admin access required"))
  else
    let name := strip requested in
    if is_empty name
    then raise (HTTPException 400 (lit "Username is required"))
    else
      existing <- get_user_by_username name ;;
      match existing with
      | Some _ => raise (HTTPException 409 (lit "Username already exists"))
      | None =>
          let pass := new_password env in
          created <- create_user name pass 0 0 env ;;
          match created with
          | None => raise LibraryError
          | Some created => ret (u_username created, pass)
          end
      end.

End Auth.

(** An unrevoked refresh token of a given user. *)
Definition active_for (user_id : str) (t : RefreshTokenRow) : bool :=
  (str_eqb (rt_user_id t) user_id && is_none (rt_revoked_at t))%bool.

(** The row that [create_refresh_token_record] inserts. *)
Definition issued_token_row (sha256_hex : str -> str)
    (REFRESH_TOKEN_TTL_DAYS : Z) (user_id agent ip : str) (env : Entropy)
    : RefreshTokenRow :=
  {| rt_id := new_token_id env; rt_user_id := user_id;
     rt_token_hash := sha256_hex (new_token env);
     rt_created_at := now_token env;
     rt_expires_at := (now_token env + days REFRESH_TOKEN_TTL_DAYS)%Z;
     rt_revoked_at := None; rt_user_agent := agent; rt_ip := ip |}.

(** What [revoke_refresh_tokens_for_user] does to one row. *)
Definition revoke_if (user_id : str) (now : time) (t : RefreshTokenRow)
    : RefreshTokenRow :=
  if active_for user_id t then revoke_row t now else t.

(** The row that [create_user] inserts. *)
Definition created_user_row (argon2_hash : str -> str -> str)
    (name pass : str) (is_admin password_changed : Z) (env : Entropy)
    : UserRow :=
  {| u_id := new_user_id env; u_username := name;
     u_password_hash := argon2_hash pass (salt env);
     u_is_admin := is_admin; u_password_changed := password_changed;
     u_created_at := now_user env; u_last_login_at := Some (now_user env) |}.

(** What [set_password] does to one row. *)
Definition password_set (user_id new_hash : str) (u : UserRow) : UserRow :=
  if str_eqb (u_id u) user_id
  then {| u_id := u_id u; u_username := u_username u;
          u_password_hash := new_hash; u_is_admin := u_is_admin u;
          u_password_changed := 1; u_created_at := u_created_at u;
          u_last_login_at := u_last_login_at u |}
  else u.

(** No user has two unrevoked refresh tokens. *)
Definition one_session (db : Database) : Prop :=
  forall user_id,
    (length (filter (active_for user_id) (refresh_tokens db)) <= 1)%nat.

(** [sanitize_user_id]; [isalnum] is [str.isalnum] on one character. *)
Definition allowed_in_id (isalnum : char -> bool) (ch : char) : bool :=
  (isalnum ch || N.eqb ch 95 || N.eqb ch 45)%bool%N.

Definition sanitize_user_id (isalnum : char -> bool) (user_id : str) : str :=
  let cleaned := filter (allowed_in_id isalnum) user_id in
  if is_empty cleaned then lit "user" else cleaned.

(** ** Stand-ins for the hash functions and the JWT codec

    Enough to run the account routes: the "hash" of a token is the token
    behind a [#], a password "hash" is the password itself, and an access
    token is the user id. *)

Definition demo_sha256 (t : str) : str := 35%N :: t.
Definition demo_jwt_encode (user_id : str) (iat exp : Z) (jti : str) : str :=
  user_id.
Definition demo_jwt_decode (token : str) : JwtResult :=
  if is_empty token then JwtInvalid else JwtPayload (Some token).
Definition demo_hash (pass salt : str) : str := pass.
Definition demo_verify (hash pass : str) : VerifyResult :=
  if str_eqb hash pass then VerifyOk else VerifyMismatch.

(** ASCII letters and digits, for [str.isalnum]. *)
Definition ascii_isalnum (c : char) : bool :=
  (in_range 48 57 c || in_range 65 90 c || in_range 97 122 c)%bool%N.

Definition demo_entropy (n : Z) : Entropy :=
  {| new_user_id := lit "u2"; salt := lit "s"; now_user := n;
     now_login := n; now_check := n; now_revoke := n; now_access := n;
     jti := lit "j"; new_token := 116%N :: lit (if (n <? 10)%Z then "a" else "b");
     now_token := n;
     new_token_id := 105%N :: lit (if (n <? 10)%Z then "a" else "b");
     new_password := lit "generated" |}.

Definition alice : UserRow :=
  {| u_id := lit "u1"; u_username := lit "alice";
     u_password_hash := lit "secret"; u_is_admin := 1;
     u_password_changed := 1; u_created_at := 0%Z; u_last_login_at := None |}.

Definition demo_db : Database :=
  {| users := [alice];
     refresh_tokens :=
       [{| rt_id := lit "i0"; rt_user_id := lit "u1";
           rt_token_hash := demo_sha256 (lit "t0"); rt_created_at := 0%Z;
           rt_expires_at := 1000%Z; rt_revoked_at := None;
           rt_user_agent := []; rt_ip := [] |}] |}.

Definition alice_login : AuthRequest :=
  {| username := lit " alice "; password := lit "secret" |}.

Definition bare_request : Request :=
  {| authorization := None; user_agent := None; client_host := None;
     refresh_cookie := None |}.

Definition cookie_request (token : str) : Request :=
  {| authorization := None; user_agent := None; client_host := None;
     refresh_cookie := Some token |}.

Definition bearer_request (token : str) : Request :=
  {| authorization := Some (lit "Bearer " ++ token); user_agent := None;
     client_host := None; refresh_cookie := None |}.

(** ** Design guidance entries

    The table [design_guidance] and its three writing routes.  The caller
    is the row that [require_current_user] returned; the uuid of a new
    entry and SQLite's [CURRENT_TIMESTAMP] are given. *)

Record GuidanceRow := {
  g_id : str;
  g_user_id : str;
  g_description : str;
  g_source : str;
  g_created_at : time
}.

(** [dict(row)] of the selected columns id, description, source and
    created_at. *)
Record GuidanceItem := {
  gi_id : str;
  gi_description : str;
  gi_source : str;
  gi_created_at : time
}.

Record DesignGuidanceCreateRequest := { cr_description : str; cr_source : str }.

Record DesignGuidanceUpdateRequest := { ur_description : str }.

Definition guidance_item (row : GuidanceRow) : GuidanceItem :=
  {| gi_id := g_id row; gi_description := g_description row;
     gi_source := g_source row; gi_created_at := g_created_at row |}.

(** [WHERE id = ?] *)
Definition has_id (guidance_id : str) (row : GuidanceRow) : bool :=
  str_eqb (g_id row) guidance_id.

(** [WHERE id = ? AND user_id = ?] *)
Definition owned_entry (guidance_id user_id : str) (row : GuidanceRow)
    : bool :=
  (str_eqb (g_id row) guidance_id && str_eqb (g_user_id row) user_id)%bool.

Definition guidance_sources : list str := [lit "text"; lit "pdf"; lit "import"].

(** [dict(row)] of what [fetchone] gave; [dict(None)] raises. *)
Definition selected_item (guidance_id : str) (table : list GuidanceRow)
    : (exn + GuidanceItem) * list GuidanceRow :=
  match find (has_id guidance_id) table with
  | Some row => (inr (guidance_item row), table)
  | None => (inl LibraryError, table)
  end.

Definition create_design_guidance (payload : DesignGuidanceCreateRequest)
    (user : UserRow) (guidance_id : str) (now : time)
    (table : list GuidanceRow) : (exn + GuidanceItem) * list GuidanceRow :=
  let description := strip (cr_description payload) in
  if is_empty description then
    (inl (HTTPException 400 (lit "Description is required")), table)
  else if (2000 <? length description)%nat then
    (inl (HTTPException 400 (lit "Description is too long")), table)
  else
    let source :=
      lower (strip (if is_empty (cr_source payload) then lit "text"
                    else cr_source payload)) in
    if negb (existsb (str_eqb source) guidance_sources) then
      (inl (HTTPException 400 (lit "Invalid source")), table)
    else if existsb (has_id guidance_id) table then
      (inl LibraryError, table)        (* the primary key is taken *)
    else
      selected_item guidance_id
        (table ++ [{| g_id := guidance_id; g_user_id := u_id user;
                      g_description := description; g_source := source;
                      g_created_at := now |}]).

(** [UPDATE design_guidance SET description = ? WHERE id = ? AND user_id = ?] *)
Definition set_description (guidance_id user_id description : str)
    (row : GuidanceRow) : GuidanceRow :=
  if owned_entry guidance_id user_id row then
    {| g_id := g_id row; g_user_id := g_user_id row;
       g_description := description; g_source := g_source row;
       g_created_at := g_created_at row |}
  else row.

Definition update_design_guidance (guidance_id : str)
    (payload : DesignGuidanceUpdateRequest) (user : UserRow)
    (table : list GuidanceRow) : (exn + GuidanceItem) * list GuidanceRow :=
  let description := strip (ur_description payload) in
  if is_empty description then
    (inl (HTTPException 400 (lit "Description is required")), table)
  else if (2000 <? length description)%nat then
    (inl (HTTPException 400 (lit "Description is too long")), table)
  else
    match find (owned_entry guidance_id (u_id user)) table with
    | None => (inl (HTTPException 404 (lit "Design guidance not found")), table)
    | Some _ =>
        selected_item guidance_id
          (map (set_description guidance_id (u_id user) description) table)
    end.

Definition delete_design_guidance (guidance_id : str) (user : UserRow)
    (table : list GuidanceRow) : (exn + unit) * list GuidanceRow :=
  match find (owned_entry guidance_id (u_id user)) table with
  | None => (inl (HTTPException 404 (lit "Design guidance not found")), table)
  | Some _ =>
      (inr tt,
       filter (fun row => negb (owned_entry guidance_id (u_id user) row)) table)
  end.

(** What the routes check before they store an entry. *)
Definition guidance_ok (row : GuidanceRow) : Prop :=
  g_description row <> []
  /\ strip (g_description row) = g_description row
  /\ (length (g_description row) <= 2000)%nat
  /\ In (g_source row) guidance_sources.

(** The rows a user does not own. *)
Definition foreign_to (user : UserRow) (row : GuidanceRow) : bool :=
  negb (str_eqb (g_user_id row) (u_id user)).

Definition bob : UserRow :=
  {| u_id := lit "u2"; u_username := lit "bob";
     u_password_hash := lit "pw"; u_is_admin := 0;
     u_password_changed := 1; u_created_at := 0%Z; u_last_login_at := None |}.

Definition demo_guidance : list GuidanceRow :=
  [{| g_id := lit "g1"; g_user_id := lit "u1";
      g_description := lit "Use warm colours"; g_source := lit "text";
      g_created_at := 1%Z |};
   {| g_id := lit "g2"; g_user_id := lit "u2";
      g_description := lit "Serif titles"; g_source := lit "pdf";
      g_created_at := 2%Z |}].

(** ** The chat proxy and the background worker

    [httpx.post] is the outside world: [post k] says what the [k]-th call
    made while serving one request does.  Every call is recorded with the
    Authorization header and the JSON body it sent. *)

Unset Elimination Schemes.
Inductive Json :=
| JNull
| JBool (b : bool)
| JNumber (digits : str)
| JString (s : str)
| JArray (items : list Json)
| JObject (fields : list (str * Json)).
Set Elimination Schemes.

Record UpstreamResponse := {
  resp_status_code : Z;            (* response.status_code *)
  resp_json : option Json;         (* response.json(); None: ValueError *)
  resp_text : str                  (* response.text *)
}.

Inductive PostOutcome :=
| Responded (response : UpstreamResponse)
| ReadTimeout (message : str)      (* httpx.ReadTimeout *)
| RequestError (message : str)     (* any other httpx.RequestError *)
| OtherException (message : str).  (* anything else *)

Record PostCall := { call_authorization : str; call_json : Json }.

(** The variables [response] and [last_exc] of the retry loop. *)
Record LoopState := {
  ls_response : option UpstreamResponse;
  ls_last_exc : option str
}.

Record JSONResponse := { jr_status_code : Z; jr_content : Json }.

Record TaskRow := {
  t_id : str;
  t_user_id : str;
  t_task_type : str;
  t_status : str;
  t_payload : str;
  t_result : option str;
  t_error : option str;
  t_created_at : time;
  t_started_at : option time;
  t_completed_at : option time
}.

(** The Authorization value both callers build from [POLO_API_KEY]. *)
Definition bearer_value (key : str) : str :=
  let auth_value := strip key in
  if (negb (is_empty auth_value)
      && negb (startswith (lower auth_value) (lit "bearer ")))%bool
  then lit "Bearer " ++ auth_value
  else auth_value.

(** [data = response.json()], or [{"error": response.text}]. *)
Definition response_data (response : UpstreamResponse) : Json :=
  match resp_json response with
  | Some data => data
  | None => JObject [(lit "error", JString (resp_text response))]
  end.

Definition has_task_id (task_id : str) (t : TaskRow) : bool :=
  str_eqb (t_id t) task_id.

(** [UPDATE ai_tasks SET status = 'running', started_at = ? WHERE id = ?] *)
Definition set_running (task_id : str) (now : time) (t : TaskRow) : TaskRow :=
  if has_task_id task_id t then
    {| t_id := t_id t; t_user_id := t_user_id t;
       t_task_type := t_task_type t; t_status := lit "running";
       t_payload := t_payload t; t_result := t_result t;
       t_error := t_error t; t_created_at := t_created_at t;
       t_started_at := Some now; t_completed_at := t_completed_at t |}
  else t.

(** [UPDATE ai_tasks SET status = 'completed', result = ?, completed_at = ?
     WHERE id = ?] *)
Definition set_completed (task_id result : str) (now : time) (t : TaskRow)
    : TaskRow :=
  if has_task_id task_id t then
    {| t_id := t_id t; t_user_id := t_user_id t;
       t_task_type := t_task_type t; t_status := lit "completed";
       t_payload := t_payload t; t_result := Some result;
       t_error := t_error t; t_created_at := t_created_at t;
       t_started_at := t_started_at t; t_completed_at := Some now |}
  else t.

(** [UPDATE ai_tasks SET status = 'error', error = ?, completed_at = ?
     WHERE id = ?] *)
Definition set_error (task_id error : str) (now : time) (t : TaskRow)
    : TaskRow :=
  if has_task_id task_id t then
    {| t_id := t_id t; t_user_id := t_user_id t;
       t_task_type := t_task_type t; t_status := lit "error";
       t_payload := t_payload t; t_result := t_result t;
       t_error := Some error; t_created_at := t_created_at t;
       t_started_at := t_started_at t; t_completed_at := Some now |}
  else t.

Section Chat.

Variable POLO_API_KEY : str.
Variable post : nat -> PostOutcome.
Variable json_loads : str -> str + Json.     (* the error text, or the value *)
Variable json_dumps : Json -> str.
Variable str_of_int : Z -> str.

Definition attempts : nat := 2.

(** The loop [for attempt in range(1, attempts + 1)]: a response ends it,
    a read timeout goes on to the next attempt, another request error ends
    it, and anything else leaves it as an exception. *)
Fixpoint post_loop (call : PostCall) (range : list nat) (state : LoopState)
    (calls : list PostCall) : (str + LoopState) * list PostCall :=
  match range with
  | [] => (inr state, calls)
  | attempt :: rest =>
      match post (length calls) with
      | Responded response =>
          (inr {| ls_response := Some response; ls_last_exc := None |},
           calls ++ [call])
      | ReadTimeout message =>
          post_loop call rest
            {| ls_response := ls_response state;
               ls_last_exc := Some message |}
            (calls ++ [call])
      | RequestError message =>
          (inr {| ls_response := ls_response state;
                  ls_last_exc := Some message |},
           calls ++ [call])
      | OtherException message => (inl message, calls ++ [call])
      end
  end.

Definition ai_chat (payload : Json) : (exn + JSONResponse) * list PostCall :=
  if is_empty POLO_API_KEY then
    (inl (HTTPException 500 (lit "POLO_API_KEY not configured on server")), [])
  else
    let auth_value := bearer_value POLO_API_KEY in
    match post_loop {| call_authorization := auth_value;
                       call_json := payload |}
            (seq 1 attempts)
            {| ls_response := None; ls_last_exc := None |} [] with
    | (inl _, calls) => (inl LibraryError, calls)
    | (inr state, calls) =>
        match ls_last_exc state with
        | Some message =>
            (inl (HTTPException 502
                    (lit "Polo API request failed: " ++ message)), calls)
        | None =>
            match ls_response state with
            | None => (inl LibraryError, calls)       (* unbound [response] *)
            | Some response =>
                let data := response_data response in
                if (400 <=? resp_status_code response)%Z then
                  (inr {| jr_status_code := resp_status_code response;
                          jr_content := data |}, calls)
                else (inr {| jr_status_code := 200; jr_content := data |},
                      calls)
            end
        end
    end.

(** The [try] block of [execute_ai_task] once the task is marked running:
    the data to store, or the text of the exception that the handler
    stores. *)
Definition run_task (task : TaskRow) : (str + Json) * list PostCall :=
  match json_loads (t_payload task) with
  | inl message => (inl message, [])
  | inr payload =>
      if is_empty POLO_API_KEY then
        (inl (lit "POLO_API_KEY not configured on server"), [])
      else
        let auth_value := bearer_value POLO_API_KEY in
        match post_loop {| call_authorization := auth_value;
                           call_json := payload |}
                (seq 1 attempts)
                {| ls_response := None; ls_last_exc := None |} [] with
        | (inl message, calls) => (inl message, calls)
        | (inr state, calls) =>
            match ls_last_exc state with
            | Some message =>
                (inl (lit "Polo API request failed: " ++ message), calls)
            | None =>
                match ls_response state with
                | None =>
                    (inl (lit "'NoneType' object has no attribute 'json'"),
                     calls)
                | Some response =>
                    let data := response_data response in
                    if (400 <=? resp_status_code response)%Z then
                      (inl (lit "Polo API error ("
                            ++ str_of_int (resp_status_code response)
                            ++ lit "): " ++ json_dumps data), calls)
                    else (inr data, calls)
                end
            end
        end
  end.

Definition execute_ai_task (task_id : str) (now_started now_completed : time)
    (tasks : list TaskRow) : list TaskRow * list PostCall :=
  match find (has_task_id task_id) tasks with
  | None => (tasks, [])
  | Some task =>
      let running := map (set_running task_id now_started) tasks in
      match run_task task with
      | (inr data, calls) =>
          (map (set_completed task_id (json_dumps data) now_completed)
               running, calls)
      | (inl message, calls) =>
          (map (set_error task_id message now_completed) running, calls)
      end
  end.

End Chat.

(** A task that has come to an end, one way or the other. *)
Definition finished (now_started now_completed : time) (t : TaskRow) : Prop :=
  t_started_at t = Some now_started
  /\ t_completed_at t = Some now_completed
  /\ (t_status t = lit "completed" /\ t_result t <> None
      \/ t_status t = lit "error" /\ t_error t <> None).

(** The last call made failed in a way that the loop records. *)
Definition transport_failed (o : PostOutcome) : Prop :=
  match o with
  | ReadTimeout _ | RequestError _ => True
  | Responded _ | OtherException _ => False
  end.

Definition is_read_timeout (o : PostOutcome) : bool :=
  match o with ReadTimeout _ => true | _ => false end.

(** An upstream that times out once and then answers with [status]. *)
Definition slow_upstream (status : Z) (k : nat) : PostOutcome :=
  match k with
  | O => ReadTimeout (lit "slow")
  | S _ => Responded {| resp_status_code := status; resp_json := None;
                        resp_text := lit "busy" |}
  end.

Definition demo_loads (s : str) : str + Json :=
  if is_empty s then inl (lit "Expecting value") else inr (JString s).

Definition demo_dumps (j : Json) : str :=
  match j with JString s => s | _ => lit "{}" end.

Definition demo_str_of_int (z : Z) : str := lit "n".

Definition demo_task (id : string) : TaskRow :=
  {| t_id := lit id; t_user_id := lit "u1"; t_task_type := lit "chat";
     t_status := lit "pending"; t_payload := lit "hello"; t_result := None;
     t_error := None; t_created_at := 0%Z; t_started_at := None;
     t_completed_at := None |}.

(** ** Block layout in double precision

    The numbers of [draw_layout_text] are Python floats: IEEE 754 binary64,
    every operation rounded to the nearest double.  Which lines fit a box
    is decided by sums of doubles, so the loops are embedded a second time
    with the kernel's binary64 numbers.  What Pillow does is left open: the
    advance width, the line breaker and the styled drawing call are
    parameters, and each of them may raise.  The canvas is represented by
    the calls of [draw_line_with_style] made on it, in order. *)

Section Binary64.

Import PrimFloat.
Local Open Scope float_scope.

(** [float(n)] for a Python [int]: the nearest double, ties to even; an
    [int] beyond the doubles raises [OverflowError]. *)
Definition float_of_int (n : Z) : exn + float :=
  match SpecFloat.binary_normalize FloatOps.prec FloatOps.emax n 0 false with
  | SpecFloat.S754_infinity _ => inl LibraryError
  | f => inr (FloatOps.SF2Prim f)
  end.

Record TextBoxPayload64 := {
  box64_x : float;
  box64_y : float;
  box64_width : float;
  box64_height : float
}.

Record TextBlockPayload64 := {
  key64 : str;
  text64 : str;
  box64 : TextBoxPayload64;
  style64 : TextStylePayload
}.

(** One call [draw_line_with_style(image, draw, line, draw_x, cursor_y,
    ...)]; the remaining arguments are the same for all lines of a
    block. *)
Record LineCall := { lc_line : str; lc_x : float; lc_y : float }.

(** The locals of [draw_layout_text] that its loops read. *)
Record Locals64 := {
  l_font : FreeTypeFont;
  l_color : str;
  l_underline : bool;
  l_bold : bool;
  l_italic : bool;
  l_line_height : float;
  l_x : float;
  l_y : float;
  l_w : float;
  l_h : float;
  l_align : str
}.

Variable load_font : str -> Z -> exn + FreeTypeFont.
Variable textlength64 : FreeTypeFont -> str -> exn + float.
Variable wrap_text_lines64 : str -> float -> FreeTypeFont -> exn + list str.
Variable draw_line_with_style64 : Locals64 -> LineCall -> option exn.

(** The head of [draw_layout_text], up to [cursor_y = y]. *)
Definition block_locals64 (image_width image_height : Z)
    (block : TextBlockPayload64) (font_path : str) : exn + Locals64 :=
  match load_font font_path (fontSize (style64 block)) with
  | inl e => inl e
  | inr font =>
      let bold := (700 <=? fontWeight (style64 block))%Z in
      let italic := str_eqb (fontStyle (style64 block)) (lit "italic") in
      let underline :=
        str_eqb (textDecoration (style64 block)) (lit "underline") in
      match float_of_int (fontSize (style64 block)),
            float_of_int image_width, float_of_int image_height with
      | inr size, inr width, inr height =>
          inr {| l_font := font; l_color := color (style64 block);
                 l_underline := underline; l_bold := bold;
                 l_italic := italic;
                 l_line_height := size * 0x1.3333333333333p+0;   (* 1.2 *)
                 l_x := box64_x (box64 block) * width;
                 l_y := box64_y (box64 block) * height;
                 l_w := box64_width (box64 block) * width;
                 l_h := box64_height (box64 block) * height;
                 l_align :=
                   if is_empty (textAlign (style64 block)) then lit "left"
                   else textAlign (style64 block) |}
      | _, _, _ => inl LibraryError
      end
  end.

Variable L : Locals64.

(** [cursor_y + line_height > y + h] *)
Definition overflows64 (cursor_y : float) : bool :=
  l_y L + l_h L <? cursor_y + l_line_height L.

Definition fits64 (call : LineCall) : Prop :=
  overflows64 (lc_y call) = false.

(** [n * line_height], as the code would compute it. *)
Definition line_heights64 (n : Z) : exn + float :=
  match float_of_int n with
  | inl e => inl e
  | inr k => inr (k * l_line_height L)
  end.

Definition draw_x_of64 (line_width : float) : float :=
  if str_eqb (l_align L) (lit "center")
  then l_x L + (l_w L - line_width) / 2
  else if str_eqb (l_align L) (lit "right")
  then l_x L + (l_w L - line_width)
  else l_x L.

(** The loop over the lines of one paragraph (in [respectLineBreaks]
    mode: over all segments): the calls it makes, and how it ends -- with
    an exception of Pillow, or with the cursor and the flag that tells
    whether it left the function through [return]. *)
Fixpoint draw_lines64 (lines : list str) (cursor_y : float)
    : (exn + float * bool) * list LineCall :=
  match lines with
  | [] => (inr (cursor_y, false), [])
  | line :: rest =>
      if overflows64 cursor_y then (inr (cursor_y, true), [])
      else
        match textlength64 (l_font L) line with
        | inl e => (inl e, [])
        | inr line_width =>
            let call := {| lc_line := line; lc_x := draw_x_of64 line_width;
                           lc_y := cursor_y |} in
            match draw_line_with_style64 L call with
            | Some e => (inl e, [call])
            | None =>
                let '(result, calls) :=
                  draw_lines64 rest (cursor_y + l_line_height L) in
                (result, call :: calls)
            end
        end
  end.

(** The loop over [enumerate(paragraphs)]; [n] is [len(paragraphs)]. *)
Fixpoint draw_paragraphs64 (n idx : nat) (paragraphs : list str)
    (cursor_y : float) : option exn * list LineCall :=
  match paragraphs with
  | [] => (None, [])
  | paragraph :: rest =>
      match wrap_text_lines64 paragraph (l_w L) (l_font L) with
      | inl e => (Some e, [])
      | inr lines =>
          match draw_lines64 lines cursor_y with
          | (inl e, calls) => (Some e, calls)
          | (inr (cursor1, true), calls) => (None, calls)
          | (inr (cursor1, false), calls) =>
              let cursor2 :=
                if (Z.of_nat idx <? Z.of_nat n - 1)%Z
                then cursor1 + l_line_height L * 0x1.999999999999ap-3 (* 0.2 *)
                else cursor1 in
              let '(result, more) :=
                draw_paragraphs64 n (S idx) rest cursor2 in
              (result, calls ++ more)
          end
      end
  end.

(** *** The same loops without the overflow test

    Not in the source: what the block would draw were its box without a
    bottom.  The cursor moves exactly as in the loops above. *)

Fixpoint unclipped_lines64 (lines : list str) (cursor_y : float)
    : (exn + float) * list LineCall :=
  match lines with
  | [] => (inr cursor_y, [])
  | line :: rest =>
      match textlength64 (l_font L) line with
      | inl e => (inl e, [])
      | inr line_width =>
          let call := {| lc_line := line; lc_x := draw_x_of64 line_width;
                         lc_y := cursor_y |} in
          match draw_line_with_style64 L call with
          | Some e => (inl e, [call])
          | None =>
              let '(result, calls) :=
                unclipped_lines64 rest (cursor_y + l_line_height L) in
              (result, call :: calls)
          end
      end
  end.

Fixpoint unclipped_paragraphs64 (n idx : nat) (paragraphs : list str)
    (cursor_y : float) : option exn * list LineCall :=
  match paragraphs with
  | [] => (None, [])
  | paragraph :: rest =>
      match wrap_text_lines64 paragraph (l_w L) (l_font L) with
      | inl e => (Some e, [])
      | inr lines =>
          match unclipped_lines64 lines cursor_y with
          | (inl e, calls) => (Some e, calls)
          | (inr cursor1, calls) =>
              let cursor2 :=
                if (Z.of_nat idx <? Z.of_nat n - 1)%Z
                then cursor1 + l_line_height L * 0x1.999999999999ap-3
                else cursor1 in
              let '(result, more) :=
                unclipped_paragraphs64 n (S idx) rest cursor2 in
              (result, calls ++ more)
          end
      end
  end.

(** The calls in front of the first one whose cursor overflows. *)
Fixpoint fitting_prefix64 (calls : list LineCall) : list LineCall :=
  match calls with
  | [] => []
  | call :: rest =>
      if overflows64 (lc_y call) then [] else call :: fitting_prefix64 rest
  end.

End Binary64.

(** [draw_layout_text]: the exception that ended it, if any, and the
    calls of [draw_line_with_style] it made. *)
Definition draw_layout_text64
    (load_font : str -> Z -> exn + FreeTypeFont)
    (textlength64 : FreeTypeFont -> str -> exn + PrimFloat.float)
    (wrap_text_lines64 :
       str -> PrimFloat.float -> FreeTypeFont -> exn + list str)
    (draw_line_with_style64 : Locals64 -> LineCall -> option exn)
    (image_width image_height : Z) (block : TextBlockPayload64)
    (font_path : str) (respect_line_breaks : bool)
    : option exn * list LineCall :=
  match block_locals64 load_font image_width image_height block font_path with
  | inl e => (Some e, [])
  | inr L =>
      let cursor_y := l_y L in
      let paragraphs := split_on newline (text64 block) in
      if respect_line_breaks then
        match draw_lines64 textlength64 draw_line_with_style64 L paragraphs
                cursor_y with
        | (inl e, calls) => (Some e, calls)
        | (inr _, calls) => (None, calls)
        end
      else
        draw_paragraphs64 textlength64 wrap_text_lines64
          draw_line_with_style64 L (length paragraphs) 0 paragraphs cursor_y
  end.

(** The block in a box without bottom (not in the source). *)
Definition unclipped_layout64
    (load_font : str -> Z -> exn + FreeTypeFont)
    (textlength64 : FreeTypeFont -> str -> exn + PrimFloat.float)
    (wrap_text_lines64 :
       str -> PrimFloat.float -> FreeTypeFont -> exn + list str)
    (draw_line_with_style64 : Locals64 -> LineCall -> option exn)
    (image_width image_height : Z) (block : TextBlockPayload64)
    (font_path : str) (respect_line_breaks : bool)
    : option exn * list LineCall :=
  match block_locals64 load_font image_width image_height block font_path with
  | inl e => (Some e, [])
  | inr L =>
      let cursor_y := l_y L in
      let paragraphs := split_on newline (text64 block) in
      if respect_line_breaks then
        match unclipped_lines64 textlength64 draw_line_with_style64 L
                paragraphs cursor_y with
        | (inl e, calls) => (Some e, calls)
        | (inr _, calls) => (None, calls)
        end
      else
        unclipped_paragraphs64 textlength64 wrap_text_lines64
          draw_line_with_style64 L (length paragraphs) 0 paragraphs cursor_y
  end.

(** How the line loop can end, set against the same loop without the
    test: with the same exception, at the end of the lines, or through
    [return] at a line that the other loop goes on to measure and draw. *)
Inductive lines_end64 (L : Locals64) (drawn : list LineCall)
    : exn + PrimFloat.float * bool
      -> (exn + PrimFloat.float) * list LineCall -> Prop :=
| lines_raised e : lines_end64 L drawn (inl e) (inl e, drawn)
| lines_done cursor :
    lines_end64 L drawn (inr (cursor, false)) (inr cursor, drawn)
| lines_left_unmeasured cursor e :
    lines_end64 L drawn (inr (cursor, true)) (inl e, drawn)
| lines_left cursor result call rest :
    overflows64 L (lc_y call) = true ->
    lines_end64 L drawn (inr (cursor, true)) (result, drawn ++ call :: rest).

(** *** A block for the double-precision loops

    A canvas 100 by 144, a box that starts at half its height and is half
    its height tall, font size 12: [y = h = 72], and the line height is
    [12 * 1.2].  The metric is fixed-pitch, one pixel a character, and the
    breaker is [wrap_text_lines] with that metric at the width of the box,
    one pixel: ten characters make ten lines. *)

Section Block64.

Import PrimFloat.
Local Open Scope float_scope.

Definition unit_pitch64 (font : FreeTypeFont) (s : str) : exn + float :=
  float_of_int (Z.of_nat (length s)).

Definition unit_wrap64 (paragraph : str) (max_width : float)
    (font : FreeTypeFont) : exn + list str :=
  inr (wrap_text_lines mono_textlength paragraph 1%Q font).

Definition draws_well64 (L : Locals64) (call : LineCall) : option exn := None.

Definition exact_fit_block64 : TextBlockPayload64 :=
  {| key64 := lit "title"; text64 := lit "abcdefghij";
     box64 := {| box64_x := 0; box64_y := 0.5;
                 box64_width := 0x1.47ae147ae147bp-7;          (* 0.01 *)
                 box64_height := 0.5 |};
     style64 := plain_style 12 |}.

End Block64.

(** ** Notions used to state further properties *)

Definition nonspace (c : char) : bool := negb (isspace c).

(** A break between two consecutive lines is forced when the first line
    together with the first character of the second does not fit. *)
Definition head_forced (textlength : FreeTypeFont -> str -> Q)
    (font : FreeTypeFont) (max_width : Q) (prev l : str) : Prop :=
  match l with
  | [] => True
  | c :: _ => max_width < measure_text textlength (prev ++ [c]) font
  end.

(** The same for words: the first line followed by a space and the first
    word of the second does not fit. *)
Definition word_forced (textlength : FreeTypeFont -> str -> Q)
    (font : FreeTypeFont) (max_width : Q) (prev l : str) : Prop :=
  match split l with
  | [] => True
  | wd :: _ => max_width < measure_text textlength (prev ++ space :: wd) font
  end.

(** [R] holds between every two consecutive elements of a list. *)
Definition adjacent {A} (R : A -> A -> Prop) (ls : list A) : Prop :=
  forall i a b,
    nth_error ls i = Some a -> nth_error ls (S i) = Some b -> R a b.

(** A tidy line: words separated by single spaces, nothing else. *)
Definition tidy (l : str) : Prop := l <> [] /\ join_space (split l) = l.

(** Two images that differ at most in what was drawn on them. *)
Definition same_frame (a b : Image) : Prop :=
  im_mode a = im_mode b /\ im_size a = im_size b /\ im_fill a = im_fill b.

(** A transparent PNG layout of one block, written in capitals. *)
Definition png_layout : LayoutRequest :=
  {| lr_font := lit "demo.ttf"; lr_width := 100; lr_height := 50;
     lr_background := lit "Transparent"; lr_format := lit "PNG";
     blocks := [narrow_block]; respectLineBreaks := true |}.

(** * Properties *)

(** ** Strings *)

Lemma is_empty_true (s : str) : is_empty s = true <-> s = [].
Proof. destruct s; simpl; split; congruence. Qed.

Lemma is_empty_false (s : str) : is_empty s = false <-> s <> [].
Proof. destruct s; simpl; split; congruence. Qed.

Lemma isspace_space : isspace space = true.
Proof. reflexivity. Qed.

Lemma str_eqb_eq (a b : str) : str_eqb a b = true <-> a = b.
Proof.
  unfold str_eqb. destruct (list_eq_dec N.eq_dec a b); split; congruence.
Qed.

Lemma str_eqb_neq (a b : str) : str_eqb a b = false <-> a <> b.
Proof.
  unfold str_eqb. destruct (list_eq_dec N.eq_dec a b); split; congruence.
Qed.

(** ** Line breaker: width of the produced lines *)

Section WrapWidth.

Variable textlength : FreeTypeFont -> str -> Q.
Variable font : FreeTypeFont.
Variable max_width : Q.

Local Abbreviation ok := (acceptable textlength font max_width).

Lemma fits_or_exceeds (s : str) :
  Qle_bool (measure_text textlength s font) max_width = true
  \/ max_width < measure_text textlength s font.
Proof.
  destruct (Qle_bool (measure_text textlength s font) max_width) eqn:E; auto.
  right. apply Qnot_le_lt. intro H. apply Qle_bool_iff in H. congruence.
Qed.

Lemma single_acceptable (ch : char) : ok [ch].
Proof.
  destruct (fits_or_exceeds [ch]) as [H | H].
  - left. now apply Qle_bool_iff.
  - right. split; [reflexivity | exact H].
Qed.

Lemma Forall_snoc {A} (P : A -> Prop) (l : list A) (a : A) :
  Forall P l -> P a -> Forall P (l ++ [a]).
Proof. intros Hl Ha. apply Forall_app. split; auto. Qed.

(** Invariant of the character loop: closed lines are ok, and so
    is the line being filled unless it is still empty. *)
Lemma break_chars_acceptable (s : str) :
  forall lines current,
    Forall ok lines ->
    (current = [] \/ ok current) ->
    Forall ok (fst (break_chars textlength font max_width s lines current))
    /\ (snd (break_chars textlength font max_width s lines current) = []
        \/ ok (snd (break_chars textlength font max_width s lines current))).
Proof.
  induction s as [| ch s' IH]; intros lines current Hl Hc; simpl.
  - split; assumption.
  - destruct (Qle_bool (measure_text textlength (current ++ [ch]) font) max_width)
      eqn:Efit; simpl.
    + apply IH; [assumption |].
      right. left. now apply Qle_bool_iff.
    + destruct current as [| c0 cur']; simpl.
      * apply IH; [assumption |]. right. apply single_acceptable.
      * apply IH.
        -- apply Forall_snoc; [assumption |].
           destruct Hc as [Hc | Hc]; [discriminate | exact Hc].
        -- right. apply single_acceptable.
Qed.

Lemma wrap_words_acceptable (words : list str) :
  forall lines current,
    Forall ok lines ->
    (current = [] \/ ok current) ->
    Forall ok (fst (wrap_words textlength font max_width words lines current))
    /\ (snd (wrap_words textlength font max_width words lines current) = []
        \/ ok (snd (wrap_words textlength font max_width words lines current))).
Proof.
  induction words as [| word words' IH]; intros lines current Hl Hc; simpl.
  - split; assumption.
  - destruct (Qle_bool
                (measure_text textlength (strip (current ++ space :: word)) font)
                max_width) eqn:Etest.
    + apply IH; [assumption |]. right. left. now apply Qle_bool_iff.
    + assert (Hl1 : Forall ok
                      (if is_empty current then lines else lines ++ [current])).
      { destruct current as [| c0 cur']; simpl; [assumption |].
        apply Forall_snoc; [assumption |].
        destruct Hc as [Hc | Hc]; [discriminate | exact Hc]. }
      destruct (Qle_bool (measure_text textlength word font) max_width) eqn:Eword.
      * apply IH; [assumption |]. right. left. now apply Qle_bool_iff.
      * pose proof (break_chars_acceptable word _ [] Hl1 (or_introl eq_refl))
          as Hb.
        destruct (break_chars _ _ _ word _ _) as [lines2 chunk].
        destruct Hb as [Hb1 Hb2]. apply IH; assumption.
Qed.

Lemma flush_acceptable (st : list str * str) :
  Forall ok (fst st) ->
  (snd st = [] \/ ok (snd st)) ->
  Forall ok (flush st).
Proof.
  destruct st as [lines current]. simpl. intros Hl Hc.
  destruct current as [| c0 cur']; simpl; [assumption |].
  apply Forall_snoc; [assumption |].
  destruct Hc as [Hc | Hc]; [discriminate | exact Hc].
Qed.

Lemma wrap_text_lines_acceptable (p : str) :
  measure_text textlength [] font <= max_width ->
  Forall ok (wrap_text_lines textlength p max_width font).
Proof.
  intros Hempty. unfold wrap_text_lines.
  destruct (is_empty p).
  - constructor; [left; exact Hempty | constructor].
  - destruct (negb (existsb isspace p)).
    + apply flush_acceptable;
        apply (break_chars_acceptable p [] []); auto.
    + apply flush_acceptable;
        apply (wrap_words_acceptable (split p) [] []); auto.
Qed.

End WrapWidth.

(** C1. Wrap correctness.  For every paragraph [p] and width [w > 0],
    with a metrics function that gives the empty string no advance, every
    line that [wrap_text_lines] produces either measures at most [w], or
    is a single character that alone exceeds [w]; hence no line of two
    or more characters exceeds [w]. *)
Theorem wrap_lines_within_width :
  forall (textlength : FreeTypeFont -> str -> Q) (font : FreeTypeFont)
         (p : str) (w : Q) (line : str),
    0 < w ->
    textlength font [] == 0 ->
    In line (wrap_text_lines textlength p w font) ->
    (measure_text textlength line font <= w
     \/ (List.length line = 1%nat /\ w < measure_text textlength line font))
    /\ ((2 <= List.length line)%nat -> measure_text textlength line font <= w).
Proof.
  intros textlength font p w line Hw H0 Hin.
  assert (Hacc : acceptable textlength font w line).
  { pose proof (wrap_text_lines_acceptable textlength font w p) as HF.
    rewrite Forall_forall in HF. apply HF; [| exact Hin].
    unfold measure_text. rewrite H0. apply Qlt_le_weak. exact Hw. }
  split; [exact Hacc |].
  intros Hlen. destruct Hacc as [Hfit | [Hone _]]; [exact Hfit | lia].
Qed.

Lemma wrap_lines_within_width_witness :
  (measure_text mono_textlength (lit "abc") sample_font <= 3
   \/ (List.length (lit "abc") = 1%nat
       /\ 3 < measure_text mono_textlength (lit "abc") sample_font))
  /\ ((2 <= List.length (lit "abc"))%nat ->
      measure_text mono_textlength (lit "abc") sample_font <= 3).
Proof.
  apply (wrap_lines_within_width mono_textlength sample_font
           (lit "abcdef g") 3 (lit "abc")).
  - reflexivity.
  - reflexivity.
  - vm_compute. left. reflexivity.
Defined.

(** The two scenarios of the specification, with one pixel per character:
    ["a b"] at the width of ["a"], and seven characters without
    whitespace at the width of three. *)
Example wrap_a_b :
  wrap_text_lines mono_textlength (lit "a b") 1 sample_font
  = [lit "a"; lit "b"].
Proof. reflexivity. Qed.

Example wrap_seven_characters :
  map (@length char)
      (wrap_text_lines mono_textlength (lit "abcdefg") 3 sample_font)
  = [3; 3; 1]%nat.
Proof. reflexivity. Qed.

(** ** Line breaker: whitespace-only paragraphs *)

Lemma split_from_all_space (s : str) :
  forallb isspace s = true -> split_from [] s = [].
Proof.
  induction s as [| c s' IH]; simpl; [reflexivity |].
  intros H. apply andb_prop in H as [Hc Hs]. rewrite Hc. simpl. auto.
Qed.

Lemma all_space_has_space (s : str) :
  s <> [] -> forallb isspace s = true -> existsb isspace s = true.
Proof.
  destruct s as [| c s']; [congruence |]. simpl. intros _ H.
  apply andb_prop in H as [Hc _]. rewrite Hc. reflexivity.
Qed.

Lemma wrap_text_lines_all_space
    (textlength : FreeTypeFont -> str -> Q) (font : FreeTypeFont)
    (p : str) (w : Q) :
  p <> [] -> forallb isspace p = true ->
  wrap_text_lines textlength p w font = [].
Proof.
  intros Hne Hall. unfold wrap_text_lines.
  apply is_empty_false in Hne. rewrite Hne.
  apply is_empty_false in Hne.
  rewrite (all_space_has_space p Hne Hall). simpl.
  unfold split. rewrite (split_from_all_space p Hall). reflexivity.
Qed.

(** C10. A non-empty paragraph made of whitespace only is broken into no
    line at all, whereas the empty paragraph gives one empty line; in wrap
    mode the paragraph loop therefore passes over such a paragraph drawing
    nothing and moving the cursor by the inter-paragraph gap only (and not
    at all when the paragraph is the last). *)
Theorem whitespace_paragraph_yields_no_line :
  forall (textlength : FreeTypeFont -> str -> Q) (font : FreeTypeFont)
         (block_color : str) (underline bold italic : bool)
         (line_height x y w h : Q) (align : str)
         (n idx : nat) (p : str) (rest : list str)
         (image : Image) (cursor_y : Q),
    p <> [] ->
    forallb isspace p = true ->
    wrap_text_lines textlength p w font = []
    /\ wrap_text_lines textlength [] w font = [ [] ]
    /\ draw_paragraphs textlength font block_color underline bold italic
         line_height x y w h align n idx (p :: rest) image cursor_y
       = draw_paragraphs textlength font block_color underline bold italic
           line_height x y w h align n (S idx) rest image
           (if (Z.of_nat idx <? Z.of_nat n - 1)%Z
            then cursor_y + line_height * (2 # 10) else cursor_y).
Proof.
  intros textlength font block_color underline bold italic
         line_height x y w h align n idx p rest image cursor_y Hne Hall.
  split; [now apply wrap_text_lines_all_space |].
  split; [reflexivity |].
  cbn [draw_paragraphs].
  rewrite (wrap_text_lines_all_space textlength font p w Hne Hall).
  reflexivity.
Qed.

Lemma whitespace_paragraph_yields_no_line_witness :
  wrap_text_lines mono_textlength (lit "   ") 50 sample_font = []
  /\ wrap_text_lines mono_textlength [] 50 sample_font = [ [] ]
  /\ draw_paragraphs mono_textlength sample_font (lit "#fff") false false false
       12 0 0 50 100 (lit "left") 2 0 [lit "   "; lit "ab"]
       (Image_new RGB (50, 100)%Z (ColorName (lit "#000"))) 0
     = draw_paragraphs mono_textlength sample_font (lit "#fff") false false false
         12 0 0 50 100 (lit "left") 2 1 [lit "ab"]
         (Image_new RGB (50, 100)%Z (ColorName (lit "#000")))
         (if (Z.of_nat 0 <? Z.of_nat 2 - 1)%Z then 0 + 12 * (2 # 10) else 0).
Proof.
  apply (whitespace_paragraph_yields_no_line mono_textlength sample_font
           (lit "#fff") false false false 12 0 0 50 100 (lit "left")
           2 0 (lit "   ") [lit "ab"]).
  - discriminate.
  - reflexivity.
Defined.

(** ** Line breaker: the words survive *)

Lemma split_from_spaces (cur t : str) :
  forallb isspace t = true ->
  split_from cur t = if is_empty cur then [] else [cur].
Proof.
  destruct t as [| c t']; simpl; [reflexivity |].
  intros H. apply andb_prop in H as [Hc Ht]. rewrite Hc.
  rewrite (split_from_all_space t' Ht). reflexivity.
Qed.

Lemma split_from_app_spaces (a : str) :
  forall cur t, forallb isspace t = true ->
                split_from cur (a ++ t) = split_from cur a.
Proof.
  induction a as [| c a' IH]; intros cur t Ht; simpl.
  - now apply split_from_spaces.
  - destruct (isspace c); [destruct (is_empty cur) |]; rewrite IH; auto.
Qed.

Lemma split_from_app_sep (a : str) :
  forall cur sp b, isspace sp = true ->
    split_from cur (a ++ sp :: b) = split_from cur a ++ split_from [] b.
Proof.
  induction a as [| c a' IH]; intros cur sp b Hsp; simpl.
  - rewrite Hsp. destruct (is_empty cur); reflexivity.
  - destruct (isspace c); [destruct (is_empty cur) |]; rewrite IH; auto.
Qed.

Lemma split_join_space (ls : list str) :
  split (join_space ls) = concat (map split ls).
Proof.
  induction ls as [| l ls' IH]; [reflexivity |].
  destruct ls' as [| l' ls''].
  - simpl. now rewrite app_nil_r.
  - change (join_space (l :: l' :: ls''))
      with (l ++ space :: join_space (l' :: ls'')).
    unfold split at 1. rewrite split_from_app_sep by apply isspace_space.
    fold (split l). fold (split (join_space (l' :: ls''))).
    rewrite IH. reflexivity.
Qed.

Lemma lstrip_decomp (s : str) :
  exists pre, forallb isspace pre = true /\ s = pre ++ lstrip s.
Proof.
  induction s as [| c s' [pre [Hpre Heq]]].
  - exists []. split; reflexivity.
  - simpl. destruct (isspace c) eqn:Ec.
    + exists (c :: pre). simpl. rewrite Ec, Hpre. split; [reflexivity |].
      now rewrite <- Heq.
    + exists []. split; reflexivity.
Qed.

Lemma split_lstrip (s : str) : split (lstrip s) = split s.
Proof.
  unfold split. induction s as [| c s' IH]; [reflexivity |].
  simpl. destruct (isspace c) eqn:Ec; simpl; [exact IH | now rewrite Ec].
Qed.

Lemma forallb_rev {A} (f : A -> bool) (l : list A) :
  forallb f l = true -> forallb f (rev l) = true.
Proof.
  rewrite !forallb_forall. intros H a Ha. apply H. now apply in_rev.
Qed.

Lemma split_rstrip (s : str) : split (rstrip s) = split s.
Proof.
  unfold rstrip. destruct (lstrip_decomp (rev s)) as [pre [Hpre Heq]].
  assert (Hs : s = rev (lstrip (rev s)) ++ rev pre).
  { rewrite <- rev_app_distr, <- Heq. now rewrite rev_involutive. }
  rewrite Hs at 2. unfold split.
  rewrite split_from_app_spaces by now apply forallb_rev.
  reflexivity.
Qed.

Lemma split_strip (s : str) : split (strip s) = split s.
Proof. unfold strip. now rewrite split_rstrip, split_lstrip. Qed.

Lemma existsb_snoc {A} (f : A -> bool) (l : list A) (a : A) :
  existsb f (l ++ [a]) = (existsb f l || f a)%bool.
Proof. rewrite existsb_app. simpl. now rewrite orb_false_r. Qed.

Lemma split_from_words (s : str) :
  forall cur, existsb isspace cur = false -> Forall is_word (split_from cur s).
Proof.
  induction s as [| c s' IH]; intros cur Hcur; simpl.
  - destruct cur as [| c0 cur']; simpl; constructor; [| constructor].
    split; [discriminate | exact Hcur].
  - destruct (isspace c) eqn:Ec.
    + destruct cur as [| c0 cur']; simpl.
      * now apply IH.
      * constructor; [split; [discriminate | exact Hcur] | now apply IH].
    + apply IH. rewrite existsb_snoc, Hcur, Ec. reflexivity.
Qed.

Lemma split_words (s : str) : Forall is_word (split s).
Proof. now apply split_from_words. Qed.

Lemma split_from_no_space (wd : str) :
  forall cur, existsb isspace wd = false ->
              split_from cur wd = if is_empty (cur ++ wd) then [] else [cur ++ wd].
Proof.
  induction wd as [| c wd' IH]; intros cur H; simpl.
  - now rewrite app_nil_r.
  - simpl in H. apply orb_false_elim in H as [Hc Hwd]. rewrite Hc.
    rewrite IH by assumption. now rewrite <- app_assoc.
Qed.

Lemma split_word (wd : str) : is_word wd -> split wd = [wd].
Proof.
  intros [Hne Hns]. unfold split. rewrite split_from_no_space by assumption.
  simpl. apply is_empty_false in Hne. now rewrite Hne.
Qed.

Section WrapWords.

Variable textlength : FreeTypeFont -> str -> Q.
Variable font : FreeTypeFont.
Variable max_width : Q.

Lemma concat_split_snoc (lines : list str) (current : str) :
  concat (map split (if is_empty current then lines else lines ++ [current]))
  = concat (map split lines) ++ split current.
Proof.
  destruct current as [| c0 cur']; simpl.
  - now rewrite app_nil_r.
  - rewrite map_app, concat_app. simpl. now rewrite app_nil_r.
Qed.

(** When every word fits, the word loop only ever groups whole words. *)
Lemma wrap_words_keeps_words (words : list str) :
  forall lines current,
    Forall is_word words ->
    Forall (fun wd => measure_text textlength wd font <= max_width) words ->
    concat (map split (flush (wrap_words textlength font max_width
                                         words lines current)))
    = concat (map split lines) ++ split current ++ words.
Proof.
  induction words as [| word words' IH]; intros lines current Hw Hfit.
  - simpl. rewrite concat_split_snoc. now rewrite app_nil_r.
  - inversion Hw as [| ? ? Hword Hw']; subst.
    inversion Hfit as [| ? ? Hwfit Hfit']; subst.
    cbn [wrap_words].
    destruct (Qle_bool
                (measure_text textlength (strip (current ++ space :: word)) font)
                max_width).
    + rewrite IH by assumption.
      rewrite split_strip. unfold split at 2.
      rewrite split_from_app_sep by apply isspace_space.
      fold (split current). fold (split word).
      rewrite (split_word word Hword). now rewrite <- app_assoc.
    + apply Qle_bool_iff in Hwfit. rewrite Hwfit.
      rewrite IH by assumption.
      rewrite concat_split_snoc, (split_word word Hword).
      now rewrite <- app_assoc.
Qed.

End WrapWords.

(** C2, as amended.  For every paragraph that contains whitespace and
    whose words each measure at most the maximum width, joining the
    produced lines with single spaces gives back exactly the paragraph's
    whitespace-separated words, in order. *)
Theorem wrap_reconstructs_fitting_words :
  forall (textlength : FreeTypeFont -> str -> Q) (font : FreeTypeFont)
         (p : str) (w : Q),
    existsb isspace p = true ->
    Forall (fun wd => measure_text textlength wd font <= w) (split p) ->
    split (join_space (wrap_text_lines textlength p w font)) = split p.
Proof.
  intros textlength font p w Hsp Hfit.
  rewrite split_join_space. unfold wrap_text_lines.
  destruct p as [| c p']; [discriminate |].
  cbn [is_empty]. rewrite Hsp. cbn [negb].
  rewrite wrap_words_keeps_words; [reflexivity | apply split_words | exact Hfit].
Qed.

Lemma wrap_reconstructs_fitting_words_witness :
  split (join_space (wrap_text_lines mono_textlength
                       (lit " the quick  brown fox ") 9 sample_font))
  = split (lit " the quick  brown fox ").
Proof.
  apply (wrap_reconstructs_fitting_words mono_textlength sample_font
           (lit " the quick  brown fox ") 9).
  - reflexivity.
  - change (split (lit " the quick  brown fox "))
      with [lit "the"; lit "quick"; lit "brown"; lit "fox"].
    repeat (apply Forall_cons; [vm_compute; discriminate |]).
    apply Forall_nil.
Defined.

(** C2 as stated fails: a word wider than the box is cut into pieces,
    and the pieces come back as separate words. *)
Lemma wrap_splits_oversized_word :
  existsb isspace (lit "abcdef g") = true
  /\ wrap_text_lines mono_textlength (lit "abcdef g") 3 sample_font
     = [lit "abc"; lit "def"; lit "g"]
  /\ split (join_space (wrap_text_lines mono_textlength (lit "abcdef g") 3
                          sample_font))
     <> split (lit "abcdef g").
Proof.
  split; [reflexivity |]. split; [reflexivity |].
  vm_compute. discriminate.
Qed.

(** ** Block layout: the loops draw the fitting prefix of the plan *)

Section LayoutFacts.

Variable textlength : FreeTypeFont -> str -> Q.
Variable font : FreeTypeFont.
Variable block_color : str.
Variables underline bold italic : bool.
Variable line_height : Q.
Variables x y w h : Q.
Variable align : str.

Local Abbreviation draw_lines' :=
  (draw_lines textlength font block_color underline bold italic
              line_height x y w h align).
Local Abbreviation draw_paragraphs' :=
  (draw_paragraphs textlength font block_color underline bold italic
                   line_height x y w h align).
Local Abbreviation render' :=
  (render textlength font block_color underline bold italic line_height
          x w align).
Local Abbreviation clip := (fitting_prefix line_height y h).
Local Abbreviation fit := (all_fit line_height y h).
Local Abbreviation place := (place_lines line_height).
Local Abbreviation after := (cursor_after line_height).
Local Abbreviation place_all := (place_paragraphs textlength font line_height w).

Lemma render_app (image : Image) (a b : list (str * Q)) :
  render' image (a ++ b) = render' (render' image a) b.
Proof. apply fold_left_app. Qed.

Lemma clip_app (a b : list (str * Q)) :
  clip (a ++ b) = if fit a then a ++ clip b else clip a.
Proof.
  induction a as [| p a' IH]; [reflexivity |].
  simpl. destruct (overflows line_height y h (snd p)); simpl; [reflexivity |].
  rewrite IH.
  destruct (all_fit line_height y h a'); reflexivity.
Qed.

Lemma clip_all_fit (a : list (str * Q)) : fit a = true -> clip a = a.
Proof.
  intros H. rewrite <- (app_nil_r a) at 1. rewrite clip_app, H.
  simpl. apply app_nil_r.
Qed.

(** The line loop: what it draws, where it leaves the cursor, and
    whether it left through [return]. *)
Lemma draw_lines_clipped (lines : list str) :
  forall image cursor_y,
    exists cursor',
      draw_lines' lines image cursor_y
      = (render' image (clip (place lines cursor_y)), cursor',
         negb (fit (place lines cursor_y)))
      /\ (fit (place lines cursor_y) = true -> cursor' = after lines cursor_y).
Proof.
  induction lines as [| line rest IH]; intros image cursor_y.
  - exists cursor_y. split; reflexivity.
  - change (fit (place (line :: rest) cursor_y))
      with (negb (overflows line_height y h cursor_y)
            && fit (place rest (cursor_y + line_height)))%bool.
    cbn [draw_lines place_lines fitting_prefix snd].
    unfold overflows.
    destruct (Qgt_bool (cursor_y + line_height) (y + h)); cbn [negb andb].
    + exists cursor_y. split; [reflexivity | discriminate].
    + destruct (IH (render_line textlength font block_color underline bold
                      italic line_height x w align image (line, cursor_y))
                   (cursor_y + line_height)) as [c' [Heq Hc]].
      exists c'. split; [exact Heq | exact Hc].
Qed.

Lemma draw_paragraphs_clipped (n : nat) (paragraphs : list str) :
  forall idx image cursor_y,
    fst (fst (draw_paragraphs' n idx paragraphs image cursor_y))
    = render' image (clip (place_all n idx paragraphs cursor_y)).
Proof.
  induction paragraphs as [| p rest IH]; intros idx image cursor_y.
  - reflexivity.
  - cbn [draw_paragraphs place_paragraphs].
    destruct (draw_lines_clipped (wrap_text_lines textlength p w font)
                image cursor_y) as [c' [Heq Hc]].
    rewrite Heq. rewrite clip_app.
    destruct (fit (place (wrap_text_lines textlength p w font) cursor_y))
      eqn:Efit; cbn [negb].
    + rewrite (Hc eq_refl). rewrite render_app.
      rewrite (clip_all_fit _ Efit). apply IH.
    + reflexivity.
Qed.

Lemma im_ops_render (placed : list (str * Q)) :
  forall image,
    im_ops (render' image placed)
    = im_ops image
      ++ flat_map (placed_ops textlength font block_color underline bold
                     italic line_height x w align) placed.
Proof.
  induction placed as [| p rest IH]; intros image.
  - simpl. now rewrite app_nil_r.
  - unfold render in *. cbn [fold_left flat_map]. rewrite IH.
    unfold render_line, draw_line_with_style, placed_ops. simpl.
    now rewrite <- !app_assoc.
Qed.

End LayoutFacts.

Lemma place_lines_fst (line_height : Q) (lines : list str) :
  forall cursor_y, map fst (place_lines line_height lines cursor_y) = lines.
Proof.
  induction lines as [| l rest IH]; intros c; simpl; [reflexivity |].
  now rewrite IH.
Qed.

(** Whatever the mode, a block whose font loads is drawn as the fitting
    prefix of its plan. *)
Lemma draw_layout_text_clipped
    (load_font : str -> Z -> exn + FreeTypeFont)
    (textlength : FreeTypeFont -> str -> Q)
    (font : FreeTypeFont) (image : Image) (block : TextBlockPayload)
    (font_path : str) (respect_line_breaks : bool) :
  load_font font_path (fontSize (style block)) = inr font ->
  draw_layout_text load_font textlength image block font_path
                   respect_line_breaks
  = inr (block_render textlength font image block image
           (block_clip image block
              (block_plan textlength font image block respect_line_breaks))).
Proof.
  intros Hload. unfold draw_layout_text. rewrite Hload.
  unfold block_render, block_clip, block_plan.
  destruct respect_line_breaks; f_equal.
  - edestruct draw_lines_clipped as [c' [Heq _]]. rewrite Heq. reflexivity.
  - apply draw_paragraphs_clipped.
Qed.

(** ** Block layout in double precision: overflow *)

Section Overflow64.

Variable textlength64 : FreeTypeFont -> str -> exn + PrimFloat.float.
Variable wrap_text_lines64 :
  str -> PrimFloat.float -> FreeTypeFont -> exn + list str.
Variable draw_line_with_style64 : Locals64 -> LineCall -> option exn.
Variable L : Locals64.

Local Abbreviation lines64 :=
  (draw_lines64 textlength64 draw_line_with_style64 L).
Local Abbreviation all_lines64 :=
  (unclipped_lines64 textlength64 draw_line_with_style64 L).
Local Abbreviation paragraphs64 :=
  (draw_paragraphs64 textlength64 wrap_text_lines64 draw_line_with_style64 L).
Local Abbreviation all_paragraphs64 :=
  (unclipped_paragraphs64 textlength64 wrap_text_lines64
     draw_line_with_style64 L).
Local Abbreviation clip64 := (fitting_prefix64 L).

Lemma clip64_fits (calls : list LineCall) : Forall (fits64 L) (clip64 calls).
Proof.
  induction calls as [| call rest IH]; [constructor |].
  cbn [fitting_prefix64].
  destruct (overflows64 L (lc_y call)) eqn:E; constructor; assumption.
Qed.

Lemma clip64_all (calls : list LineCall) :
  Forall (fits64 L) calls -> clip64 calls = calls.
Proof.
  induction 1 as [| call rest Hc _ IH]; [reflexivity |].
  cbn [fitting_prefix64]. unfold fits64 in Hc. now rewrite Hc, IH.
Qed.

Lemma clip64_app_all (a b : list LineCall) :
  Forall (fits64 L) a -> clip64 (a ++ b) = a ++ clip64 b.
Proof.
  induction 1 as [| call rest Hc _ IH]; [reflexivity |].
  cbn [app fitting_prefix64]. unfold fits64 in Hc. now rewrite Hc, IH.
Qed.

Lemma clip64_app_stop (a b : list LineCall) (call : LineCall) :
  Forall (fits64 L) a -> overflows64 L (lc_y call) = true ->
  clip64 (a ++ call :: b) = a.
Proof.
  intros Ha Hc. rewrite (clip64_app_all _ _ Ha). cbn [fitting_prefix64].
  rewrite Hc. apply app_nil_r.
Qed.

Lemma draw_lines64_clipped (lines : list str) :
  forall cursor_y,
    Forall (fits64 L) (snd (lines64 lines cursor_y))
    /\ lines_end64 L (snd (lines64 lines cursor_y))
         (fst (lines64 lines cursor_y)) (all_lines64 lines cursor_y).
Proof.
  induction lines as [| line rest IH]; intros cursor_y.
  - cbn. split; constructor.
  - cbn [draw_lines64 unclipped_lines64].
    destruct (overflows64 L cursor_y) eqn:Eo.
    + cbn [fst snd]. split; [constructor |].
      destruct (textlength64 (l_font L) line) as [e | line_width].
      * constructor.
      * destruct (draw_line_with_style64 L _) as [e |].
        -- apply (lines_left L [] cursor_y (inl e) _ []). exact Eo.
        -- destruct (all_lines64 rest _) as [result calls].
           apply (lines_left L [] cursor_y result _ calls). exact Eo.
    + destruct (textlength64 (l_font L) line) as [e | line_width].
      * cbn. split; constructor.
      * destruct (draw_line_with_style64 L _) as [e |].
        -- cbn [fst snd]. split; [| constructor].
           constructor; [exact Eo | constructor].
        -- destruct (IH (PrimFloat.add cursor_y (l_line_height L)))
             as [Hfit Hend].
           destruct (lines64 rest _) as [result calls].
           destruct (all_lines64 rest _) as [result0 calls0].
           cbn [fst snd] in *. split; [constructor; assumption |].
           inversion Hend as [e | cursor | cursor e | cursor r call more Ho];
             subst.
           ++ apply lines_raised.
           ++ apply lines_done.
           ++ apply lines_left_unmeasured.
           ++ apply (lines_left L (_ :: calls) _ _ _ _ Ho).
Qed.

Lemma draw_paragraphs64_clipped (n : nat) (paragraphs : list str) :
  forall idx cursor_y,
    snd (paragraphs64 n idx paragraphs cursor_y)
    = clip64 (snd (all_paragraphs64 n idx paragraphs cursor_y))
    /\ (fst (paragraphs64 n idx paragraphs cursor_y) = None
        \/ paragraphs64 n idx paragraphs cursor_y
           = all_paragraphs64 n idx paragraphs cursor_y).
Proof.
  induction paragraphs as [| paragraph rest IH]; intros idx cursor_y.
  - cbn. split; [reflexivity | now left].
  - cbn [draw_paragraphs64 unclipped_paragraphs64].
    destruct (wrap_text_lines64 paragraph (l_w L) (l_font L)) as [e | lines].
    { cbn. split; [reflexivity | now right]. }
    destruct (draw_lines64_clipped lines cursor_y) as [Hfit Hend].
    destruct (lines64 lines cursor_y) as [result calls].
    cbn [fst snd] in Hfit, Hend.
    inversion Hend as [e Hr Ha | cursor Hr Ha | cursor e Hr Ha
                       | cursor r call more Ho Hr Ha]; clear Hend.
    + cbn [fst snd]. split; [now rewrite clip64_all | now right].
    + match goal with
      | |- context [paragraphs64 n (S idx) rest ?c] =>
          destruct (IH (S idx) c) as [Hclip Hsame];
          destruct (paragraphs64 n (S idx) rest c) as [r1 more1];
          destruct (all_paragraphs64 n (S idx) rest c) as [r2 more2]
      end.
      cbn [fst snd] in *. split.
      * rewrite (clip64_app_all _ _ Hfit). now rewrite Hclip.
      * destruct Hsame as [-> | Hsame]; [now left |].
        right. now injection Hsame as -> ->.
    + cbn [fst snd]. split; [now rewrite clip64_all | now left].
    + split; [| now left].
      destruct r as [e | cursor1].
      * cbn [fst snd]. now rewrite clip64_app_stop.
      * destruct (all_paragraphs64 n (S idx) rest _) as [r2 more2].
        cbn [fst snd]. rewrite <- app_assoc. cbn [app].
        now rewrite clip64_app_stop.
Qed.

End Overflow64.

(** A prefix cut at the first overflowing call, spelt out. *)
Lemma fitting_prefix64_split (L : Locals64) (calls : list LineCall) :
  exists dropped,
    calls = fitting_prefix64 L calls ++ dropped
    /\ match dropped with
       | [] => True
       | call :: _ => overflows64 L (lc_y call) = true
       end.
Proof.
  induction calls as [| call rest [dropped [Heq Hd]]].
  - now exists [].
  - cbn [fitting_prefix64].
    destruct (overflows64 L (lc_y call)) eqn:E.
    + now exists (call :: rest).
    + exists dropped. split; [cbn; now rewrite <- Heq | exact Hd].
Qed.

(** What the block does, against the block without the test. *)
Lemma draw_layout_text64_clipped
    (load_font : str -> Z -> exn + FreeTypeFont)
    (textlength64 : FreeTypeFont -> str -> exn + PrimFloat.float)
    (wrap_text_lines64 :
       str -> PrimFloat.float -> FreeTypeFont -> exn + list str)
    (draw_line_with_style64 : Locals64 -> LineCall -> option exn)
    (image_width image_height : Z) (block : TextBlockPayload64)
    (font_path : str) (respect_line_breaks : bool) (L : Locals64) :
  block_locals64 load_font image_width image_height block font_path = inr L ->
  let run :=
    draw_layout_text64 load_font textlength64 wrap_text_lines64
      draw_line_with_style64 image_width image_height block font_path
      respect_line_breaks in
  let full :=
    unclipped_layout64 load_font textlength64 wrap_text_lines64
      draw_line_with_style64 image_width image_height block font_path
      respect_line_breaks in
  snd run = fitting_prefix64 L (snd full)
  /\ (fst run = None \/ run = full).
Proof.
  intros HL run full. unfold run, full, draw_layout_text64, unclipped_layout64.
  rewrite HL. destruct respect_line_breaks.
  - destruct (draw_lines64_clipped textlength64 draw_line_with_style64 L
                (split_on newline (text64 block)) (l_y L)) as [Hfit Hend].
    destruct (draw_lines64 _ _ L _ _) as [result calls].
    cbn [fst snd] in Hfit, Hend.
    inversion Hend as [e Hr Ha | cursor Hr Ha | cursor e Hr Ha
                       | cursor r call more Ho Hr Ha]; clear Hend;
      cbn [fst snd].
    + split; [now rewrite clip64_all | now right].
    + split; [now rewrite clip64_all | now right].
    + split; [now rewrite clip64_all | now left].
    + split; [| now left].
      destruct r; cbn [snd]; now rewrite clip64_app_stop.
  - apply draw_paragraphs64_clipped.
Qed.




(** ** Block layout: positions in closed form *)

Lemma inject_succ (k : nat) :
  inject_Z (Z.of_nat (S k)) == inject_Z (Z.of_nat k) + 1.
Proof. rewrite Nat2Z.inj_succ, <- Z.add_1_r, inject_Z_plus. reflexivity. Qed.

Lemma closed_position_next_line (y line_height : Q) (i k : nat) (c : Q) :
  c == closed_position y line_height i k ->
  c + line_height == closed_position y line_height i (S k).
Proof.
  unfold closed_position. intros Hc. rewrite inject_succ, Hc. ring.
Qed.

Lemma closed_position_next_paragraph (y line_height : Q) (i k : nat) (c : Q) :
  c == closed_position y line_height i k ->
  c + line_height * (2 # 10) == closed_position y line_height (S i) k.
Proof.
  unfold closed_position. intros Hc. rewrite inject_succ, Hc. ring.
Qed.

Lemma place_lines_closed (y line_height : Q) (i : nat) (lines : list str) :
  forall (k : nat) (c : Q),
    c == closed_position y line_height i k ->
    Forall2 same_place (place_lines line_height lines c)
            (closed_lines y line_height i k lines)
    /\ cursor_after line_height lines c
       == closed_position y line_height i (k + length lines).
Proof.
  induction lines as [| l rest IH]; intros k c Hc; simpl.
  - split; [constructor |]. now rewrite Nat.add_0_r.
  - destruct (IH (S k) (c + line_height)
                (closed_position_next_line y line_height i k c Hc))
      as [Hall Hafter].
    split.
    + constructor; [split; [reflexivity | exact Hc] | exact Hall].
    + rewrite Hafter. now rewrite Nat.add_succ_r.
Qed.

Lemma cursor_after_closed (line_height : Q) (lines : list str) (c : Q) :
  cursor_after line_height lines c
  == c + inject_Z (Z.of_nat (length lines)) * line_height.
Proof.
  destruct (place_lines_closed c line_height 0 lines 0 c) as [_ H].
  - unfold closed_position. simpl. ring.
  - rewrite H. unfold closed_position. simpl (0 + _)%nat.
    change (inject_Z (Z.of_nat 0)) with 0. ring.
Qed.

Lemma place_paragraphs_closed
    (textlength : FreeTypeFont -> str -> Q) (font : FreeTypeFont)
    (y line_height w : Q) (n : nat) (paragraphs : list str) :
  forall (idx k : nat) (c : Q),
    (idx + length paragraphs = n)%nat ->
    c == closed_position y line_height idx k ->
    Forall2 same_place
      (place_paragraphs textlength font line_height w n idx paragraphs c)
      (closed_paragraphs y line_height idx k
         (map (fun p => wrap_text_lines textlength p w font) paragraphs)).
Proof.
  induction paragraphs as [| p rest IH]; intros idx k c Hn Hc.
  - constructor.
  - cbn [place_paragraphs closed_paragraphs map].
    destruct (place_lines_closed y line_height idx
                (wrap_text_lines textlength p w font) k c Hc) as [Hl Hafter].
    apply Forall2_app; [exact Hl |].
    destruct rest as [| q rest'].
    + constructor.
    + assert (Hidx : (Z.of_nat idx <? Z.of_nat n - 1)%Z = true).
      { apply Z.ltb_lt. simpl in Hn. lia. }
      rewrite Hidx. apply IH.
      * simpl in Hn |- *. lia.
      * apply closed_position_next_paragraph. exact Hafter.
Qed.

(** One turn of the paragraph loop when every line of the paragraph has
    room: the lines are drawn one line height apart, and the cursor is
    handed on with the gap added unless the paragraph is the last. *)
Lemma draw_paragraphs_step
    (textlength : FreeTypeFont -> str -> Q) (font : FreeTypeFont)
    (block_color : str) (underline bold italic : bool)
    (line_height x y w h : Q) (align : str)
    (n idx : nat) (p : str) (rest : list str) (image : Image) (c : Q) :
  let lines := wrap_text_lines textlength p w font in
  all_fit line_height y h (place_lines line_height lines c) = true ->
  draw_paragraphs textlength font block_color underline bold italic
                  line_height x y w h align n idx (p :: rest) image c
  = draw_paragraphs textlength font block_color underline bold italic
      line_height x y w h align n (S idx) rest
      (render textlength font block_color underline bold italic line_height
              x w align image (place_lines line_height lines c))
      (if (Z.of_nat idx <? Z.of_nat n - 1)%Z
       then cursor_after line_height lines c + line_height * (2 # 10)
       else cursor_after line_height lines c).
Proof.
  intros lines Hfit. cbn [draw_paragraphs]. fold lines.
  destruct (draw_lines_clipped textlength font block_color underline bold
              italic line_height x y w h align lines image c)
    as [c' [Heq Hc]].
  rewrite Heq, Hfit. cbn [negb]. rewrite (Hc Hfit).
  rewrite (clip_all_fit line_height y h _ Hfit). reflexivity.
Qed.



(** ** Alignment *)

Lemma draw_x_of_cases (align : str) (x w line_width : Q) :
  (align = lit "center" -> draw_x_of align x w line_width = x + (w - line_width) / 2)
  /\ (align = lit "right" -> draw_x_of align x w line_width = x + (w - line_width))
  /\ (align <> lit "center" -> align <> lit "right" ->
      draw_x_of align x w line_width = x).
Proof.
  unfold draw_x_of. repeat split.
  - intros ->. reflexivity.
  - intros ->. reflexivity.
  - intros Hc Hr. apply str_eqb_neq in Hc, Hr. now rewrite Hc, Hr.
Qed.

Lemma block_align_cases (block : TextBlockPayload) :
  (textAlign (style block) = lit "center" -> block_align block = lit "center")
  /\ (textAlign (style block) = lit "right" -> block_align block = lit "right")
  /\ (textAlign (style block) <> lit "center" ->
      textAlign (style block) <> lit "right" ->
      block_align block <> lit "center" /\ block_align block <> lit "right").
Proof.
  unfold block_align. repeat split.
  - intros ->. reflexivity.
  - intros ->. reflexivity.
  - destruct (is_empty (textAlign (style block))); [discriminate | assumption].
  - destruct (is_empty (textAlign (style block))); [discriminate | assumption].
Qed.



(** ** Style synthesiser *)

Lemma py_int_nonneg_floor (q : Q) : 0 <= q -> py_int q = Qfloor q.
Proof.
  destruct q as [n d]. unfold py_int, Qfloor, Qle. simpl.
  intros H. apply Z.quot_div_nonneg; lia.
Qed.

(** C6, as amended.  With underline requested, [draw_line_with_style]
    draws, after the glyphs and straight on the canvas (so outside the
    sheared buffer), exactly one horizontal rule from [x] to [x] plus the
    measured advance width of the line, at height [y + 0.85 * lineHeight],
    in the line's colour, and of thickness
    [max(1, int(0.06 * lineHeight))] -- the product is truncated, not
    rounded -- for every combination of bold and italic; the glyph
    drawing itself contains no rule, and without underline only the
    glyphs are drawn. *)
Theorem underline_rule :
  forall (textlength : FreeTypeFont -> str -> Q) (base : Image)
         (text : str) (x y : Q) (font : FreeTypeFont) (color : str)
         (bold italic : bool) (line_height : Q),
    let text_width := measure_text textlength text font in
    let underline_y := y + line_height * (85 # 100) in
    im_ops (draw_line_with_style textlength base text x y font color
                                 true bold italic line_height)
    = im_ops base
      ++ glyph_ops textlength text x y font color bold italic line_height
      ++ [Line (x, underline_y) (x + text_width, underline_y) color
               (Z.max 1 (py_int (line_height * (6 # 100))))]
    /\ im_ops (draw_line_with_style textlength base text x y font color
                                    false bold italic line_height)
       = im_ops base
         ++ glyph_ops textlength text x y font color bold italic line_height
    /\ filter is_rule
         (glyph_ops textlength text x y font color bold italic line_height)
       = [].
Proof.
  intros textlength base text x y font color bold italic line_height
         text_width underline_y.
  split; [| split].
  - unfold draw_line_with_style, underline_ops. simpl.
    now rewrite <- app_assoc.
  - unfold draw_line_with_style, underline_ops. simpl.
    now rewrite app_nil_r.
  - destruct italic, bold; reflexivity.
Qed.

(** C6 as stated fails on the thickness: at line height 30 the product
    [0.06 * 30 = 1.8] rounds to 2, and the rule drawn is 1 pixel thick. *)
Lemma underline_thickness_is_truncated :
  underline_ops mono_textlength (lit "a") 0 0 sample_font (lit "#ffffff")
                true 30
  = [Line (0, 0 + 30 * (85 # 100))
          (0 + mono_textlength sample_font (lit "a"), 0 + 30 * (85 # 100))
          (lit "#ffffff") 1]
  /\ Z.max 1 (py_round (30 * (6 # 100))) = 2%Z
  /\ Z.max 1 (py_round (30 * (6 # 100))) <> 1%Z.
Proof.
  split; [reflexivity |]. split; [reflexivity |]. discriminate.
Qed.

(** C7. Synthetic bold.  Outside italic, the glyphs are stamped three
    times when bold, at [(x, y)], [(x + 1, y)] and [(x, y + 1)], and once
    when not, at [(x, y)], always in the requested colour.  In italic the
    same stamps, at [(0, 0)], [(1, 0)], [(0, 1)] or at [(0, 0)] alone, are
    made in the off-screen buffer, which is sheared afterwards and pasted
    as a whole. *)
Theorem bold_stamps :
  forall (textlength : FreeTypeFont -> str -> Q) (base : Image)
         (text : str) (x y : Q) (font : FreeTypeFont) (color : str)
         (underline : bool) (line_height : Q),
    let stamp (px py : Q) :=
      {| t_xy := (px, py); t_text := text; t_font := font; t_fill := color |} in
    glyph_ops textlength text x y font color true false line_height
    = [Text (stamp (x + 0) (y + 0)); Text (stamp (x + 1) (y + 0));
       Text (stamp (x + 0) (y + 1))]
    /\ glyph_ops textlength text x y font color false false line_height
       = [Text (stamp (x + 0) (y + 0))]
    /\ x + 0 == x /\ y + 0 == y
    /\ (forall bold : bool,
           exists transformed,
             glyph_ops textlength text x y font color bold true line_height
             = [Paste transformed (py_int x, py_int y)]
             /\ tmp_ops (tr_src transformed)
                = (if bold
                   then [stamp 0 0; stamp 1 0; stamp 0 1]
                   else [stamp 0 0])
             /\ tr_matrix transformed = [1; - (25 # 100); 0; 0; 1; 0])
    /\ (forall bold italic : bool,
           im_ops (draw_line_with_style textlength base text x y font color
                     underline bold italic line_height)
           = im_ops base
             ++ glyph_ops textlength text x y font color bold italic line_height
             ++ underline_ops textlength text x y font color underline
                              line_height).
Proof.
  intros textlength base text x y font color underline line_height stamp.
  split; [reflexivity |]. split; [reflexivity |].
  split; [ring |]. split; [ring |]. split.
  - intros bold. eexists. split; [reflexivity |].
    split; [destruct bold; reflexivity | reflexivity].
  - intros bold italic. unfold draw_line_with_style. simpl.
    now rewrite <- app_assoc.
Qed.

(** ** Preview renderer *)

(** C8, as amended.  The preview canvas has the requested size; it is a
    fully transparent RGBA canvas whenever the format is [png], whatever
    background was requested, and an RGB canvas filled with the requested
    background otherwise. *)
Theorem preview_canvas_fill :
  forall (load_font : str -> Z -> exn + FreeTypeFont)
         (multiline_textbbox : FreeTypeFont -> str -> Q * Q * Q * Q)
         (font_path text : str) (size width height padding : Z)
         (color background image_format : str),
    let canvas :=
      match draw_text_preview load_font multiline_textbbox font_path text
              size width height padding color background image_format with
      | inl (_, image) => image
      | inr image => image
      end in
    im_size canvas = (width, height)
    /\ im_fill canvas
       = (if str_eqb (lower image_format) (lit "png")
          then Transparent else ColorName background)
    /\ im_mode canvas
       = (if str_eqb (lower image_format) (lit "png") then RGBA else RGB).
Proof.
  intros load_font bbox font_path text size width height padding
         color background image_format.
  unfold draw_text_preview, preview_canvas.
  destruct (load_font font_path size) as [e | font].
  - destruct (str_eqb (lower image_format) (lit "png")); repeat split.
  - destruct (bbox font text) as [[[b0 b1] b2] b3].
    destruct (str_eqb (lower image_format) (lit "png")); repeat split.
Qed.

(** C8 as stated fails: a PNG preview requested with a red background
    comes out transparent. *)
Lemma preview_png_ignores_background :
  exists r,
    fonts_preview resolve_any strict_load_font mono_bbox red_png_preview
    = Returned r
    /\ pr_background red_png_preview = lit "#ff0000"
    /\ im_fill (content r) = Transparent
    /\ im_fill (content r) <> ColorName (pr_background red_png_preview).
Proof.
  eexists. split; [reflexivity |]. split; [reflexivity |].
  split; [reflexivity | discriminate].
Qed.

(** ** Routes: the dimension checks *)

Section Routes.

Variable resolve_font_path : str -> exn + str.
Variable load_font : str -> Z -> exn + FreeTypeFont.
Variable textlength : FreeTypeFont -> str -> Q.
Variable multiline_textbbox : FreeTypeFont -> str -> Q * Q * Q * Q.

(** The preview route refuses a non-positive size, width or height
    before it allocates anything. *)
Lemma fonts_preview_rejects_nonpositive (payload : PreviewRequest) :
  (pr_size payload <= 0 \/ pr_width payload <= 0 \/ pr_height payload <= 0)%Z ->
  exists e,
    fonts_preview resolve_font_path load_font multiline_textbbox payload
    = Raised e None.
Proof.
  intros H. unfold fonts_preview.
  destruct (resolve_font_path (pr_font payload)) as [e | font_path].
  - now exists e.
  - replace ((pr_size payload <=? 0) || (pr_width payload <=? 0)
             || (pr_height payload <=? 0))%Z%bool with true.
    + eexists. reflexivity.
    + symmetry. rewrite !orb_true_iff, !Z.leb_le. tauto.
Qed.

(** The layout route does the same for the canvas width and height. *)
Lemma fonts_layout_rejects_nonpositive_canvas (payload : LayoutRequest) :
  (lr_width payload <= 0 \/ lr_height payload <= 0)%Z ->
  exists e,
    fonts_layout resolve_font_path load_font textlength payload
    = Raised e None.
Proof.
  intros H. unfold fonts_layout.
  destruct (resolve_font_path (lr_font payload)) as [e | font_path].
  - now exists e.
  - replace ((lr_width payload <=? 0) || (lr_height payload <=? 0))%Z%bool
      with true.
    + eexists. reflexivity.
    + symmetry. rewrite orb_true_iff, !Z.leb_le. tauto.
Qed.

(** A block only ever adds drawing calls. *)
Lemma draw_layout_text_extends (image image1 : Image)
    (block : TextBlockPayload) (font_path : str) (respect : bool) :
  draw_layout_text load_font textlength image block font_path respect
  = inr image1 ->
  exists ops, im_ops image1 = im_ops image ++ ops.
Proof.
  intros H.
  destruct (load_font font_path (fontSize (style block))) as [e | font] eqn:E.
  - unfold draw_layout_text in H. rewrite E in H. discriminate.
  - rewrite (draw_layout_text_clipped load_font textlength font image block
               font_path respect E) in H.
    injection H as <-. eexists. apply im_ops_render.
Qed.

End Routes.

(** C9, failing input.  The layout route checks the canvas width and
    height only: the font size of a block is first looked at when that
    block is reached.  With a font that loads at size 10, the request
    [zero_size_layout] is not refused up front: whatever the font loader
    does at size 0, the first block has been drawn on the canvas by the
    time the route raises or returns. *)
Theorem layout_font_size_unchecked :
  forall (resolve_font_path : str -> exn + str)
         (load_font : str -> Z -> exn + FreeTypeFont)
         (textlength : FreeTypeFont -> str -> Q)
         (font_path : str) (font : FreeTypeFont),
    resolve_font_path (lit "demo.ttf") = inr font_path ->
    load_font font_path 10%Z = inr font ->
    match fonts_layout resolve_font_path load_font textlength
                       zero_size_layout with
    | Raised _ None => False
    | Raised _ (Some canvas) => im_ops canvas <> []
    | Returned r => im_ops (content r) <> []
    end.
Proof.
  intros resolve_font_path load_font textlength font_path font Hres Hload.
  unfold fonts_layout.
  change (lr_font zero_size_layout) with (lit "demo.ttf"). rewrite Hres.
  cbn [zero_size_layout lr_width lr_height lr_format blocks respectLineBreaks
       Z.leb Z.compare orb negb].
  change (supported_format (lower (lit "webp"))) with true. cbn [negb].
  cbn [draw_blocks].
  set (canvas := layout_canvas zero_size_layout (lower (lit "webp"))).
  set (first := {| key := lit "first"; text := lit "a"; box := full_box;
                   style := plain_style 10 |}).
  assert (Hfirst : exists image1,
             draw_layout_text load_font textlength canvas first font_path false
             = inr image1 /\ im_ops image1 <> []).
  { eexists. split.
    - apply (draw_layout_text_clipped load_font textlength font canvas first
               font_path false). exact Hload.
    - unfold block_render. rewrite im_ops_render.
      unfold block_clip, block_plan.
      change (split_on newline (text first)) with [lit "a"].
      cbn [place_paragraphs length]. unfold wrap_text_lines.
      cbn [lit list_ascii_of_string map is_empty existsb].
      change (negb (isspace (N_of_ascii "a") || false)) with true.
      cbn [break_chars flush app is_empty]. rewrite orb_true_r.
      cbn [break_chars flush app is_empty place_lines fitting_prefix snd].
      change (overflows (block_line_height first) (block_y canvas first)
                (block_h canvas first) (block_y canvas first)) with false.
      cbn [flat_map]. unfold placed_ops, glyph_ops.
      change (block_italic first) with false. cbn [map offsets block_bold].
      change (block_bold first) with false. cbn [map offsets app].
      intro Habs. apply app_eq_nil in Habs as [_ Habs]. discriminate. }
  destruct Hfirst as [image1 [Hdraw Hops]]. rewrite Hdraw.
  destruct (draw_layout_text load_font textlength image1 _ font_path false)
    as [e | image2] eqn:E2.
  - exact Hops.
  - cbn [content].
    destruct (draw_layout_text_extends load_font textlength image1 image2
                _ font_path false E2) as [ops Hext].
    rewrite Hext. intro Habs. apply app_eq_nil in Habs as [Habs _].
    contradiction.
Qed.

Lemma layout_font_size_unchecked_witness :
  match fonts_layout resolve_any strict_load_font mono_textlength
                     zero_size_layout with
  | Raised _ None => False
  | Raised _ (Some canvas) => im_ops canvas <> []
  | Returned r => im_ops (content r) <> []
  end.
Proof.
  apply (layout_font_size_unchecked resolve_any strict_load_font
           mono_textlength (lit "demo.ttf") sample_font).
  - reflexivity.
  - reflexivity.
Defined.

(** What the route does on [zero_size_layout] with a loader that refuses
    size 0: it raises, with the first block already on the canvas. *)
Lemma layout_raises_after_drawing :
  exists canvas,
    fonts_layout resolve_any strict_load_font mono_textlength zero_size_layout
    = Raised LibraryError (Some canvas)
    /\ length (im_ops canvas) = 1%nat.
Proof. eexists. split; reflexivity. Qed.

(** * Further properties of the line breaker *)

Section WrapMore.

Variable textlength : FreeTypeFont -> str -> Q.
Variable font : FreeTypeFont.
Variable max_width : Q.

Local Abbreviation filled := (fun l : str => l <> []).

Lemma break_chars_filled (s : str) :
  forall lines current,
    Forall filled lines ->
    Forall filled (fst (break_chars textlength font max_width s lines current)).
Proof.
  induction s as [| ch s' IH]; intros lines current Hl; simpl; [exact Hl |].
  destruct (Qle_bool _ _ || is_empty current)%bool eqn:E.
  - now apply IH.
  - apply IH. apply Forall_snoc; [exact Hl |].
    apply orb_false_elim in E as [_ E]. now apply is_empty_false.
Qed.

Lemma snoc_unless_empty_filled (lines : list str) (current : str) :
  Forall filled lines ->
  Forall filled (if is_empty current then lines else lines ++ [current]).
Proof.
  intros Hl. destruct current as [| c cur]; simpl; [exact Hl |].
  apply Forall_snoc; [exact Hl | discriminate].
Qed.

Lemma wrap_words_filled (words : list str) :
  forall lines current,
    Forall filled lines ->
    Forall filled (fst (wrap_words textlength font max_width words lines current)).
Proof.
  induction words as [| word words' IH]; intros lines current Hl;
    cbn [wrap_words]; [exact Hl |].
  destruct (Qle_bool _ _); [now apply IH |].
  pose proof (snoc_unless_empty_filled lines current Hl) as Hl1.
  destruct (Qle_bool _ _); [now apply IH |].
  pose proof (break_chars_filled word _ [] Hl1) as Hb.
  destruct (break_chars _ _ _ word _ _) as [lines2 chunk]. now apply IH.
Qed.

(** The character loop neither loses nor invents a character. *)
Lemma break_chars_concat (s : str) :
  forall lines current,
    concat (fst (break_chars textlength font max_width s lines current))
    ++ snd (break_chars textlength font max_width s lines current)
    = concat lines ++ current ++ s.
Proof.
  induction s as [| ch s' IH]; intros lines current; simpl.
  - now rewrite app_nil_r.
  - destruct (Qle_bool _ _ || is_empty current)%bool.
    + rewrite IH. now rewrite <- (app_assoc current).
    + rewrite IH, concat_app. simpl. now rewrite app_nil_r, <- app_assoc.
Qed.

Lemma concat_flush (st : list str * str) :
  concat (flush st) = concat (fst st) ++ snd st.
Proof.
  destruct st as [lines [| c cur]]; simpl.
  - now rewrite app_nil_r.
  - rewrite concat_app. simpl. now rewrite app_nil_r.
Qed.

End WrapMore.

(** X1. Breaking a non-empty paragraph never gives an empty line. *)
Theorem wrap_lines_never_empty :
  forall (textlength : FreeTypeFont -> str -> Q) (font : FreeTypeFont)
         (p : str) (w : Q),
    p <> [] ->
    Forall (fun line => line <> []) (wrap_text_lines textlength p w font).
Proof.
  intros textlength font p w Hp. unfold wrap_text_lines.
  apply is_empty_false in Hp. rewrite Hp.
  destruct (negb (existsb isspace p)).
  - pose proof (break_chars_filled textlength font w p [] [] (Forall_nil _)) as H.
    destruct (break_chars _ _ _ p [] []) as [lines current].
    now apply snoc_unless_empty_filled.
  - pose proof (wrap_words_filled textlength font w (split p) [] []
                  (Forall_nil _)) as H.
    destruct (wrap_words _ _ _ (split p) [] []) as [lines current].
    now apply snoc_unless_empty_filled.
Qed.

Lemma wrap_lines_never_empty_witness :
  Forall (fun line => line <> [])
         (wrap_text_lines mono_textlength (lit " ab  cdefgh ") 3 sample_font).
Proof.
  apply (wrap_lines_never_empty mono_textlength sample_font
           (lit " ab  cdefgh ") 3).
  discriminate.
Defined.

(** X2. A text without whitespace is cut, not rewritten: the lines,
    put end to end, are the text. *)
Theorem wrap_spaceless_partitions_text :
  forall (textlength : FreeTypeFont -> str -> Q) (font : FreeTypeFont)
         (p : str) (w : Q),
    existsb isspace p = false ->
    concat (wrap_text_lines textlength p w font) = p.
Proof.
  intros textlength font p w Hp. unfold wrap_text_lines.
  destruct p as [| c p']; [reflexivity |].
  cbn [is_empty]. rewrite Hp. cbn [negb].
  rewrite concat_flush, break_chars_concat. reflexivity.
Qed.

Lemma wrap_spaceless_partitions_text_witness :
  concat (wrap_text_lines mono_textlength (lit "abcdefg") 3 sample_font)
  = lit "abcdefg".
Proof.
  apply (wrap_spaceless_partitions_text mono_textlength sample_font
           (lit "abcdefg") 3).
  reflexivity.
Defined.

Lemma filter_nonspace_spaces (t : str) :
  forallb isspace t = true -> filter nonspace t = [].
Proof.
  induction t as [| c t' IH]; simpl; [reflexivity |].
  intros H. apply andb_prop in H as [Hc Ht].
  unfold nonspace at 1. rewrite Hc. simpl. now apply IH.
Qed.

Lemma filter_nonspace_word (wd : str) :
  existsb isspace wd = false -> filter nonspace wd = wd.
Proof.
  induction wd as [| c wd' IH]; simpl; [reflexivity |].
  intros H. apply orb_false_elim in H as [Hc Hw].
  unfold nonspace at 1. rewrite Hc. simpl. now rewrite IH.
Qed.

Lemma filter_nonspace_strip (s : str) :
  filter nonspace (strip s) = filter nonspace s.
Proof.
  assert (Hl : forall t, filter nonspace (lstrip t) = filter nonspace t).
  { intros t. destruct (lstrip_decomp t) as [pre [Hpre Heq]].
    rewrite Heq at 2. rewrite filter_app, (filter_nonspace_spaces pre Hpre).
    reflexivity. }
  unfold strip, rstrip. rewrite filter_rev, Hl, <- filter_rev, rev_involutive.
  apply Hl.
Qed.

Lemma concat_split_from (s : str) :
  forall cur, concat (split_from cur s) = cur ++ filter nonspace s.
Proof.
  induction s as [| c s' IH]; intros cur; simpl.
  - destruct cur; simpl; now rewrite ?app_nil_r.
  - unfold nonspace at 1. destruct (isspace c); simpl.
    + destruct cur as [| c0 cur']; simpl; rewrite IH; reflexivity.
    + rewrite IH. now rewrite <- app_assoc.
Qed.

Lemma concat_split (s : str) : concat (split s) = filter nonspace s.
Proof. apply concat_split_from. Qed.

Section WrapCharacters.

Variable textlength : FreeTypeFont -> str -> Q.
Variable font : FreeTypeFont.
Variable max_width : Q.

Lemma concat_snoc_unless_empty (lines : list str) (current : str) :
  concat (if is_empty current then lines else lines ++ [current])
  = concat lines ++ current.
Proof. apply (concat_flush (lines, current)). Qed.

(** The word loop keeps every character of every word, in order. *)
Lemma wrap_words_characters (words : list str) :
  forall lines current,
    Forall is_word words ->
    filter nonspace
      (concat (fst (wrap_words textlength font max_width words lines current))
       ++ snd (wrap_words textlength font max_width words lines current))
    = filter nonspace (concat lines ++ current) ++ concat words.
Proof.
  induction words as [| word words' IH]; intros lines current Hw.
  - simpl. now rewrite app_nil_r.
  - inversion Hw as [| ? ? [_ Hword] Hw']; subst.
    cbn [wrap_words concat].
    destruct (Qle_bool _ _).
    + rewrite IH by assumption.
      rewrite !filter_app, filter_nonspace_strip, filter_app.
      cbn [filter]. unfold nonspace at 3. rewrite isspace_space. cbn [negb].
      rewrite (filter_nonspace_word word Hword).
      now rewrite <- !app_assoc.
    + destruct (Qle_bool _ _).
      * rewrite IH by assumption.
        rewrite concat_snoc_unless_empty, !filter_app.
        rewrite (filter_nonspace_word word Hword).
        now rewrite <- !app_assoc.
      * pose proof (break_chars_concat textlength font max_width word
                      (if is_empty current then lines else lines ++ [current])
                      []) as Hb.
        destruct (break_chars _ _ _ word _ _) as [lines2 chunk].
        cbn [fst snd] in Hb. rewrite IH by assumption. rewrite Hb.
        rewrite concat_snoc_unless_empty. cbn [app].
        rewrite !filter_app, (filter_nonspace_word word Hword).
        now rewrite <- !app_assoc.
Qed.

End WrapCharacters.

(** X3. Whatever the widths, the lines carry exactly the non-whitespace
    characters of the paragraph, in their order: breaking drops and adds
    whitespace only. *)
Theorem wrap_keeps_visible_characters :
  forall (textlength : FreeTypeFont -> str -> Q) (font : FreeTypeFont)
         (p : str) (w : Q),
    filter nonspace (concat (wrap_text_lines textlength p w font))
    = filter nonspace p.
Proof.
  intros textlength font p w. unfold wrap_text_lines.
  destruct p as [| c p']; [reflexivity |]. cbn [is_empty].
  destruct (existsb isspace (c :: p')) eqn:Hsp; cbn [negb].
  - rewrite concat_flush, wrap_words_characters by apply split_words.
    simpl. apply concat_split.
  - rewrite concat_flush, break_chars_concat. reflexivity.
Qed.

Lemma rstrip_nonspace_last (s : str) (b : char) :
  isspace b = false -> rstrip (s ++ [b]) = s ++ [b].
Proof.
  intros Hb. unfold rstrip. rewrite rev_app_distr. simpl. rewrite Hb.
  simpl. now rewrite rev_involutive.
Qed.

Lemma is_word_head (wd : str) :
  is_word wd -> exists c r, wd = c :: r /\ isspace c = false.
Proof.
  intros [Hne Hns]. destruct wd as [| c r]; [congruence |].
  exists c, r. split; [reflexivity |].
  simpl in Hns. now apply orb_false_elim in Hns as [Hc _].
Qed.

Lemma is_word_last (wd : str) :
  is_word wd -> exists r b, wd = r ++ [b] /\ isspace b = false.
Proof.
  intros [Hne Hns]. destruct (exists_last Hne) as [r [b ->]].
  exists r, b. split; [reflexivity |].
  rewrite existsb_snoc in Hns. now apply orb_false_elim in Hns as [_ Hb].
Qed.

Lemma strip_space_word (wd : str) : is_word wd -> strip (space :: wd) = wd.
Proof.
  intros Hw. unfold strip. cbn [lstrip]. rewrite isspace_space.
  destruct (is_word_head wd Hw) as [c [r [-> Hc]]]. cbn [lstrip]. rewrite Hc.
  destruct (is_word_last (c :: r) Hw) as [r' [b [-> Hb]]].
  now apply rstrip_nonspace_last.
Qed.

Lemma strip_line_space_word (c : char) (r wd : str) :
  isspace c = false -> is_word wd ->
  strip ((c :: r) ++ space :: wd) = (c :: r) ++ space :: wd.
Proof.
  intros Hc Hw. unfold strip. cbn [app lstrip]. rewrite Hc.
  destruct (is_word_last wd Hw) as [r' [b [-> Hb]]].
  replace (c :: r ++ space :: r' ++ [b]) with ((c :: r ++ space :: r') ++ [b]).
  - now apply rstrip_nonspace_last.
  - simpl. now rewrite <- app_assoc.
Qed.

Lemma join_space_snoc (ws : list str) (wd : str) :
  ws <> [] -> join_space (ws ++ [wd]) = join_space ws ++ space :: wd.
Proof.
  induction ws as [| w1 ws' IH]; [congruence |]. intros _.
  destruct ws' as [| w2 ws'']; [reflexivity |].
  change (join_space ((w1 :: w2 :: ws'') ++ [wd]))
    with (w1 ++ space :: join_space ((w2 :: ws'') ++ [wd])).
  rewrite IH by discriminate.
  change (join_space (w1 :: w2 :: ws''))
    with (w1 ++ space :: join_space (w2 :: ws'')).
  now rewrite <- app_assoc.
Qed.

Lemma tidy_word (wd : str) : is_word wd -> tidy wd.
Proof.
  intros Hw. split; [apply Hw |]. now rewrite (split_word wd Hw).
Qed.

Lemma tidy_head (l : str) :
  tidy l -> exists c r, l = c :: r /\ isspace c = false.
Proof.
  intros [Hne Hj]. pose proof (split_words l) as Hws.
  destruct (split l) as [| w1 ws] eqn:E; [simpl in Hj; congruence |].
  apply Forall_inv in Hws.
  destruct (is_word_head w1 Hws) as [c [r [-> Hc]]].
  destruct ws as [| w2 ws'].
  - simpl in Hj. exists c, r. split; [now symmetry | exact Hc].
  - change (join_space ((c :: r) :: w2 :: ws'))
      with (c :: r ++ space :: join_space (w2 :: ws')) in Hj.
    exists c, (r ++ space :: join_space (w2 :: ws')).
    split; [now symmetry | exact Hc].
Qed.

Lemma tidy_extend (l wd : str) :
  tidy l -> is_word wd -> tidy (l ++ space :: wd).
Proof.
  intros Hl Hw. split; [destruct l; discriminate |].
  destruct Hl as [Hne Hj].
  unfold split. rewrite split_from_app_sep by apply isspace_space.
  fold (split l). fold (split wd). rewrite (split_word wd Hw).
  rewrite join_space_snoc.
  - now rewrite Hj.
  - intros E. rewrite E in Hj. simpl in Hj. congruence.
Qed.

Section WrapTidy.

Variable textlength : FreeTypeFont -> str -> Q.
Variable font : FreeTypeFont.
Variable max_width : Q.

Lemma is_word_snoc (current : str) (ch : char) :
  current = [] \/ is_word current -> isspace ch = false ->
  is_word (current ++ [ch]).
Proof.
  intros Hc Hch. split; [destruct current; discriminate |].
  rewrite existsb_snoc, Hch.
  destruct Hc as [-> | [_ Hns]]; [reflexivity | now rewrite Hns].
Qed.

(** Cutting a word leaves pieces that are words themselves. *)
Lemma break_chars_pieces (s : str) :
  forall lines current,
    existsb isspace s = false ->
    Forall tidy lines ->
    current = [] \/ is_word current ->
    Forall tidy (fst (break_chars textlength font max_width s lines current))
    /\ (snd (break_chars textlength font max_width s lines current) = []
        \/ is_word (snd (break_chars textlength font max_width s lines current))).
Proof.
  induction s as [| ch s' IH]; intros lines current Hs Hl Hc; simpl.
  - split; assumption.
  - simpl in Hs. apply orb_false_elim in Hs as [Hch Hs'].
    destruct (Qle_bool _ _ || is_empty current)%bool eqn:E.
    + apply IH; [assumption | assumption |].
      right. now apply is_word_snoc.
    + apply orb_false_elim in E as [_ E]. apply is_empty_false in E.
      apply IH; [assumption | |].
      * apply Forall_snoc; [assumption |]. apply tidy_word.
        destruct Hc as [Hc | Hc]; [congruence | exact Hc].
      * right. apply (is_word_snoc [] ch); [now left | exact Hch].
Qed.

Lemma wrap_words_tidy (words : list str) :
  forall lines current,
    Forall is_word words ->
    Forall tidy lines ->
    current = [] \/ tidy current ->
    Forall tidy (flush (wrap_words textlength font max_width words lines current)).
Proof.
  induction words as [| word words' IH]; intros lines current Hw Hl Hc.
  - simpl. destruct current as [| c cur]; simpl; [exact Hl |].
    apply Forall_snoc; [exact Hl |].
    destruct Hc as [Hc | Hc]; [discriminate | exact Hc].
  - inversion Hw as [| ? ? Hword Hw']; subst. cbn [wrap_words].
    assert (Hl1 : Forall tidy
                    (if is_empty current then lines else lines ++ [current])).
    { destruct current as [| c cur]; simpl; [exact Hl |].
      apply Forall_snoc; [exact Hl |].
      destruct Hc as [Hc | Hc]; [discriminate | exact Hc]. }
    destruct (Qle_bool _ _).
    + apply IH; [assumption | assumption |]. right.
      destruct Hc as [-> | Hc].
      * cbn [app]. rewrite (strip_space_word word Hword).
        now apply tidy_word.
      * destruct (tidy_head current Hc) as [c [r [E Hch]]].
        rewrite E, (strip_line_space_word c r word Hch Hword), <- E.
        now apply tidy_extend.
    + destruct (Qle_bool _ _).
      * apply IH; [assumption | assumption |]. right. now apply tidy_word.
      * pose proof (break_chars_pieces word _ [] (proj2 Hword) Hl1
                      (or_introl eq_refl)) as Hb.
        destruct (break_chars _ _ _ word _ _) as [lines2 chunk].
        destruct Hb as [Hb1 Hb2]. cbn [fst snd] in Hb1, Hb2.
        apply IH; [assumption | assumption |].
        destruct Hb2 as [Hb2 | Hb2]; [now left | right; now apply tidy_word].
Qed.

End WrapTidy.

(** X4. In word-wrap mode every line comes out tidy: it is not empty,
    has no whitespace at either end, and its words are separated by one
    space each, whatever whitespace separated them in the paragraph. *)
Theorem wrap_lines_are_tidy :
  forall (textlength : FreeTypeFont -> str -> Q) (font : FreeTypeFont)
         (p : str) (w : Q),
    existsb isspace p = true ->
    Forall (fun line => line <> [] /\ join_space (split line) = line)
           (wrap_text_lines textlength p w font).
Proof.
  intros textlength font p w Hsp. unfold wrap_text_lines.
  destruct p as [| c p']; [discriminate |].
  cbn [is_empty]. rewrite Hsp. cbn [negb].
  apply (wrap_words_tidy textlength font w (split (c :: p')) [] []).
  - apply split_words.
  - constructor.
  - now left.
Qed.

Lemma wrap_lines_are_tidy_witness :
  Forall (fun line => line <> [] /\ join_space (split line) = line)
         (wrap_text_lines mono_textlength (lit "  the   quick brown  ") 9
                          sample_font).
Proof.
  apply (wrap_lines_are_tidy mono_textlength sample_font
           (lit "  the   quick brown  ") 9).
  reflexivity.
Defined.

(** ** Greedy filling *)

Lemma adjacent_nil {A} (R : A -> A -> Prop) : adjacent R [].
Proof. intros i a b H. destruct i; discriminate. Qed.

Lemma adjacent_prefix {A} (R : A -> A -> Prop) (ls : list A) (x : A) :
  adjacent R (ls ++ [x]) -> adjacent R ls.
Proof.
  intros H i a b Ha Hb. apply (H i a b).
  - rewrite nth_error_app1; [exact Ha |]. apply nth_error_Some. congruence.
  - rewrite nth_error_app1; [exact Hb |]. apply nth_error_Some. congruence.
Qed.

Lemma adjacent_snoc {A} (R : A -> A -> Prop) (ls : list A) (x : A) :
  adjacent R ls ->
  (forall i a, S i = length ls -> nth_error ls i = Some a -> R a x) ->
  adjacent R (ls ++ [x]).
Proof.
  intros Hls Hlast i a b Ha Hb.
  assert (Hi : (S i < length (ls ++ [x]))%nat)
    by (apply nth_error_Some; congruence).
  rewrite length_app in Hi. simpl in Hi.
  rewrite nth_error_app1 in Ha by lia.
  destruct (Nat.eq_dec (S i) (length ls)) as [E | E].
  - rewrite nth_error_app2 in Hb by lia.
    replace (S i - length ls)%nat with 0%nat in Hb by lia.
    injection Hb as <-. now apply (Hlast i a).
  - rewrite nth_error_app1 in Hb by lia. now apply (Hls i a b).
Qed.

Lemma adjacent_replace_last {A} (R : A -> A -> Prop) (ls : list A) (x x' : A) :
  adjacent R (ls ++ [x]) ->
  (forall a, R a x -> R a x') ->
  adjacent R (ls ++ [x']).
Proof.
  intros H Hx. apply adjacent_snoc.
  - now apply (adjacent_prefix R ls x).
  - intros i a Hi Ha. apply Hx. apply (H i a x).
    + rewrite nth_error_app1 by lia. exact Ha.
    + rewrite nth_error_app2 by lia.
      replace (S i - length ls)%nat with 0%nat by lia. reflexivity.
Qed.

Section Greedy.

Variable textlength : FreeTypeFont -> str -> Q.
Variable font : FreeTypeFont.
Variable max_width : Q.

Local Abbreviation forced := (head_forced textlength font max_width).
Local Abbreviation wforced := (word_forced textlength font max_width).

Lemma exceeds_of_not_fits (s : str) :
  Qle_bool (measure_text textlength s font) max_width = false ->
  max_width < measure_text textlength s font.
Proof.
  intros E. destruct (fits_or_exceeds textlength font max_width s); congruence.
Qed.

(** Invariant of the character loop: every break made so far was forced,
    and the line being filled is empty only before the first character. *)
Lemma break_chars_greedy (s : str) :
  forall lines current,
    adjacent forced (lines ++ [current]) ->
    (current = [] -> lines = []) ->
    adjacent forced
      (flush (break_chars textlength font max_width s lines current)).
Proof.
  induction s as [| ch s' IH]; intros lines current Hadj Hfirst.
  - simpl. destruct current as [| c cur]; simpl; [| exact Hadj].
    rewrite (Hfirst eq_refl). apply adjacent_nil.
  - cbn [break_chars].
    destruct (Qle_bool _ _) eqn:Efit; cbn [orb].
    + apply IH; [| destruct current; discriminate].
      destruct current as [| c cur].
      * rewrite (Hfirst eq_refl). intros [| i] a b Ha Hb; [discriminate |].
        destruct i; discriminate.
      * apply (adjacent_replace_last forced lines (c :: cur)); [exact Hadj |].
        intros a Ha. exact Ha.
    + destruct current as [| c cur]; cbn [is_empty].
      * apply IH; [| discriminate].
        rewrite (Hfirst eq_refl). intros [| i] a b Ha Hb; [discriminate |].
        destruct i; discriminate.
      * apply IH; [| discriminate].
        apply adjacent_snoc; [exact Hadj |].
        intros i a Hi Ha.
        rewrite nth_error_app2 in Ha by (rewrite length_app in Hi; simpl in Hi; lia).
        rewrite length_app in Hi. simpl in Hi.
        replace (i - length lines)%nat with 0%nat in Ha by lia.
        injection Ha as <-. simpl. now apply exceeds_of_not_fits.
Qed.

(** The same for the word loop, when no word is wider than the box. *)
Lemma wrap_words_greedy (words : list str) :
  forall lines current,
    Forall is_word words ->
    Forall (fun wd => measure_text textlength wd font <= max_width) words ->
    adjacent wforced (lines ++ [current]) ->
    (current = [] -> lines = []) ->
    current = [] \/ tidy current ->
    adjacent wforced
      (flush (wrap_words textlength font max_width words lines current)).
Proof.
  induction words as [| word words' IH];
    intros lines current Hw Hfit Hadj Hfirst Htidy.
  - simpl. destruct current as [| c cur]; simpl; [| exact Hadj].
    rewrite (Hfirst eq_refl). apply adjacent_nil.
  - inversion Hw as [| ? ? Hword Hw']; subst.
    inversion Hfit as [| ? ? Hwfit Hfit']; subst.
    cbn [wrap_words].
    destruct Htidy as [-> | Htidy].
    + (* first word of the paragraph *)
      cbn [app]. rewrite (strip_space_word word Hword).
      apply Qle_bool_iff in Hwfit. rewrite Hwfit.
      apply IH; [assumption | assumption | | intros _; exact (Hfirst eq_refl)
                 | right; now apply tidy_word].
      rewrite (Hfirst eq_refl). intros [| i] a b Ha Hb; [discriminate |].
      destruct i; discriminate.
    + destruct (tidy_head current Htidy) as [c [r [E Hch]]].
      rewrite E, (strip_line_space_word c r word Hch Hword), <- E.
      destruct (Qle_bool _ _) eqn:Etest.
      * apply IH; [assumption | assumption | | destruct current; discriminate
                   | right; now apply tidy_extend].
        apply (adjacent_replace_last wforced lines current); [exact Hadj |].
        intros a Ha. unfold word_forced in *.
        unfold split in *. rewrite split_from_app_sep by apply isspace_space.
        destruct (split_from [] current) as [| w1 ws] eqn:Es.
        -- exfalso. destruct Htidy as [Hne Hj]. unfold split in Hj.
           rewrite Es in Hj. simpl in Hj. congruence.
        -- exact Ha.
      * apply Qle_bool_iff in Hwfit. rewrite Hwfit.
        rewrite E at 1. cbn [is_empty].
        apply IH; [assumption | assumption |
                   | intros Ew; exfalso; now apply (proj1 Hword)
                   | right; now apply tidy_word].
        apply adjacent_snoc; [exact Hadj |].
        intros i a Hi Ha.
        rewrite length_app in Hi. simpl in Hi.
        rewrite nth_error_app2 in Ha by lia.
        replace (i - length lines)%nat with 0%nat in Ha by lia.
        injection Ha as <-. unfold word_forced.
        rewrite (split_word word Hword). now apply exceeds_of_not_fits.
Qed.

End Greedy.

(** X5. Lines of a text without whitespace are filled greedily: a line
    is closed only when the next character would not fit, that is, each
    line extended by the first character of the line after it is wider
    than the maximum width. *)
Theorem spaceless_breaks_are_forced :
  forall (textlength : FreeTypeFont -> str -> Q) (font : FreeTypeFont)
         (p : str) (w : Q) (i : nat) (line : str) (c : char) (rest : str),
    existsb isspace p = false ->
    nth_error (wrap_text_lines textlength p w font) i = Some line ->
    nth_error (wrap_text_lines textlength p w font) (S i) = Some (c :: rest) ->
    w < measure_text textlength (line ++ [c]) font.
Proof.
  intros textlength font p w i line c rest Hp Hi HSi.
  assert (H : adjacent (head_forced textlength font w)
                (wrap_text_lines textlength p w font)).
  { unfold wrap_text_lines. destruct p as [| c0 p'].
    - intros [| j] a b Ha Hb; [discriminate | destruct j; discriminate].
    - cbn [is_empty]. rewrite Hp. cbn [negb].
      apply break_chars_greedy; [| reflexivity].
      intros [| j] a b Ha Hb; [discriminate | destruct j; discriminate]. }
  exact (H i line (c :: rest) Hi HSi).
Qed.

Lemma spaceless_breaks_are_forced_witness :
  3 < measure_text mono_textlength (lit "abc" ++ lit "d") sample_font.
Proof.
  apply (spaceless_breaks_are_forced mono_textlength sample_font
           (lit "abcdefg") 3 0 (lit "abc") 100%N (lit "ef")).
  - reflexivity.
  - reflexivity.
  - reflexivity.
Defined.

(** X6. When no word is wider than the box, word wrap is greedy as
    well: a word starts a new line only if the line before it, a space
    and that word together are wider than the maximum width. *)
Theorem word_breaks_are_forced :
  forall (textlength : FreeTypeFont -> str -> Q) (font : FreeTypeFont)
         (p : str) (w : Q) (i : nat) (line next word : str) (more : list str),
    existsb isspace p = true ->
    Forall (fun wd => measure_text textlength wd font <= w) (split p) ->
    nth_error (wrap_text_lines textlength p w font) i = Some line ->
    nth_error (wrap_text_lines textlength p w font) (S i) = Some next ->
    split next = word :: more ->
    w < measure_text textlength (line ++ space :: word) font.
Proof.
  intros textlength font p w i line next word more Hp Hfit Hi HSi Hnext.
  assert (H : adjacent (word_forced textlength font w)
                (wrap_text_lines textlength p w font)).
  { unfold wrap_text_lines. destruct p as [| c0 p']; [discriminate |].
    cbn [is_empty]. rewrite Hp. cbn [negb].
    apply wrap_words_greedy;
      [apply split_words | exact Hfit | | reflexivity | now left].
    intros [| j] a b Ha Hb; [discriminate | destruct j; discriminate]. }
  pose proof (H i line next Hi HSi) as Hf. unfold word_forced in Hf.
  now rewrite Hnext in Hf.
Qed.

Lemma word_breaks_are_forced_witness :
  9 < measure_text mono_textlength (lit "the quick" ++ space :: lit "brown")
                   sample_font.
Proof.
  apply (word_breaks_are_forced mono_textlength sample_font
           (lit " the quick  brown fox ") 9 0 (lit "the quick")
           (lit "brown fox") (lit "brown") [lit "fox"]).
  - reflexivity.
  - change (split (lit " the quick  brown fox "))
      with [lit "the"; lit "quick"; lit "brown"; lit "fox"].
    repeat (apply Forall_cons; [vm_compute; discriminate |]).
    apply Forall_nil.
  - reflexivity.
  - reflexivity.
  - reflexivity.
Defined.

(** ** The canvas is only ever drawn on *)

Lemma render_frame
    (textlength : FreeTypeFont -> str -> Q) (font : FreeTypeFont)
    (block_color : str) (underline bold italic : bool)
    (line_height x w : Q) (align : str) (placed : list (str * Q)) :
  forall image,
    same_frame (render textlength font block_color underline bold italic
                       line_height x w align image placed) image.
Proof.
  induction placed as [| p rest IH]; intros image.
  - repeat split.
  - unfold render in *. cbn [fold_left].
    destruct (IH (render_line textlength font block_color underline bold
                    italic line_height x w align image p)) as (Hm & Hs & Hf).
    repeat split; [rewrite Hm | rewrite Hs | rewrite Hf]; reflexivity.
Qed.

Lemma draw_layout_text_frame
    (load_font : str -> Z -> exn + FreeTypeFont)
    (textlength : FreeTypeFont -> str -> Q)
    (image image1 : Image) (block : TextBlockPayload) (font_path : str)
    (respect : bool) :
  draw_layout_text load_font textlength image block font_path respect
  = inr image1 ->
  same_frame image1 image.
Proof.
  intros H.
  destruct (load_font font_path (fontSize (style block))) as [e | font] eqn:E.
  - unfold draw_layout_text in H. rewrite E in H. discriminate.
  - rewrite (draw_layout_text_clipped load_font textlength font image block
               font_path respect E) in H.
    injection H as <-. apply render_frame.
Qed.

Lemma draw_blocks_frame
    (load_font : str -> Z -> exn + FreeTypeFont)
    (textlength : FreeTypeFont -> str -> Q)
    (font_path : str) (respect : bool) (bs : list TextBlockPayload) :
  forall image image1,
    draw_blocks load_font textlength font_path respect bs image = inr image1 ->
    same_frame image1 image.
Proof.
  induction bs as [| b bs' IH]; intros image image1 H; simpl in H.
  - injection H as <-. repeat split.
  - destruct (draw_layout_text load_font textlength image b font_path respect)
      as [e | image2] eqn:E; [discriminate |].
    destruct (draw_layout_text_frame _ _ _ _ _ _ _ E) as (Hm & Hs & Hf).
    destruct (IH _ _ H) as (Hm' & Hs' & Hf').
    repeat split; congruence.
Qed.

(** X9. What a successful layout response holds.  The route answers
    with an image only if the canvas width and height are positive and
    the format, case-insensitively, is [png] or [webp]; the image then has
    exactly the requested size, is RGBA for [png] and RGB for [webp], is
    filled with the requested background (black if none is given,
    transparent if it reads [transparent]), and is labelled with the
    matching media type. *)
Theorem layout_response_canvas :
  forall (resolve_font_path : str -> exn + str)
         (load_font : str -> Z -> exn + FreeTypeFont)
         (textlength : FreeTypeFont -> str -> Q)
         (payload : LayoutRequest) (r : Response),
    fonts_layout resolve_font_path load_font textlength payload = Returned r ->
    let fmt := lower (lr_format payload) in
    let background :=
      if is_empty (lr_background payload) then lit "#000000"
      else lr_background payload in
    (0 < lr_width payload)%Z /\ (0 < lr_height payload)%Z
    /\ (fmt = lit "png" \/ fmt = lit "webp")
    /\ im_size (content r) = (lr_width payload, lr_height payload)
    /\ im_mode (content r) = (if str_eqb fmt (lit "png") then RGBA else RGB)
    /\ im_fill (content r)
       = (if str_eqb (lower background) (lit "transparent")
          then Transparent else ColorName background)
    /\ media_type r
       = (if str_eqb fmt (lit "webp") then lit "image/webp"
          else lit "image/png").
Proof.
  intros resolve_font_path load_font textlength payload r H fmt background.
  unfold fonts_layout in H.
  destruct (resolve_font_path (lr_font payload)) as [e | font_path];
    [discriminate |].
  destruct ((lr_width payload <=? 0)%Z || (lr_height payload <=? 0)%Z)%bool
    eqn:Edim; [discriminate |].
  apply orb_false_elim in Edim as [Ew Eh].
  apply Z.leb_gt in Ew, Eh.
  fold fmt in H.
  destruct (supported_format fmt) eqn:Efmt; cbn [negb] in H; [| discriminate].
  destruct (draw_blocks load_font textlength font_path
              (respectLineBreaks payload) (blocks payload)
              (layout_canvas payload fmt)) as [[e image1] | image1] eqn:Eb;
    [discriminate |].
  injection H as <-. cbn [content media_type].
  destruct (draw_blocks_frame _ _ _ _ _ _ _ Eb) as (Hm & Hs & Hf).
  split; [exact Ew |]. split; [exact Eh |]. split.
  { unfold supported_format in Efmt. apply orb_true_iff in Efmt.
    destruct Efmt as [E | E]; apply str_eqb_eq in E; auto. }
  split; [rewrite Hs; reflexivity |].
  split; [rewrite Hm; reflexivity |].
  split; [rewrite Hf; reflexivity | reflexivity].
Qed.

Lemma layout_response_canvas_witness :
  match fonts_layout resolve_any strict_load_font mono_textlength png_layout
  with
  | Returned r =>
      im_size (content r) = (100, 50)%Z
      /\ im_mode (content r) = RGBA
      /\ im_fill (content r) = Transparent
  | Raised _ _ => False
  end.
Proof.
  destruct (fonts_layout resolve_any strict_load_font mono_textlength
              png_layout) as [e c | r] eqn:E.
  - vm_compute in E. discriminate.
  - pose proof (layout_response_canvas resolve_any strict_load_font
                  mono_textlength png_layout r E) as H.
    cbv zeta in H. destruct H as (_ & _ & _ & Hs & Hm & Hf & _).
    split; [exact Hs |]. split; [exact Hm | exact Hf].
Defined.

(** X12. Blocks are laid out independently of what is already on the
    canvas: on two canvases of the same size a block adds the same
    drawing calls, whatever each canvas held before. *)
Theorem block_layout_ignores_canvas_content :
  forall (load_font : str -> Z -> exn + FreeTypeFont)
         (textlength : FreeTypeFont -> str -> Q)
         (image image' r r' : Image) (block : TextBlockPayload)
         (font_path : str) (respect_line_breaks : bool),
    im_size image = im_size image' ->
    draw_layout_text load_font textlength image block font_path
                     respect_line_breaks = inr r ->
    draw_layout_text load_font textlength image' block font_path
                     respect_line_breaks = inr r' ->
    exists ops,
      im_ops r = im_ops image ++ ops /\ im_ops r' = im_ops image' ++ ops.
Proof.
  intros load_font textlength image image' r r' block font_path respect
         Hsize H H'.
  destruct (load_font font_path (fontSize (style block))) as [e | font] eqn:E.
  - unfold draw_layout_text in H. rewrite E in H. discriminate.
  - rewrite (draw_layout_text_clipped load_font textlength font image block
               font_path respect E) in H.
    rewrite (draw_layout_text_clipped load_font textlength font image' block
               font_path respect E) in H'.
    injection H as <-. injection H' as <-.
    exists (flat_map (block_ops textlength font image block)
              (block_clip image block
                 (block_plan textlength font image block respect))).
    split; [apply im_ops_render |].
    unfold block_render. rewrite im_ops_render. f_equal.
    unfold block_ops, block_clip, block_plan, block_x, block_y, block_w,
      block_h. rewrite Hsize. reflexivity.
Qed.

Lemma block_layout_ignores_canvas_content_witness :
  exists ops,
    im_ops (draw_on blank_canvas
              (glyph_ops mono_textlength (lit "a") 0 0 sample_font
                         (lit "#fff") false false 12))
    = im_ops blank_canvas ++ ops
    /\ im_ops (draw_on (draw_on blank_canvas [Line (0, 0) (1, 1) (lit "#fff") 1])
                 (glyph_ops mono_textlength (lit "a") 0 0 sample_font
                            (lit "#fff") false false 12))
       = im_ops (draw_on blank_canvas [Line (0, 0) (1, 1) (lit "#fff") 1])
         ++ ops.
Proof.
  apply (block_layout_ignores_canvas_content strict_load_font mono_textlength
           blank_canvas
           (draw_on blank_canvas [Line (0, 0) (1, 1) (lit "#fff") 1])
           _ _
           {| key := lit "k"; text := lit "a"; box := full_box;
              style := {| fontSize := 10; color := lit "#fff";
                          fontWeight := 600; fontStyle := lit "normal";
                          textDecoration := lit "none";
                          textAlign := lit "left" |} |}
           (lit "demo.ttf") false).
  - reflexivity.
  - reflexivity.
  - reflexivity.
Defined.

(** * Further properties of the preview routes *)

Lemma Qmax_ge_l (a b : Q) : a <= Qmax a b.
Proof.
  unfold Qmax. destruct (Qle_bool a b) eqn:E.
  - now apply Qle_bool_iff.
  - apply Qle_refl.
Qed.

Lemma Qmax_ge_r (a b : Q) : b <= Qmax a b.
Proof.
  unfold Qmax. destruct (Qle_bool a b) eqn:E.
  - apply Qle_refl.
  - apply Qlt_le_weak, Qnot_le_lt. intro H. apply Qle_bool_iff in H. congruence.
Qed.

Lemma centred_start (padding : Z) (free : Q) :
  free / 2 < Qmax (inject_Z padding) (inject_Z (Qfloor (free / 2))) + 1.
Proof.
  pose proof (Qlt_floor (free / 2)) as Hf.
  rewrite inject_Z_plus in Hf. change (inject_Z 1) with 1 in Hf.
  pose proof (Qmax_ge_r (inject_Z padding) (inject_Z (Qfloor (free / 2)))).
  lra.
Qed.

(** X10. What a successful preview response holds.  The route answers
    with an image only if size, width and height are positive; on that
    image exactly one drawing call was made, writing the requested text
    as it stands (hard line breaks included, no wrapping) in the
    requested colour; the text starts at least [padding] pixels from the
    left and top edges, and never left of or above the centred position
    (rounded down to a pixel). *)
Theorem preview_response_text :
  forall (resolve_font_path : str -> exn + str)
         (load_font : str -> Z -> exn + FreeTypeFont)
         (multiline_textbbox : FreeTypeFont -> str -> Q * Q * Q * Q)
         (payload : PreviewRequest) (r : Response),
    fonts_preview resolve_font_path load_font multiline_textbbox payload
    = Returned r ->
    (0 < pr_size payload)%Z /\ (0 < pr_width payload)%Z
    /\ (0 < pr_height payload)%Z
    /\ exists font x y,
        im_ops (content r)
        = [MultilineText {| t_xy := (x, y); t_text := pr_text payload;
                            t_font := font; t_fill := pr_color payload |}]
        /\ inject_Z (pr_padding payload) <= x
        /\ inject_Z (pr_padding payload) <= y
        /\ (let '(b0, b1, b2, b3) :=
              multiline_textbbox font (pr_text payload) in
            (inject_Z (pr_width payload) - (b2 - b0)) / 2 < x + 1
            /\ (inject_Z (pr_height payload) - (b3 - b1)) / 2 < y + 1).
Proof.
  intros resolve_font_path load_font bbox payload r H.
  unfold fonts_preview in H.
  destruct (resolve_font_path (pr_font payload)) as [e | font_path];
    [discriminate |].
  destruct ((pr_size payload <=? 0)%Z || (pr_width payload <=? 0)%Z
            || (pr_height payload <=? 0)%Z)%bool eqn:Edim; [discriminate |].
  apply orb_false_elim in Edim as [Edim Eh].
  apply orb_false_elim in Edim as [Es Ew].
  apply Z.leb_gt in Es, Ew, Eh.
  destruct (supported_format (lower (pr_format payload))); cbn [negb] in H;
    [| discriminate].
  unfold draw_text_preview in H.
  destruct (load_font font_path (pr_size payload)) as [e | font];
    [discriminate |].
  destruct (bbox font (pr_text payload)) as [[[b0 b1] b2] b3] eqn:Eb.
  injection H as <-. cbn [content].
  split; [exact Es |]. split; [exact Ew |]. split; [exact Eh |].
  eexists font, _, _. split.
  { unfold preview_canvas.
    destruct (str_eqb (lower (lower (pr_format payload))) (lit "png"));
      reflexivity. }
  split; [apply Qmax_ge_l |]. split; [apply Qmax_ge_l |].
  rewrite Eb. split; apply centred_start.
Qed.

Lemma preview_response_text_witness :
  match fonts_preview resolve_any strict_load_font mono_bbox red_png_preview
  with
  | Returned r => (0 < pr_size red_png_preview)%Z
  | Raised _ _ => False
  end.
Proof.
  destruct (fonts_preview resolve_any strict_load_font mono_bbox
              red_png_preview) as [e c | r] eqn:E.
  - vm_compute in E. discriminate.
  - exact (proj1 (preview_response_text resolve_any strict_load_font mono_bbox
                    red_png_preview r E)).
Defined.

(** X11. The GET route is the POST route with the fields read from the
    query: it gives the outcome of [fonts_preview] on the same fields,
    with the pangram in place of a text that is absent or empty. *)
Theorem preview_get_agrees_with_post :
  forall (resolve_font_path : str -> exn + str)
         (load_font : str -> Z -> exn + FreeTypeFont)
         (multiline_textbbox : FreeTypeFont -> str -> Q * Q * Q * Q)
         (font : str) (text : option str) (size width height padding : Z)
         (color background format : str),
    fonts_preview_get resolve_font_path load_font multiline_textbbox
                      font text size width height padding color background
                      format
    = fonts_preview resolve_font_path load_font multiline_textbbox
        {| pr_font := font;
           pr_text := match text with
                      | Some (c :: t) => c :: t
                      | _ => default_preview_text
                      end;
           pr_size := size; pr_width := width; pr_height := height;
           pr_padding := padding; pr_color := color;
           pr_background := background; pr_format := format |}.
Proof.
  intros resolve_font_path load_font bbox font text size width height
         padding color background format.
  unfold fonts_preview_get, fonts_preview.
  cbn [pr_font pr_text pr_size pr_width pr_height pr_padding pr_color
       pr_background pr_format].
  destruct text as [[| c t] |]; reflexivity.
Qed.

(** * Properties of the account routes *)

(** ** User ids as directory names *)

Lemma filter_idempotent {A} (f : A -> bool) (l : list A) :
  filter f (filter f l) = filter f l.
Proof.
  induction l as [| a l' IH]; simpl; [reflexivity |].
  destruct (f a) eqn:E; simpl; [rewrite E, IH |]; auto.
Qed.

Lemma filter_all {A} (f : A -> bool) (l : list A) :
  forallb f l = true -> filter f l = l.
Proof.
  induction l as [| a l' IH]; simpl; [reflexivity |].
  intros H. apply andb_prop in H as [Ha Hl]. now rewrite Ha, IH.
Qed.

Lemma forallb_filter_same {A} (f : A -> bool) (l : list A) :
  forallb f (filter f l) = true.
Proof.
  induction l as [| a l' IH]; simpl; [reflexivity |].
  destruct (f a) eqn:E; simpl; [rewrite E |]; auto.
Qed.

Lemma user_is_allowed (isalnum : char -> bool) :
  forallb isalnum (lit "user") = true ->
  forallb (allowed_in_id isalnum) (lit "user") = true.
Proof.
  intros H. rewrite forallb_forall in *. intros c Hc.
  unfold allowed_in_id. now rewrite (H c Hc).
Qed.

(** X13. Whatever user id comes in, [sanitize_user_id] gives a
    non-empty name made only of alphanumeric characters, [_] and [-]
    (given that the letters of the fallback name "user" are
    alphanumeric): no separator, dot or other character survives. *)
Theorem sanitize_user_id_safe :
  forall (isalnum : char -> bool) (user_id : str),
    forallb isalnum (lit "user") = true ->
    sanitize_user_id isalnum user_id <> []
    /\ (forall c, In c (sanitize_user_id isalnum user_id) ->
                  isalnum c = true \/ c = 95%N \/ c = 45%N).
Proof.
  intros isalnum user_id Huser.
  assert (Hall : forallb (allowed_in_id isalnum)
                   (sanitize_user_id isalnum user_id) = true).
  { unfold sanitize_user_id.
    destruct (filter (allowed_in_id isalnum) user_id) as [| c r] eqn:E.
    - now apply user_is_allowed.
    - cbn [is_empty]. rewrite <- E. apply forallb_filter_same. }
  split.
  - unfold sanitize_user_id.
    destruct (filter (allowed_in_id isalnum) user_id); discriminate.
  - intros c Hc. rewrite forallb_forall in Hall. specialize (Hall c Hc).
    unfold allowed_in_id in Hall.
    apply orb_true_iff in Hall as [Hall | Hall];
      [apply orb_true_iff in Hall as [Hall | Hall] |].
    + now left.
    + right. left. now apply N.eqb_eq.
    + right. right. now apply N.eqb_eq.
Qed.

Lemma sanitize_user_id_safe_witness :
  sanitize_user_id ascii_isalnum (lit "../a b") <> []
  /\ (forall c, In c (sanitize_user_id ascii_isalnum (lit "../a b")) ->
                ascii_isalnum c = true \/ c = 95%N \/ c = 45%N).
Proof.
  apply (sanitize_user_id_safe ascii_isalnum (lit "../a b")). reflexivity.
Defined.

Lemma sanitize_user_id_clean (isalnum : char -> bool) (user_id : str) :
  forallb isalnum (lit "user") = true ->
  sanitize_user_id isalnum user_id <> []
  /\ forallb (allowed_in_id isalnum) (sanitize_user_id isalnum user_id) = true.
Proof.
  intros Huser. unfold sanitize_user_id.
  destruct (filter (allowed_in_id isalnum) user_id) as [| c r] eqn:E;
    cbn [is_empty].
  - split; [discriminate | now apply user_is_allowed].
  - split; [discriminate |]. rewrite <- E. apply forallb_filter_same.
Qed.

Lemma sanitize_user_id_of_clean (isalnum : char -> bool) (user_id : str) :
  user_id <> [] -> forallb (allowed_in_id isalnum) user_id = true ->
  sanitize_user_id isalnum user_id = user_id.
Proof.
  intros Hne Hall. unfold sanitize_user_id. rewrite (filter_all _ _ Hall).
  apply is_empty_false in Hne. now rewrite Hne.
Qed.

(** X14. [sanitize_user_id] is idempotent, and it returns its argument
    unchanged exactly when the argument is non-empty and made of allowed
    characters only -- the test by which [get_logo] and the logo
    directories tell a clean name from one that was altered. *)
Theorem sanitize_user_id_fixed_points :
  forall (isalnum : char -> bool) (user_id : str),
    forallb isalnum (lit "user") = true ->
    sanitize_user_id isalnum (sanitize_user_id isalnum user_id)
    = sanitize_user_id isalnum user_id
    /\ (sanitize_user_id isalnum user_id = user_id
        <-> user_id <> []
            /\ forallb (allowed_in_id isalnum) user_id = true).
Proof.
  intros isalnum user_id Huser.
  pose proof (user_is_allowed isalnum Huser) as Hu.
  split.
  - destruct (sanitize_user_id_clean isalnum user_id Huser) as [Hne Hall].
    now apply sanitize_user_id_of_clean.
  - unfold sanitize_user_id. split.
    + intros H.
      destruct (filter (allowed_in_id isalnum) user_id) as [| c r] eqn:E;
        cbn [is_empty] in H; subst user_id.
      * split; [discriminate | exact Hu].
      * split; [discriminate |]. rewrite <- E at 1.
        apply forallb_filter_same.
    + intros [Hne Hall]. rewrite (filter_all _ _ Hall).
      apply is_empty_false in Hne. now rewrite Hne.
Qed.

Lemma sanitize_user_id_fixed_points_witness :
  sanitize_user_id ascii_isalnum (sanitize_user_id ascii_isalnum (lit "a/b"))
  = sanitize_user_id ascii_isalnum (lit "a/b")
  /\ (sanitize_user_id ascii_isalnum (lit "a/b") = lit "a/b"
      <-> lit "a/b" <> []
          /\ forallb (allowed_in_id ascii_isalnum) (lit "a/b") = true).
Proof.
  apply (sanitize_user_id_fixed_points ascii_isalnum (lit "a/b")). reflexivity.
Defined.

(** ** Who is calling *)

Lemma startswith_split (p : str) :
  forall s, startswith s p = true -> s = p ++ skipn (length p) s.
Proof.
  induction p as [| c p' IH]; intros s H; [reflexivity |].
  destruct s as [| d s']; [discriminate |]. simpl in H.
  apply andb_prop in H as [Hc Hs]. apply N.eqb_eq in Hc. subst d.
  simpl. f_equal. now apply IH.
Qed.

Lemma replace_first_prefix (old new s : str) :
  startswith s old = true ->
  replace_first old new s = new ++ skipn (length old) s.
Proof.
  intros H. destruct s as [| c s']; cbn [replace_first]; rewrite H.
  - destruct old; [simpl; now rewrite app_nil_r | discriminate].
  - reflexivity.
Qed.

Lemma find_some_row {A} (f : A -> bool) (l : list A) (a : A) :
  find f l = Some a -> In a l /\ f a = true.
Proof. apply find_some. Qed.

(** What it takes for [require_current_user] to return a user. *)
Lemma require_current_user_cases (jwt_decode : str -> JwtResult)
    (request : Request) (db : Database) :
  match require_current_user jwt_decode request db with
  | (inr user, db') =>
      db' = db /\ In user (users db)
      /\ exists rest,
          authorization request = Some (lit "Bearer " ++ rest)
          /\ jwt_decode (strip rest) = JwtPayload (Some (u_id user))
          /\ u_id user <> []
  | (inl e, db') => db' = db /\ exists detail, e = HTTPException 401 detail
  end.
Proof.
  unfold require_current_user.
  destruct (startswith (header_or_empty (authorization request))
              (lit "Bearer ")) eqn:Eh; cbn [negb].
  - rewrite (replace_first_prefix _ [] _ Eh). cbn [app].
    apply startswith_split in Eh.
    set (rest := skipn (length (lit "Bearer "))
                   (header_or_empty (authorization request))) in *.
    unfold bind, decode_access_token.
    destruct (jwt_decode (strip rest)) as [| | [uid |]] eqn:Ej;
      try (split; [reflexivity | eexists; reflexivity]).
    unfold ret. destruct uid as [| c uid'] eqn:Eu; cbn [is_empty];
      [split; [reflexivity | eexists; reflexivity] |].
    unfold get_user_by_id.
    destruct (find _ (users db)) as [user |] eqn:Ef;
      [| split; [reflexivity | eexists; reflexivity]].
    apply find_some_row in Ef as [Hin Hid]. apply str_eqb_eq in Hid.
    split; [reflexivity |]. split; [exact Hin |].
    exists rest. split.
    + destruct (authorization request) as [h |]; [| discriminate].
      simpl in Eh. now rewrite Eh at 1.
    + rewrite Hid. split; [exact Ej | discriminate].
  - split; [reflexivity | eexists; reflexivity].
Qed.

(** X15. [require_current_user] never writes to the database.  It
    returns a user only if the Authorization header is ["Bearer "]
    followed by a token which, stripped, decodes to a payload whose [sub]
    is the non-empty id of that user, a row of the users table; every
    refusal is a 401.  [require_admin_user] returns exactly the users that
    [require_current_user] returns and whose [is_admin] is not 0; it hands
    on the 401 of [require_current_user], and a user whose [is_admin] is 0
    is refused with 403 "Admin access required". *)
Theorem caller_is_token_subject :
  forall (jwt_decode : str -> JwtResult) (request : Request) (db : Database),
    match require_current_user jwt_decode request db with
    | (inr user, db') =>
        db' = db /\ In user (users db)
        /\ exists rest,
            authorization request = Some (lit "Bearer " ++ rest)
            /\ jwt_decode (strip rest) = JwtPayload (Some (u_id user))
            /\ u_id user <> []
    | (inl e, db') => db' = db /\ exists detail, e = HTTPException 401 detail
    end
    /\ match require_admin_user jwt_decode request db with
       | (inr user, db') =>
           db' = db /\ In user (users db) /\ u_is_admin user <> 0%Z
           /\ require_current_user jwt_decode request db = (inr user, db)
       | (inl e, db') =>
           db' = db
           /\ (require_current_user jwt_decode request db = (inl e, db)
                /\ (exists detail, e = HTTPException 401 detail)
               \/ exists user,
                   require_current_user jwt_decode request db = (inr user, db)
                   /\ u_is_admin user = 0%Z
                   /\ e = HTTPException 403 (lit "Admin access required"))
       end.
Proof.
  intros jwt_decode request db.
  pose proof (require_current_user_cases jwt_decode request db) as H.
  split; [exact H |].
  unfold require_admin_user, bind.
  destruct (require_current_user jwt_decode request db) as [[e | user] db'].
  - destruct H as [Hdb Hd]. subst db'. split; [reflexivity |]. now left.
  - destruct H as [Hdb [Hin _]]. subst db'.
    unfold truthy. destruct (u_is_admin user =? 0)%Z eqn:Ea; cbn [negb].
    + apply Z.eqb_eq in Ea. split; [reflexivity |]. right. now exists user.
    + apply Z.eqb_neq in Ea. repeat split; assumption.
Qed.

Lemma caller_is_token_subject_witness :
  let db := {| users := [alice; bob]; refresh_tokens := [] |} in
  require_admin_user demo_jwt_decode (bearer_request (lit "u2")) db
  = (inl (HTTPException 403 (lit "Admin access required")), db)
  /\ require_admin_user demo_jwt_decode (bearer_request (lit "u1")) db
     = (inr alice, db).
Proof.
  intros db. split.
  - destruct (caller_is_token_subject demo_jwt_decode
                (bearer_request (lit "u2")) db) as [_ H].
    destruct (require_admin_user demo_jwt_decode (bearer_request (lit "u2")) db)
      as [[e | user] db'].
    + destruct H as [-> [[Hc _] | (user & _ & _ & ->)]]; [| reflexivity].
      vm_compute in Hc. discriminate.
    + destruct H as (_ & _ & Ha & Hc).
      vm_compute in Hc. injection Hc as <-. now elim Ha.
  - destruct (caller_is_token_subject demo_jwt_decode
                (bearer_request (lit "u1")) db) as [_ H].
    destruct (require_admin_user demo_jwt_decode (bearer_request (lit "u1")) db)
      as [[e | user] db'].
    + destruct H as [-> [[Hc _] | (user & Hc & Ha & _)]].
      * vm_compute in Hc. discriminate.
      * vm_compute in Hc. injection Hc as <-. discriminate Ha.
    + destruct H as (-> & _ & _ & Hc).
      vm_compute in Hc. now injection Hc as <-.
Defined.

(** ** Refresh tokens *)

Lemma find_map_same {A} (p : A -> bool) (f : A -> A) (l : list A) :
  (forall a, p (f a) = p a) ->
  find p (map f l) = option_map f (find p l).
Proof.
  intros Hp. induction l as [| a l' IH]; simpl; [reflexivity |].
  rewrite Hp. destruct (p a); [reflexivity | exact IH].
Qed.

Lemma find_snoc {A} (p : A -> bool) (l : list A) (x : A) :
  find p (l ++ [x])
  = match find p l with
    | Some a => Some a
    | None => if p x then Some x else None
    end.
Proof.
  induction l as [| a l' IH]; simpl; [reflexivity |].
  destruct (p a); [reflexivity | exact IH].
Qed.

Lemma str_eqb_refl (a : str) : str_eqb a a = true.
Proof. now apply str_eqb_eq. Qed.

Lemma str_eqb_sym (a b : str) : str_eqb a b = str_eqb b a.
Proof.
  destruct (str_eqb a b) eqn:E1, (str_eqb b a) eqn:E2; try reflexivity.
  - apply str_eqb_eq in E1. apply str_eqb_neq in E2. congruence.
  - apply str_eqb_neq in E1. apply str_eqb_eq in E2. congruence.
Qed.

Section Sessions.

Variable sha256_hex : str -> str.
Variable jwt_encode : str -> Z -> Z -> str -> str.
Variable argon2_hash : str -> str -> str.
Variable argon2_verify : str -> str -> VerifyResult.
Variable ACCESS_TOKEN_TTL_MINUTES : Z.
Variable REFRESH_TOKEN_TTL_DAYS : Z.

Local Abbreviation issued_row :=
  (issued_token_row sha256_hex REFRESH_TOKEN_TTL_DAYS).

Lemma revoke_if_hash (user_id : str) (now : time) (h : str)
    (t : RefreshTokenRow) :
  str_eqb (rt_token_hash (revoke_if user_id now t)) h
  = str_eqb (rt_token_hash t) h.
Proof. unfold revoke_if. destruct (active_for user_id t); reflexivity. Qed.

Lemma active_after_revoke (user_id v : str) (now : time)
    (ts : list RefreshTokenRow) :
  filter (active_for v) (map (revoke_if user_id now) ts)
  = if str_eqb v user_id then [] else filter (active_for v) ts.
Proof.
  induction ts as [| t ts' IH]; simpl.
  - destruct (str_eqb v user_id); reflexivity.
  - rewrite IH. unfold revoke_if.
    destruct (active_for user_id t) eqn:Ea.
    + unfold active_for in Ea |- *. apply andb_prop in Ea as [Eu En].
      cbn [revoke_row rt_user_id rt_revoked_at is_none].
      rewrite andb_false_r. apply str_eqb_eq in Eu.
      destruct (str_eqb v user_id) eqn:Ev; [reflexivity |].
      rewrite Eu, (str_eqb_sym user_id v), Ev. reflexivity.
    + destruct (str_eqb v user_id) eqn:Ev.
      * apply str_eqb_eq in Ev. subst v. now rewrite Ea.
      * reflexivity.
Qed.

Lemma revoke_spec (user_id : str) (env : Entropy) (db : Database) :
  revoke_refresh_tokens_for_user user_id env db
  = (inr tt,
     {| users := users db;
        refresh_tokens :=
          map (revoke_if user_id (now_revoke env)) (refresh_tokens db) |}).
Proof. reflexivity. Qed.

(** Revoking a user's tokens and issuing one leaves that user with
    exactly the new token, and other users with what they had. *)
Lemma rotation (user_id agent ip : str) (env : Entropy) (db db2 : Database)
    (tok : str * str) :
  create_refresh_token_record sha256_hex REFRESH_TOKEN_TTL_DAYS
    user_id agent ip env
    (snd (revoke_refresh_tokens_for_user user_id env db))
  = (inr tok, db2) ->
  tok = (new_token env, sha256_hex (new_token env))
  /\ users db2 = users db
  /\ refresh_tokens db2
     = map (revoke_if user_id (now_revoke env)) (refresh_tokens db)
       ++ [issued_row user_id agent ip env]
  /\ filter (active_for user_id) (refresh_tokens db2)
     = [issued_row user_id agent ip env]
  /\ (forall v, v <> user_id ->
        filter (active_for v) (refresh_tokens db2)
        = filter (active_for v) (refresh_tokens db)).
Proof.
  rewrite revoke_spec. cbn [snd]. unfold create_refresh_token_record.
  cbn [refresh_tokens users].
  destruct (existsb _ _); [discriminate |].
  intros H. injection H as <- <-. cbn [refresh_tokens users].
  split; [reflexivity |]. split; [reflexivity |]. split; [reflexivity |].
  split.
  - rewrite filter_app, active_after_revoke, str_eqb_refl. simpl.
    unfold active_for. cbn [issued_token_row rt_user_id rt_revoked_at is_none].
    now rewrite str_eqb_refl.
  - intros v Hv. rewrite filter_app, active_after_revoke.
    apply str_eqb_neq in Hv. rewrite Hv. simpl.
    unfold active_for at 2. cbn [issued_token_row rt_user_id].
    rewrite (str_eqb_sym user_id v), Hv. simpl. apply app_nil_r.
Qed.

End Sessions.

(** ** The session routes *)

Section SessionFacts.
Variable sha256_hex : str -> str.
Variable jwt_encode : str -> Z -> Z -> str -> str.
Variable argon2_hash : str -> str -> str.
Variable argon2_verify : str -> str -> VerifyResult.
Variable ACCESS_TOKEN_TTL_MINUTES : Z.
Variable REFRESH_TOKEN_TTL_DAYS : Z.

(** The common end of register, login and refresh: revoke, then issue. *)
Lemma issue_session (user_id agent ip : str) (env : Entropy) (db : Database)
    (A : Type) (k : str * str -> M A) (out : exn + A) (db' : Database) :
  (revoke_refresh_tokens_for_user user_id env ;;;
   tok <- create_refresh_token_record sha256_hex REFRESH_TOKEN_TTL_DAYS
            user_id agent ip env ;;
   k tok) db = (out, db') ->
  (out = inl LibraryError
   /\ users db' = users db
   /\ refresh_tokens db'
      = map (revoke_if user_id (now_revoke env)) (refresh_tokens db))
  \/ (exists db2,
        k (new_token env, sha256_hex (new_token env)) db2 = (out, db')
        /\ users db2 = users db
        /\ refresh_tokens db2
           = map (revoke_if user_id (now_revoke env)) (refresh_tokens db)
             ++ [issued_token_row sha256_hex REFRESH_TOKEN_TTL_DAYS
                   user_id agent ip env]).
Proof.
  unfold bind at 1. rewrite revoke_spec. unfold bind at 1.
  unfold create_refresh_token_record. cbn [refresh_tokens users].
  destruct (existsb _ _).
  - intros H. injection H as <- <-. left. repeat split.
  - intros H. right. eexists. split; [exact H |]. split; reflexivity.
Qed.


Lemma active_after_rotation (user_id agent ip : str) (env : Entropy)
    (ts ts2 : list RefreshTokenRow) :
  ts2 = map (revoke_if user_id (now_revoke env)) ts
        ++ [issued_token_row sha256_hex REFRESH_TOKEN_TTL_DAYS
              user_id agent ip env] ->
  filter (active_for user_id) ts2
  = [issued_token_row sha256_hex REFRESH_TOKEN_TTL_DAYS user_id agent ip env]
  /\ (forall v, v <> user_id ->
        filter (active_for v) ts2 = filter (active_for v) ts).
Proof.
  intros ->. split.
  - rewrite filter_app, active_after_revoke, str_eqb_refl. simpl.
    unfold active_for. cbn [issued_token_row rt_user_id rt_revoked_at is_none].
    now rewrite str_eqb_refl.
  - intros v Hv. rewrite filter_app, active_after_revoke.
    apply str_eqb_neq in Hv. rewrite Hv. simpl.
    unfold active_for at 2. cbn [issued_token_row rt_user_id].
    rewrite (str_eqb_sym user_id v), Hv. simpl. apply app_nil_r.
Qed.

Lemma login_cases (payload : AuthRequest) (request : Request)
    (env : Entropy) (db : Database) :
  match login sha256_hex jwt_encode argon2_verify ACCESS_TOKEN_TTL_MINUTES
          REFRESH_TOKEN_TTL_DAYS payload request env db with
  | (inr resp, db') =>
      exists user,
        find (fun u => str_eqb (u_username u) (strip (username payload)))
             (users db) = Some user
        /\ argon2_verify (u_password_hash user) (strip (password payload))
           = VerifyOk
        /\ resp = auth_response
                    (create_access_token jwt_encode ACCESS_TOKEN_TTL_MINUTES
                       (u_id user) env)
                    user (new_token env)
        /\ refresh_tokens db'
           = map (revoke_if (u_id user) (now_revoke env)) (refresh_tokens db)
             ++ [issued_token_row sha256_hex REFRESH_TOKEN_TTL_DAYS (u_id user)
                   (header_or_empty (user_agent request))
                   (header_or_empty (client_host request)) env]
  | (inl (HTTPException code _), db') =>
      db' = db /\ (code = 400 \/ code = 401)%Z
  | (inl LibraryError, db') =>
      refresh_tokens db' = refresh_tokens db
      \/ exists user_id,
          refresh_tokens db'
          = map (revoke_if user_id (now_revoke env)) (refresh_tokens db)
  end.
Proof.
  unfold login.
  destruct (is_empty (strip (username payload))
            || is_empty (strip (password payload)))%bool.
  { split; [reflexivity | now left]. }
  unfold bind at 1, get_user_by_username.
  destruct (find _ (users db)) as [user |] eqn:Ef;
    [| split; [reflexivity | now right]].
  destruct (argon2_verify (u_password_hash user) (strip (password payload)))
    eqn:Ev; [| split; [reflexivity | now right] | now left].
  unfold bind at 1, update_last_login at 1. cbv zeta.
  match goal with
  | |- match ?c ?d with _ => _ end =>
      destruct (c d) as [out db'] eqn:E
  end.
  apply issue_session in E. cbn [users refresh_tokens] in E.
  destruct E as [(-> & _ & Ht) | (db2 & Hk & _ & Ht)].
  - right. now exists (u_id user).
  - unfold ret in Hk. injection Hk as <- <-.
    exists user. repeat split; assumption.
Qed.


Lemma refresh_cases (request : Request) (env : Entropy) (db : Database) :
  match refresh sha256_hex jwt_encode ACCESS_TOKEN_TTL_MINUTES
          REFRESH_TOKEN_TTL_DAYS request env db with
  | (inr resp, db') =>
      exists raw record user,
        refresh_cookie request = Some raw /\ raw <> []
        /\ find (fun t => str_eqb (rt_token_hash t) (sha256_hex raw))
                (refresh_tokens db) = Some record
        /\ rt_revoked_at record = None
        /\ (now_check env < rt_expires_at record)%Z
        /\ find (fun u => str_eqb (u_id u) (rt_user_id record)) (users db)
           = Some user
        /\ resp = auth_response
                    (create_access_token jwt_encode ACCESS_TOKEN_TTL_MINUTES
                       (u_id user) env)
                    user (new_token env)
        /\ users db' = users db
        /\ refresh_tokens db'
           = map (revoke_if (u_id user) (now_revoke env)) (refresh_tokens db)
             ++ [issued_token_row sha256_hex REFRESH_TOKEN_TTL_DAYS (u_id user)
                   (header_or_empty (user_agent request))
                   (header_or_empty (client_host request)) env]
  | (inl (HTTPException code _), db') => db' = db /\ code = 401%Z
  | (inl LibraryError, db') =>
      users db' = users db
      /\ exists user_id,
          refresh_tokens db'
          = map (revoke_if user_id (now_revoke env)) (refresh_tokens db)
  end.
Proof.
  unfold refresh.
  destruct (refresh_cookie request) as [raw |]; [| now split].
  destruct raw as [| c raw'] eqn:Eraw; cbn [is_empty]; [now split |].
  rewrite <- Eraw. assert (Hraw : raw <> []) by (subst raw; discriminate).
  clear Eraw.
  unfold bind at 1, get_refresh_token_record, hash_refresh_token.
  destruct (find _ (refresh_tokens db)) as [record |] eqn:Ef; [| now split].
  destruct (rt_revoked_at record) as [rv |] eqn:Erv; cbn [is_none negb];
    [now split |].
  destruct (rt_expires_at record <=? now_check env)%Z eqn:Eexp; [now split |].
  apply Z.leb_gt in Eexp.
  unfold bind at 1, get_user_by_id.
  destruct (find _ (users db)) as [user |] eqn:Eu; [| now split].
  cbv zeta.
  match goal with
  | |- match ?c ?d with _ => _ end =>
      destruct (c d) as [out db'] eqn:E
  end.
  apply issue_session in E.
  destruct E as [(-> & Hu & Ht) | (db2 & Hk & Hu & Ht)].
  - split; [exact Hu |]. now exists (u_id user).
  - unfold ret in Hk. injection Hk as <- <-.
    exists raw, record, user. repeat split; assumption.
Qed.

Lemma find_none_of_existsb {A} (p q : A -> bool) (l : list A) :
  existsb (fun a => p a || q a)%bool l = false ->
  find p l = None /\ find q l = None.
Proof.
  induction l as [| a l' IH]; simpl; [now split |].
  intros H. apply orb_false_elim in H as [Ha Hl].
  apply orb_false_elim in Ha as [Hp Hq]. rewrite Hp, Hq. now apply IH.
Qed.

Lemma create_user_cases (name pass : str) (is_admin password_changed : Z)
    (env : Entropy) (db : Database) :
  create_user argon2_hash name pass is_admin password_changed env db
  = (inl LibraryError, db)
  \/ (find (fun u => str_eqb (u_username u) name) (users db) = None
      /\ create_user argon2_hash name pass is_admin password_changed env db
         = (inr (Some (created_user_row argon2_hash name pass is_admin password_changed env)),
            {| users := users db
                        ++ [created_user_row argon2_hash name pass is_admin
                              password_changed env];
               refresh_tokens := refresh_tokens db |})).
Proof.
  unfold create_user, bind, insert_user.
  cbn [u_id u_username].
  destruct (existsb _ (users db)) eqn:E; [now left |].
  right. apply find_none_of_existsb in E as [Hid Hname].
  split; [exact Hname |].
  unfold get_user_by_id. cbn [users]. rewrite find_snoc, Hid.
  cbn [u_id]. rewrite str_eqb_refl. reflexivity.
Qed.

Lemma register_cases (payload : AuthRequest) (request : Request)
    (env : Entropy) (db : Database) :
  let name := strip (username payload) in
  let pass := strip (password payload) in
  let row := created_user_row argon2_hash name pass 0 1 env in
  match register sha256_hex jwt_encode argon2_hash ACCESS_TOKEN_TTL_MINUTES
          REFRESH_TOKEN_TTL_DAYS payload request env db with
  | (inr resp, db') =>
      name <> [] /\ pass <> []
      /\ find (fun u => str_eqb (u_username u) name) (users db) = None
      /\ users db' = users db ++ [row]
      /\ resp = auth_response
                  (create_access_token jwt_encode ACCESS_TOKEN_TTL_MINUTES
                     (u_id row) env)
                  row (new_token env)
      /\ refresh_tokens db'
         = map (revoke_if (u_id row) (now_revoke env)) (refresh_tokens db)
           ++ [issued_token_row sha256_hex REFRESH_TOKEN_TTL_DAYS (u_id row)
                 (header_or_empty (user_agent request))
                 (header_or_empty (client_host request)) env]
  | (inl (HTTPException code _), db') =>
      db' = db /\ (code = 400 \/ code = 409)%Z
  | (inl LibraryError, db') =>
      refresh_tokens db' = refresh_tokens db
      \/ exists user_id,
          refresh_tokens db'
          = map (revoke_if user_id (now_revoke env)) (refresh_tokens db)
  end.
Proof.
  intros name pass row. unfold register. fold name pass.
  destruct (is_empty name) eqn:En; cbn [orb]; [split; [reflexivity | now left] |].
  destruct (is_empty pass) eqn:Ep; [split; [reflexivity | now left] |].
  apply is_empty_false in En, Ep.
  unfold bind at 1, get_user_by_username.
  destruct (find _ (users db)) as [existing |] eqn:Ef;
    [split; [reflexivity | now right] |].
  unfold bind at 1.
  destruct (create_user_cases name pass 0 1 env db) as [Hc | [_ Hc]];
    rewrite Hc; [now left |].
  fold row. cbv zeta.
  match goal with
  | |- match ?c ?d with _ => _ end =>
      destruct (c d) as [out db'] eqn:E
  end.
  apply issue_session in E. cbn [users refresh_tokens] in E.
  destruct E as [(-> & _ & Ht) | (db2 & Hk & Hu & Ht)].
  - right. now exists (u_id row).
  - unfold ret in Hk. injection Hk as <- <-.
    repeat split; assumption.
Qed.

Lemma logout_cases (request : Request) (env : Entropy) (db : Database) :
  exists db',
    logout sha256_hex request env db = (inr tt, db')
    /\ users db' = users db
    /\ match refresh_cookie request with
       | Some (c :: raw) =>
           match find (fun t => str_eqb (rt_token_hash t)
                                        (sha256_hex (c :: raw)))
                      (refresh_tokens db) with
           | Some record =>
               refresh_tokens db'
               = map (revoke_if (rt_user_id record) (now_revoke env))
                     (refresh_tokens db)
           | None => db' = db
           end
       | _ => db' = db
       end.
Proof.
  unfold logout.
  destruct (refresh_cookie request) as [[| c raw] |];
    [exists db; now repeat split | | exists db; now repeat split].
  cbn [is_empty]. unfold bind, get_refresh_token_record, hash_refresh_token.
  destruct (find _ (refresh_tokens db)) as [record |].
  - rewrite revoke_spec. eexists. repeat split.
  - exists db. repeat split.
Qed.

End SessionFacts.

Lemma one_session_after_revoke (db db' : Database) (user_id : str) (now : time) :
  refresh_tokens db' = map (revoke_if user_id now) (refresh_tokens db) ->
  one_session db -> one_session db'.
Proof.
  intros Ht H v. rewrite Ht, active_after_revoke.
  destruct (str_eqb v user_id); [simpl; lia | apply H].
Qed.

Lemma one_session_after_rotation (sha256_hex : str -> str) (ttl : Z)
    (db db' : Database) (user_id agent ip : str) (env : Entropy) :
  refresh_tokens db'
  = map (revoke_if user_id (now_revoke env)) (refresh_tokens db)
    ++ [issued_token_row sha256_hex ttl user_id agent ip env] ->
  one_session db -> one_session db'.
Proof.
  intros Ht H v.
  destruct (active_after_rotation sha256_hex ttl user_id agent ip env
              (refresh_tokens db) (refresh_tokens db') Ht) as [Hu Hv].
  destruct (list_eq_dec N.eq_dec v user_id) as [-> | Hne].
  - rewrite Hu. simpl. lia.
  - rewrite (Hv v Hne). apply H.
Qed.

Lemma one_session_same_tokens (db db' : Database) :
  refresh_tokens db' = refresh_tokens db -> one_session db -> one_session db'.
Proof. intros Ht H v. rewrite Ht. apply H. Qed.

(** X16. A login succeeds only for an existing user whose stored hash
    verifies the (stripped) password.  It then leaves that user with
    exactly one unrevoked refresh token, the one whose hash is the hash of
    the cookie just set and which expires after the configured number of
    days; the unrevoked tokens of every other user are untouched. *)
Theorem login_requires_verified_password :
  forall (sha256_hex : str -> str) (jwt_encode : str -> Z -> Z -> str -> str)
         (argon2_verify : str -> str -> VerifyResult)
         (ACCESS_TOKEN_TTL_MINUTES REFRESH_TOKEN_TTL_DAYS : Z)
         (payload : AuthRequest) (request : Request) (env : Entropy)
         (db db' : Database) (resp : AuthResponse),
    login sha256_hex jwt_encode argon2_verify ACCESS_TOKEN_TTL_MINUTES
          REFRESH_TOKEN_TTL_DAYS payload request env db = (inr resp, db') ->
    exists user,
      In user (users db)
      /\ u_username user = strip (username payload)
      /\ argon2_verify (u_password_hash user) (strip (password payload))
         = VerifyOk
      /\ ar_id resp = u_id user
      /\ ar_set_cookie resp = new_token env
      /\ (exists row,
            filter (active_for (u_id user)) (refresh_tokens db') = [row]
            /\ rt_token_hash row = sha256_hex (ar_set_cookie resp)
            /\ rt_expires_at row
               = (now_token env + days REFRESH_TOKEN_TTL_DAYS)%Z)
      /\ (forall v, v <> u_id user ->
            filter (active_for v) (refresh_tokens db')
            = filter (active_for v) (refresh_tokens db)).
Proof.
  intros sha256_hex jwt_encode argon2_verify ttl_m ttl_d payload request env
         db db' resp E.
  pose proof (login_cases sha256_hex jwt_encode argon2_verify ttl_m ttl_d
                payload request env db) as H.
  rewrite E in H. destruct H as (user & Hf & Hv & -> & Ht).
  apply find_some_row in Hf as [Hin Hname]. apply str_eqb_eq in Hname.
  destruct (active_after_rotation sha256_hex ttl_d _ _ _ env _ _ Ht)
    as [Hu Hothers].
  exists user. split; [exact Hin |]. split; [exact Hname |].
  split; [exact Hv |]. split; [reflexivity |]. split; [reflexivity |].
  split; [| exact Hothers].
  eexists. split; [exact Hu |]. split; reflexivity.
Qed.

Lemma login_requires_verified_password_witness :
  match login demo_sha256 demo_jwt_encode demo_verify 15 30 alice_login
          bare_request (demo_entropy 5) demo_db with
  | (inr resp, db') =>
      ar_id resp = lit "u1"
      /\ exists row,
          filter (active_for (lit "u1")) (refresh_tokens db') = [row]
          /\ rt_token_hash row = demo_sha256 (ar_set_cookie resp)
  | (inl _, _) => False
  end.
Proof.
  destruct (login demo_sha256 demo_jwt_encode demo_verify 15 30 alice_login
              bare_request (demo_entropy 5) demo_db) as [[e | resp] db'] eqn:E.
  - vm_compute in E. discriminate.
  - destruct (login_requires_verified_password _ _ _ _ _ _ _ _ _ _ _ E)
      as (user & Hin & _ & _ & Hid & _ & (row & Hrow & Hhash & _) & _).
    destruct Hin as [<- | []].
    split; [exact Hid |]. exists row. split; [exact Hrow | exact Hhash].
Defined.

(** A token that is found but revoked is refused, and nothing is written. *)
Lemma refresh_refuses_revoked
    (sha256_hex : str -> str) (jwt_encode : str -> Z -> Z -> str -> str)
    (ttl_m ttl_d : Z) (request : Request) (env : Entropy) (db : Database)
    (c : char) (raw : str) (record : RefreshTokenRow) :
  refresh_cookie request = Some (c :: raw) ->
  find (fun t => str_eqb (rt_token_hash t) (sha256_hex (c :: raw)))
       (refresh_tokens db) = Some record ->
  rt_revoked_at record <> None ->
  refresh sha256_hex jwt_encode ttl_m ttl_d request env db
  = (inl (HTTPException 401 (lit "Refresh token revoked")), db).
Proof.
  intros Hc Hf Hr. unfold refresh. rewrite Hc. cbn [is_empty].
  unfold bind, get_refresh_token_record, hash_refresh_token. rewrite Hf.
  destruct (rt_revoked_at record); [reflexivity | congruence].
Qed.

Lemma active_for_revoke_if (user_id : str) (now : time) (t : RefreshTokenRow) :
  rt_user_id t = user_id ->
  rt_revoked_at (revoke_if user_id now t) <> None.
Proof.
  intros Hu. unfold revoke_if, active_for. rewrite Hu, str_eqb_refl.
  destruct (rt_revoked_at t) eqn:E; simpl; [now rewrite E | discriminate].
Qed.

Lemma revoke_if_user (user_id : str) (now : time) (t : RefreshTokenRow) :
  rt_user_id (revoke_if user_id now t) = rt_user_id t.
Proof. unfold revoke_if. destruct (active_for user_id t); reflexivity. Qed.

(** X17. A refresh succeeds only with a cookie whose hash is that of a
    stored refresh token that is not revoked and not yet expired
    ([now < expires_at]); the response is for the owner of that token, the
    users table is untouched, and the owner is left with exactly one
    unrevoked token, the new one. *)
Theorem refresh_requires_live_token :
  forall (sha256_hex : str -> str) (jwt_encode : str -> Z -> Z -> str -> str)
         (ACCESS_TOKEN_TTL_MINUTES REFRESH_TOKEN_TTL_DAYS : Z)
         (request : Request) (env : Entropy)
         (db db' : Database) (resp : AuthResponse),
    refresh sha256_hex jwt_encode ACCESS_TOKEN_TTL_MINUTES
            REFRESH_TOKEN_TTL_DAYS request env db = (inr resp, db') ->
    exists raw record,
      refresh_cookie request = Some raw
      /\ In record (refresh_tokens db)
      /\ rt_token_hash record = sha256_hex raw
      /\ rt_revoked_at record = None
      /\ (now_check env < rt_expires_at record)%Z
      /\ ar_id resp = rt_user_id record
      /\ ar_set_cookie resp = new_token env
      /\ users db' = users db
      /\ (exists row,
            filter (active_for (ar_id resp)) (refresh_tokens db') = [row]
            /\ rt_token_hash row = sha256_hex (ar_set_cookie resp)
            /\ rt_expires_at row
               = (now_token env + days REFRESH_TOKEN_TTL_DAYS)%Z)
      /\ (forall v, v <> ar_id resp ->
            filter (active_for v) (refresh_tokens db')
            = filter (active_for v) (refresh_tokens db)).
Proof.
  intros sha256_hex jwt_encode ttl_m ttl_d request env db db' resp E.
  pose proof (refresh_cases sha256_hex jwt_encode ttl_m ttl_d request env db)
    as H.
  rewrite E in H.
  destruct H as (raw & record & user & Hc & _ & Hf & Hr & Hexp & Hu & -> & Hus
                 & Ht).
  apply find_some_row in Hf as [Hin Hhash]. apply str_eqb_eq in Hhash.
  apply find_some_row in Hu as [_ Hid]. apply str_eqb_eq in Hid.
  destruct (active_after_rotation sha256_hex ttl_d _ _ _ env _ _ Ht)
    as [Hact Hothers].
  exists raw, record. cbn [auth_response ar_id ar_set_cookie].
  repeat (split; [assumption || reflexivity |]).
  split; [| exact Hothers].
  eexists. split; [exact Hact |]. split; reflexivity.
Qed.

Lemma refresh_requires_live_token_witness :
  match refresh demo_sha256 demo_jwt_encode 15 30 (cookie_request (lit "t0"))
          (demo_entropy 5) demo_db with
  | (inr resp, db') =>
      users db' = users demo_db
      /\ exists record,
          In record (refresh_tokens demo_db)
          /\ rt_token_hash record = demo_sha256 (lit "t0")
          /\ rt_revoked_at record = None
          /\ (5 < rt_expires_at record)%Z
          /\ ar_id resp = rt_user_id record
  | (inl _, _) => False
  end.
Proof.
  destruct (refresh demo_sha256 demo_jwt_encode 15 30
              (cookie_request (lit "t0")) (demo_entropy 5) demo_db)
    as [[e | resp] db'] eqn:E.
  - vm_compute in E. discriminate.
  - destruct (refresh_requires_live_token _ _ _ _ _ _ _ _ _ E)
      as (raw & record & Hc & Hin & Hh & Hr & Hexp & Hid & _ & Hu & _).
    injection Hc as <-.
    split; [exact Hu |]. exists record.
    repeat (split; [assumption |]). exact Hid.
Defined.

(** X18. A refresh token works once: after a successful refresh, the
    same cookie is refused with 401 "Refresh token revoked", at any later
    time and without any write. *)
Theorem refresh_token_single_use :
  forall (sha256_hex : str -> str) (jwt_encode : str -> Z -> Z -> str -> str)
         (ACCESS_TOKEN_TTL_MINUTES REFRESH_TOKEN_TTL_DAYS : Z)
         (request : Request) (env env2 : Entropy)
         (db db' : Database) (resp : AuthResponse),
    refresh sha256_hex jwt_encode ACCESS_TOKEN_TTL_MINUTES
            REFRESH_TOKEN_TTL_DAYS request env db = (inr resp, db') ->
    refresh sha256_hex jwt_encode ACCESS_TOKEN_TTL_MINUTES
            REFRESH_TOKEN_TTL_DAYS request env2 db'
    = (inl (HTTPException 401 (lit "Refresh token revoked")), db').
Proof.
  intros sha256_hex jwt_encode ttl_m ttl_d request env env2 db db' resp E.
  pose proof (refresh_cases sha256_hex jwt_encode ttl_m ttl_d request env db)
    as H.
  rewrite E in H.
  destruct H as (raw & record & user & Hc & Hraw & Hf & Hr & _ & Hu & _ & _
                 & Ht).
  destruct raw as [| c raw']; [congruence |].
  apply find_some_row in Hu as [_ Hid]. apply str_eqb_eq in Hid.
  apply (refresh_refuses_revoked sha256_hex jwt_encode ttl_m ttl_d request
           env2 db' c raw'
           (revoke_if (u_id user) (now_revoke env) record) Hc).
  - rewrite Ht, find_snoc, find_map_same by (intros a; apply revoke_if_hash).
    rewrite Hf. reflexivity.
  - apply active_for_revoke_if. now symmetry.
Qed.

Lemma refresh_token_single_use_witness :
  match refresh demo_sha256 demo_jwt_encode 15 30 (cookie_request (lit "t0"))
          (demo_entropy 5) demo_db with
  | (inr _, db') =>
      refresh demo_sha256 demo_jwt_encode 15 30 (cookie_request (lit "t0"))
        (demo_entropy 20) db'
      = (inl (HTTPException 401 (lit "Refresh token revoked")), db')
  | (inl _, _) => False
  end.
Proof.
  destruct (refresh demo_sha256 demo_jwt_encode 15 30
              (cookie_request (lit "t0")) (demo_entropy 5) demo_db)
    as [[e | resp] db'] eqn:E.
  - vm_compute in E. discriminate.
  - exact (refresh_token_single_use _ _ _ _ _ _ (demo_entropy 20) _ _ _ E).
Defined.

(** X19. The session routes fail closed: when register, login or
    refresh answers with an HTTP error, the database is exactly as it was,
    and the status is 400 or 409 for register, 400 or 401 for login, and
    401 for refresh. *)
Theorem session_routes_fail_closed :
  forall (sha256_hex : str -> str) (jwt_encode : str -> Z -> Z -> str -> str)
         (argon2_hash : str -> str -> str)
         (argon2_verify : str -> str -> VerifyResult)
         (ACCESS_TOKEN_TTL_MINUTES REFRESH_TOKEN_TTL_DAYS : Z)
         (payload : AuthRequest) (request : Request) (env : Entropy)
         (db db' : Database) (code : Z) (detail : str),
    (register sha256_hex jwt_encode argon2_hash ACCESS_TOKEN_TTL_MINUTES
              REFRESH_TOKEN_TTL_DAYS payload request env db
     = (inl (HTTPException code detail), db') ->
     db' = db /\ (code = 400 \/ code = 409)%Z)
    /\ (login sha256_hex jwt_encode argon2_verify ACCESS_TOKEN_TTL_MINUTES
              REFRESH_TOKEN_TTL_DAYS payload request env db
        = (inl (HTTPException code detail), db') ->
        db' = db /\ (code = 400 \/ code = 401)%Z)
    /\ (refresh sha256_hex jwt_encode ACCESS_TOKEN_TTL_MINUTES
                REFRESH_TOKEN_TTL_DAYS request env db
        = (inl (HTTPException code detail), db') ->
        db' = db /\ code = 401%Z).
Proof.
  intros sha256_hex jwt_encode argon2_hash argon2_verify ttl_m ttl_d
         payload request env db db' code detail.
  split; [| split]; intros E.
  - pose proof (register_cases sha256_hex jwt_encode argon2_hash ttl_m ttl_d
                  payload request env db) as H.
    cbv zeta in H. rewrite E in H. exact H.
  - pose proof (login_cases sha256_hex jwt_encode argon2_verify ttl_m ttl_d
                  payload request env db) as H.
    rewrite E in H. exact H.
  - pose proof (refresh_cases sha256_hex jwt_encode ttl_m ttl_d request env db)
      as H.
    rewrite E in H. exact H.
Qed.

Lemma session_routes_fail_closed_witness :
  match register demo_sha256 demo_jwt_encode demo_hash 15 30 alice_login
          bare_request (demo_entropy 5) demo_db with
  | (inl (HTTPException code _), db') => db' = demo_db /\ code = 409%Z
  | _ => False
  end
  /\ match login demo_sha256 demo_jwt_encode demo_verify 15 30
             {| username := lit "alice"; password := lit "wrong" |}
             bare_request (demo_entropy 5) demo_db with
     | (inl (HTTPException code _), db') => db' = demo_db /\ code = 401%Z
     | _ => False
     end
  /\ match refresh demo_sha256 demo_jwt_encode 15 30 bare_request
             (demo_entropy 5) demo_db with
     | (inl (HTTPException code _), db') => db' = demo_db /\ code = 401%Z
     | _ => False
     end.
Proof.
  split; [| split].
  - destruct (register demo_sha256 demo_jwt_encode demo_hash 15 30 alice_login
                bare_request (demo_entropy 5) demo_db)
      as [[[code detail |] | resp] db'] eqn:E;
      try (vm_compute in E; discriminate).
    destruct (session_routes_fail_closed demo_sha256 demo_jwt_encode demo_hash
                demo_verify 15 30 alice_login bare_request (demo_entropy 5)
                demo_db db' code detail) as [H _].
    split; [exact (proj1 (H E)) |].
    vm_compute in E. congruence.
  - destruct (login demo_sha256 demo_jwt_encode demo_verify 15 30
                {| username := lit "alice"; password := lit "wrong" |}
                bare_request (demo_entropy 5) demo_db)
      as [[[code detail |] | resp] db'] eqn:E;
      try (vm_compute in E; discriminate).
    destruct (session_routes_fail_closed demo_sha256 demo_jwt_encode demo_hash
                demo_verify 15 30
                {| username := lit "alice"; password := lit "wrong" |}
                bare_request (demo_entropy 5)
                demo_db db' code detail) as (_ & H & _).
    split; [exact (proj1 (H E)) |].
    vm_compute in E. congruence.
  - destruct (refresh demo_sha256 demo_jwt_encode 15 30 bare_request
                (demo_entropy 5) demo_db)
      as [[[code detail |] | resp] db'] eqn:E;
      try (vm_compute in E; discriminate).
    destruct (session_routes_fail_closed demo_sha256 demo_jwt_encode demo_hash
                demo_verify 15 30 alice_login
                bare_request (demo_entropy 5)
                demo_db db' code detail) as (_ & _ & H).
    exact (H E).
Defined.

(** X20. Logout always succeeds and never touches the users table.
    When its cookie matches a stored token, no unrevoked token of the
    owner remains, other users keep theirs, and from then on every
    refresh with a stored token of that owner is refused with 401. *)
Theorem logout_ends_sessions :
  forall (sha256_hex : str -> str) (jwt_encode : str -> Z -> Z -> str -> str)
         (ACCESS_TOKEN_TTL_MINUTES REFRESH_TOKEN_TTL_DAYS : Z)
         (request : Request) (env : Entropy) (db : Database),
    exists db',
      logout sha256_hex request env db = (inr tt, db')
      /\ users db' = users db
      /\ forall (c : char) (raw : str) (record : RefreshTokenRow),
          refresh_cookie request = Some (c :: raw) ->
          find (fun t => str_eqb (rt_token_hash t) (sha256_hex (c :: raw)))
               (refresh_tokens db) = Some record ->
          filter (active_for (rt_user_id record)) (refresh_tokens db') = []
          /\ (forall v, v <> rt_user_id record ->
                filter (active_for v) (refresh_tokens db')
                = filter (active_for v) (refresh_tokens db))
          /\ (forall (request2 : Request) (env2 : Entropy) (c2 : char)
                     (raw2 : str) (record2 : RefreshTokenRow),
                refresh_cookie request2 = Some (c2 :: raw2) ->
                find (fun t => str_eqb (rt_token_hash t)
                                       (sha256_hex (c2 :: raw2)))
                     (refresh_tokens db') = Some record2 ->
                rt_user_id record2 = rt_user_id record ->
                refresh sha256_hex jwt_encode ACCESS_TOKEN_TTL_MINUTES
                        REFRESH_TOKEN_TTL_DAYS request2 env2 db'
                = (inl (HTTPException 401 (lit "Refresh token revoked")), db')).
Proof.
  intros sha256_hex jwt_encode ttl_m ttl_d request env db.
  destruct (logout_cases sha256_hex request env db) as (db' & E & Hu & Hc).
  exists db'. split; [exact E |]. split; [exact Hu |].
  intros c raw record Hcookie Hf. rewrite Hcookie, Hf in Hc.
  split; [| split].
  - rewrite Hc, active_after_revoke, str_eqb_refl. reflexivity.
  - intros v Hv. rewrite Hc, active_after_revoke.
    apply str_eqb_neq in Hv. now rewrite Hv.
  - intros request2 env2 c2 raw2 record2 Hc2 Hf2 Huser.
    apply (refresh_refuses_revoked sha256_hex jwt_encode ttl_m ttl_d request2
             env2 db' c2 raw2 record2 Hc2 Hf2).
    apply find_some_row in Hf2 as [Hin _]. rewrite Hc in Hin.
    apply in_map_iff in Hin as (t & <- & _).
    apply active_for_revoke_if. now rewrite revoke_if_user in Huser.
Qed.

Lemma logout_ends_sessions_witness :
  exists db',
    logout demo_sha256 (cookie_request (lit "t0")) (demo_entropy 5) demo_db
    = (inr tt, db')
    /\ users db' = users demo_db
    /\ filter (active_for (lit "u1")) (refresh_tokens db') = []
    /\ refresh demo_sha256 demo_jwt_encode 15 30 (cookie_request (lit "t0"))
         (demo_entropy 20) db'
       = (inl (HTTPException 401 (lit "Refresh token revoked")), db').
Proof.
  destruct (logout_ends_sessions demo_sha256 demo_jwt_encode 15 30
              (cookie_request (lit "t0")) (demo_entropy 5) demo_db)
    as (db' & E & Hu & H).
  exists db'. split; [exact E |]. split; [exact Hu |].
  edestruct (H 116%N (lit "0")) as (Hnone & _ & Hlater);
    [reflexivity | vm_compute; reflexivity |].
  split; [exact Hnone |].
  vm_compute in E. injection E as <-.
  eapply (Hlater (cookie_request (lit "t0")) (demo_entropy 20) 116%N (lit "0"));
    [reflexivity | vm_compute; reflexivity | reflexivity].
Defined.

(** X22. A successful registration adds exactly one user row: its
    name is the stripped, non-empty, previously unused user name, its
    stored password is the hash of the stripped password, it is no
    administrator and need not change its password; the response names it
    and its only unrevoked refresh token is the one of the cookie. *)
Theorem register_creates_plain_account :
  forall (sha256_hex : str -> str) (jwt_encode : str -> Z -> Z -> str -> str)
         (argon2_hash : str -> str -> str)
         (ACCESS_TOKEN_TTL_MINUTES REFRESH_TOKEN_TTL_DAYS : Z)
         (payload : AuthRequest) (request : Request) (env : Entropy)
         (db db' : Database) (resp : AuthResponse),
    register sha256_hex jwt_encode argon2_hash ACCESS_TOKEN_TTL_MINUTES
             REFRESH_TOKEN_TTL_DAYS payload request env db = (inr resp, db') ->
    strip (username payload) <> [] /\ strip (password payload) <> []
    /\ (forall u, In u (users db) ->
                  u_username u <> strip (username payload))
    /\ (exists row,
          users db' = users db ++ [row]
          /\ u_id row = ar_id resp
          /\ u_username row = strip (username payload)
          /\ u_password_hash row
             = argon2_hash (strip (password payload)) (salt env)
          /\ u_is_admin row = 0%Z /\ u_password_changed row = 1%Z)
    /\ ar_username resp = strip (username payload)
    /\ ar_is_admin resp = false
    /\ ar_must_change_password resp = false
    /\ exists token_row,
        filter (active_for (ar_id resp)) (refresh_tokens db') = [token_row]
        /\ rt_token_hash token_row = sha256_hex (ar_set_cookie resp).
Proof.
  intros sha256_hex jwt_encode argon2_hash ttl_m ttl_d payload request env
         db db' resp E.
  pose proof (register_cases sha256_hex jwt_encode argon2_hash ttl_m ttl_d
                payload request env db) as H.
  cbv zeta in H. rewrite E in H.
  destruct H as (Hn & Hp & Hf & Hu & -> & Ht).
  destruct (active_after_rotation sha256_hex ttl_d _ _ _ env _ _ Ht)
    as [Hact _].
  split; [exact Hn |]. split; [exact Hp |]. split.
  { intros u Hin Heq.
    apply (find_none _ _ Hf) in Hin. apply str_eqb_neq in Hin. contradiction. }
  split.
  { eexists. split; [exact Hu |]. repeat split. }
  split; [reflexivity |]. split; [reflexivity |]. split; [reflexivity |].
  eexists. split; [exact Hact | reflexivity].
Qed.

Lemma register_creates_plain_account_witness :
  match register demo_sha256 demo_jwt_encode demo_hash 15 30
          {| username := lit " bob "; password := lit "pw" |}
          bare_request (demo_entropy 5) demo_db with
  | (inr resp, db') =>
      ar_username resp = lit "bob"
      /\ ar_is_admin resp = false
      /\ exists row,
          users db' = users demo_db ++ [row]
          /\ u_username row = lit "bob"
          /\ u_is_admin row = 0%Z
  | (inl _, _) => False
  end.
Proof.
  destruct (register demo_sha256 demo_jwt_encode demo_hash 15 30
              {| username := lit " bob "; password := lit "pw" |}
              bare_request (demo_entropy 5) demo_db)
    as [[e | resp] db'] eqn:E.
  - vm_compute in E. discriminate.
  - destruct (register_creates_plain_account _ _ _ _ _ _ _ _ _ _ _ E)
      as (_ & _ & _ & (row & Hu & _ & Hn & _ & Ha & _) & Hname & Hadm & _).
    split; [exact Hname |]. split; [exact Hadm |].
    exists row. split; [exact Hu |]. split; [exact Hn | exact Ha].
Defined.

Lemma lstrip_head (s : str) (c : char) (r : str) :
  lstrip s = c :: r -> isspace c = false.
Proof.
  induction s as [| a s' IH]; simpl; [discriminate |].
  destruct (isspace a) eqn:E; [exact IH |].
  intros H. injection H as <- _. exact E.
Qed.

Lemma rstrip_decomp (t : str) :
  exists tail, forallb isspace tail = true /\ t = rstrip t ++ tail.
Proof.
  destruct (lstrip_decomp (rev t)) as [pre [Hpre Heq]].
  exists (rev pre). split; [now apply forallb_rev |].
  unfold rstrip. rewrite <- rev_app_distr, <- Heq. now rewrite rev_involutive.
Qed.

Lemma strip_idempotent (s : str) : strip (strip s) = strip s.
Proof.
  destruct (strip s) as [| c r] eqn:E; [reflexivity |].
  assert (Hc : isspace c = false).
  { unfold strip in E. destruct (rstrip_decomp (lstrip s)) as [tail [_ Ht]].
    rewrite E in Ht. simpl in Ht. apply (lstrip_head s c _ Ht). }
  assert (Hne : c :: r <> []) by discriminate.
  destruct (exists_last Hne) as [front [b Eb]].
  assert (Hb : isspace b = false).
  { unfold strip, rstrip in E. rewrite Eb in E.
    apply (f_equal (@rev char)) in E.
    rewrite rev_involutive, rev_app_distr in E. simpl in E.
    apply (lstrip_head _ b _ E). }
  unfold strip. cbn [lstrip]. rewrite Hc, Eb.
  now apply rstrip_nonspace_last.
Qed.

Section PasswordFacts.
Variable jwt_decode : str -> JwtResult.
Variable argon2_hash : str -> str -> str.
Variable argon2_verify : str -> str -> VerifyResult.

Lemma change_password_cases (payload : ChangePasswordRequest)
    (request : Request) (env : Entropy) (db : Database) :
  match change_password jwt_decode argon2_hash argon2_verify payload request
          env db with
  | (inr _, db') =>
      exists user,
        require_current_user jwt_decode request db = (inr user, db)
        /\ argon2_verify (u_password_hash user)
             (strip (currentPassword payload)) = VerifyOk
        /\ strip (newPassword payload) <> []
        /\ refresh_tokens db' = refresh_tokens db
        /\ users db'
           = map (password_set (u_id user)
                    (argon2_hash (strip (newPassword payload)) (salt env)))
                 (users db)
  | (inl _, db') => db' = db
  end.
Proof.
  unfold change_password, bind.
  pose proof (require_current_user_cases jwt_decode request db) as Hc.
  destruct (require_current_user jwt_decode request db) as [[e | user] db1].
  - apply Hc.
  - destruct Hc as [-> _].
    destruct (is_empty (strip (currentPassword payload))) eqn:E1; cbn [orb];
      [reflexivity |].
    destruct (is_empty (strip (newPassword payload))) eqn:E2; [reflexivity |].
    destruct (argon2_verify _ _) eqn:Ev; try reflexivity.
    exists user. apply is_empty_false in E2. repeat split; assumption.
Qed.

Lemma admin_register_cases (requested : str) (request : Request)
    (env : Entropy) (db : Database) :
  match admin_register jwt_decode argon2_hash requested request env db with
  | (inr (name, pass), db') =>
      name = strip requested /\ name <> [] /\ pass = new_password env
      /\ find (fun u => str_eqb (u_username u) name) (users db) = None
      /\ users db'
         = users db ++ [created_user_row argon2_hash name pass 0 0 env]
      /\ refresh_tokens db' = refresh_tokens db
      /\ exists admin,
          require_current_user jwt_decode request db = (inr admin, db)
          /\ u_is_admin admin <> 0%Z
  | (inl _, db') => db' = db
  end.
Proof.
  unfold admin_register, bind.
  pose proof (require_current_user_cases jwt_decode request db) as Hc.
  destruct (require_current_user jwt_decode request db) as [[e | admin] db1].
  - apply Hc.
  - destruct Hc as [-> _].
    unfold truthy. destruct (u_is_admin admin =? 0)%Z eqn:Ea; cbn [negb];
      [reflexivity |]. apply Z.eqb_neq in Ea.
    destruct (is_empty (strip requested)) eqn:En; [reflexivity |].
    apply is_empty_false in En.
    unfold get_user_by_username at 1.
    destruct (find _ (users db)) as [existing |] eqn:Ef; [reflexivity |].
    destruct (create_user_cases argon2_hash (strip requested)
                (new_password env) 0 0 env db) as [H | [_ H]]; rewrite H.
    + reflexivity.
    + cbn [created_user_row u_username users refresh_tokens].
      repeat split; try assumption. now exists admin.
Qed.

End PasswordFacts.

(** X21. At most one live session per user is an invariant: if no
    user has two unrevoked refresh tokens, none has after register, login,
    refresh, logout, change-password or admin-register, whether the route
    returns or raises. *)
Theorem account_routes_keep_one_session :
  forall (sha256_hex : str -> str) (jwt_encode : str -> Z -> Z -> str -> str)
         (jwt_decode : str -> JwtResult)
         (argon2_hash : str -> str -> str)
         (argon2_verify : str -> str -> VerifyResult)
         (ACCESS_TOKEN_TTL_MINUTES REFRESH_TOKEN_TTL_DAYS : Z)
         (request : Request) (env : Entropy) (db : Database),
    one_session db ->
    (forall payload,
        one_session
          (snd (register sha256_hex jwt_encode argon2_hash
                  ACCESS_TOKEN_TTL_MINUTES REFRESH_TOKEN_TTL_DAYS
                  payload request env db)))
    /\ (forall payload,
          one_session
            (snd (login sha256_hex jwt_encode argon2_verify
                    ACCESS_TOKEN_TTL_MINUTES REFRESH_TOKEN_TTL_DAYS
                    payload request env db)))
    /\ one_session
         (snd (refresh sha256_hex jwt_encode ACCESS_TOKEN_TTL_MINUTES
                 REFRESH_TOKEN_TTL_DAYS request env db))
    /\ one_session (snd (logout sha256_hex request env db))
    /\ (forall payload,
          one_session
            (snd (change_password jwt_decode argon2_hash argon2_verify
                    payload request env db)))
    /\ (forall requested,
          one_session
            (snd (admin_register jwt_decode argon2_hash requested request
                    env db))).
Proof.
  intros sha256_hex jwt_encode jwt_decode argon2_hash argon2_verify
         ttl_m ttl_d request env db Hone.
  split; [| split; [| split; [| split; [| split]]]].
  - intros payload.
    pose proof (register_cases sha256_hex jwt_encode argon2_hash ttl_m ttl_d
                  payload request env db) as H. cbv zeta in H.
    destruct (register _ _ _ _ _ payload request env db)
      as [[[code detail |] | resp] db']; cbn [snd].
    + destruct H as [-> _]. exact Hone.
    + destruct H as [H | [uid H]].
      * exact (one_session_same_tokens _ _ H Hone).
      * exact (one_session_after_revoke _ _ _ _ H Hone).
    + destruct H as (_ & _ & _ & _ & _ & H).
      exact (one_session_after_rotation _ _ _ _ _ _ _ _ H Hone).
  - intros payload.
    pose proof (login_cases sha256_hex jwt_encode argon2_verify ttl_m ttl_d
                  payload request env db) as H.
    destruct (login _ _ _ _ _ payload request env db)
      as [[[code detail |] | resp] db']; cbn [snd].
    + destruct H as [-> _]. exact Hone.
    + destruct H as [H | [uid H]].
      * exact (one_session_same_tokens _ _ H Hone).
      * exact (one_session_after_revoke _ _ _ _ H Hone).
    + destruct H as (user & _ & _ & _ & H).
      exact (one_session_after_rotation _ _ _ _ _ _ _ _ H Hone).
  - pose proof (refresh_cases sha256_hex jwt_encode ttl_m ttl_d request env db)
      as H.
    destruct (refresh _ _ _ _ request env db)
      as [[[code detail |] | resp] db']; cbn [snd].
    + destruct H as [-> _]. exact Hone.
    + destruct H as [_ [uid H]].
      exact (one_session_after_revoke _ _ _ _ H Hone).
    + destruct H as (raw & record & user & _ & _ & _ & _ & _ & _ & _ & _ & H).
      exact (one_session_after_rotation _ _ _ _ _ _ _ _ H Hone).
  - destruct (logout_cases sha256_hex request env db) as (db' & E & _ & H).
    rewrite E. cbn [snd].
    destruct (refresh_cookie request) as [[| c raw] |];
      [subst db'; exact Hone | | subst db'; exact Hone].
    destruct (find _ (refresh_tokens db)) as [record |];
      [| subst db'; exact Hone].
    exact (one_session_after_revoke _ _ _ _ H Hone).
  - intros payload.
    pose proof (change_password_cases jwt_decode argon2_hash argon2_verify
                  payload request env db) as H.
    destruct (change_password _ _ _ payload request env db)
      as [[e | u] db']; cbn [snd].
    + subst db'. exact Hone.
    + destruct H as (user & _ & _ & _ & H & _).
      exact (one_session_same_tokens _ _ H Hone).
  - intros requested.
    pose proof (admin_register_cases jwt_decode argon2_hash requested request
                  env db) as H.
    destruct (admin_register _ _ requested request env db)
      as [[e | [name pass]] db']; cbn [snd].
    + subst db'. exact Hone.
    + destruct H as (_ & _ & _ & _ & _ & H & _).
      exact (one_session_same_tokens _ _ H Hone).
Qed.

Lemma account_routes_keep_one_session_witness :
  one_session demo_db
  /\ one_session
       (snd (login demo_sha256 demo_jwt_encode demo_verify 15 30 alice_login
               bare_request (demo_entropy 5) demo_db))
  /\ one_session
       (snd (refresh demo_sha256 demo_jwt_encode 15 30
               (cookie_request (lit "t0")) (demo_entropy 5) demo_db)).
Proof.
  assert (H : one_session demo_db).
  { intros v. unfold demo_db. cbn [refresh_tokens filter].
    destruct (active_for v _); simpl; lia. }
  split; [exact H |].
  destruct (account_routes_keep_one_session demo_sha256 demo_jwt_encode
              demo_jwt_decode demo_hash demo_verify 15 30
              bare_request (demo_entropy 5) demo_db H)
    as (_ & Hl & _).
  destruct (account_routes_keep_one_session demo_sha256 demo_jwt_encode
              demo_jwt_decode demo_hash demo_verify 15 30
              (cookie_request (lit "t0")) (demo_entropy 5) demo_db H)
    as (_ & _ & Hr & _).
  split; [apply Hl | exact Hr].
Defined.

(** X23. An account created by [admin_register] must change its
    password: the login with the returned name and password that succeeds
    is a login to the new account, verified against the hash of the
    generated password, and reports [must_change_password] and no
    administrator rights. *)
Theorem admin_created_account_must_change_password :
  forall (sha256_hex : str -> str) (jwt_encode : str -> Z -> Z -> str -> str)
         (jwt_decode : str -> JwtResult)
         (argon2_hash : str -> str -> str)
         (argon2_verify : str -> str -> VerifyResult)
         (ACCESS_TOKEN_TTL_MINUTES REFRESH_TOKEN_TTL_DAYS : Z)
         (requested name pass : str) (request request2 : Request)
         (env env2 : Entropy) (db db1 db2 : Database) (resp : AuthResponse),
    admin_register jwt_decode argon2_hash requested request env db
    = (inr (name, pass), db1) ->
    login sha256_hex jwt_encode argon2_verify ACCESS_TOKEN_TTL_MINUTES
          REFRESH_TOKEN_TTL_DAYS
          {| username := name; password := pass |} request2 env2 db1
    = (inr resp, db2) ->
    ar_username resp = name
    /\ ar_id resp = new_user_id env
    /\ ar_must_change_password resp = true
    /\ ar_is_admin resp = false
    /\ argon2_verify (argon2_hash pass (salt env)) (strip pass) = VerifyOk.
Proof.
  intros sha256_hex jwt_encode jwt_decode argon2_hash argon2_verify
         ttl_m ttl_d requested name pass request request2 env env2
         db db1 db2 resp Ea El.
  pose proof (admin_register_cases jwt_decode argon2_hash requested request
                env db) as Ha.
  rewrite Ea in Ha.
  destruct Ha as (Hname & _ & _ & Hfree & Hu & _).
  pose proof (login_cases sha256_hex jwt_encode argon2_verify ttl_m ttl_d
                {| username := name; password := pass |} request2 env2 db1)
    as Hl.
  rewrite El in Hl. destruct Hl as (user & Hf & Hv & -> & _).
  cbn [username password] in Hf, Hv.
  assert (Hs : strip name = name) by (rewrite Hname; apply strip_idempotent).
  rewrite Hs, Hu, find_snoc, Hfree in Hf.
  cbn [created_user_row u_username] in Hf. rewrite str_eqb_refl in Hf.
  injection Hf as <-.
  cbn [auth_response created_user_row ar_username ar_id
       ar_must_change_password ar_is_admin u_username u_id u_is_admin
       u_password_changed u_password_hash] in *.
  repeat split. exact Hv.
Qed.

Lemma admin_created_account_must_change_password_witness :
  match admin_register demo_jwt_decode demo_hash (lit " carol ")
          (bearer_request (lit "u1")) (demo_entropy 5) demo_db with
  | (inr (name, pass), db1) =>
      match login demo_sha256 demo_jwt_encode demo_verify 15 30
              {| username := name; password := pass |} bare_request
              (demo_entropy 20) db1 with
      | (inr resp, _) =>
          ar_username resp = name
          /\ ar_id resp = lit "u2"
          /\ ar_must_change_password resp = true
          /\ ar_is_admin resp = false
      | (inl _, _) => False
      end
  | (inl _, _) => False
  end.
Proof.
  destruct (admin_register demo_jwt_decode demo_hash (lit " carol ")
              (bearer_request (lit "u1")) (demo_entropy 5) demo_db)
    as [[e | [name pass]] db1] eqn:Ea.
  - vm_compute in Ea. discriminate.
  - destruct (login demo_sha256 demo_jwt_encode demo_verify 15 30
                {| username := name; password := pass |} bare_request
                (demo_entropy 20) db1) as [[e | resp] db2] eqn:El.
    + vm_compute in Ea. injection Ea as <- <- <-.
      vm_compute in El. discriminate.
    + destruct (admin_created_account_must_change_password
                  demo_sha256 demo_jwt_encode demo_jwt_decode demo_hash
                  demo_verify 15 30 _ _ _ _ _ _ _ _ _ _ _ Ea El)
        as (Hn & Hid & Hm & Hadm & _).
      repeat split; assumption.
Defined.

(** X24. A password change succeeds only for an authenticated caller
    whose current password verifies; it leaves all refresh tokens as they
    are, and every later successful login to that account is verified
    against the hash of the new password and no longer reports
    [must_change_password]. *)
Theorem changed_password_takes_effect :
  forall (sha256_hex : str -> str) (jwt_encode : str -> Z -> Z -> str -> str)
         (jwt_decode : str -> JwtResult)
         (argon2_hash : str -> str -> str)
         (argon2_verify : str -> str -> VerifyResult)
         (ACCESS_TOKEN_TTL_MINUTES REFRESH_TOKEN_TTL_DAYS : Z)
         (payload : ChangePasswordRequest) (request request2 : Request)
         (env env2 : Entropy) (db db1 : Database) (u : unit),
    change_password jwt_decode argon2_hash argon2_verify payload request env db
    = (inr u, db1) ->
    exists caller,
      require_current_user jwt_decode request db = (inr caller, db)
      /\ argon2_verify (u_password_hash caller)
           (strip (currentPassword payload)) = VerifyOk
      /\ strip (newPassword payload) <> []
      /\ refresh_tokens db1 = refresh_tokens db
      /\ forall (login_payload : AuthRequest) (db2 : Database)
                (resp : AuthResponse),
          login sha256_hex jwt_encode argon2_verify ACCESS_TOKEN_TTL_MINUTES
                REFRESH_TOKEN_TTL_DAYS login_payload request2 env2 db1
          = (inr resp, db2) ->
          ar_id resp = u_id caller ->
          ar_must_change_password resp = false
          /\ argon2_verify
               (argon2_hash (strip (newPassword payload)) (salt env))
               (strip (password login_payload)) = VerifyOk.
Proof.
  intros sha256_hex jwt_encode jwt_decode argon2_hash argon2_verify
         ttl_m ttl_d payload request request2 env env2 db db1 u Ec.
  pose proof (change_password_cases jwt_decode argon2_hash argon2_verify
                payload request env db) as Hc.
  rewrite Ec in Hc. destruct Hc as (caller & Hreq & Hv & Hnew & Ht & Hu).
  exists caller. repeat (split; [assumption |]).
  intros login_payload db2 resp El Hid.
  pose proof (login_cases sha256_hex jwt_encode argon2_verify ttl_m ttl_d
                login_payload request2 env2 db1) as Hl.
  rewrite El in Hl. destruct Hl as (user & Hf & Hv2 & -> & _).
  cbn [auth_response ar_id ar_must_change_password] in *.
  apply find_some_row in Hf as [Hin _]. rewrite Hu in Hin.
  apply in_map_iff in Hin as (u0 & Hu0 & _). unfold password_set in Hu0.
  destruct (str_eqb (u_id u0) (u_id caller)) eqn:E.
  - subst user. cbn [u_password_changed u_password_hash] in *.
    split; [reflexivity | exact Hv2].
  - subst user. apply str_eqb_neq in E. contradiction.
Qed.

Lemma changed_password_takes_effect_witness :
  match change_password demo_jwt_decode demo_hash demo_verify
          {| currentPassword := lit "secret"; newPassword := lit " fresh " |}
          (bearer_request (lit "u1")) (demo_entropy 5) demo_db with
  | (inr _, db1) =>
      refresh_tokens db1 = refresh_tokens demo_db
      /\ match login demo_sha256 demo_jwt_encode demo_verify 15 30
                 {| username := lit "alice"; password := lit "fresh" |}
                 bare_request (demo_entropy 20) db1 with
         | (inr resp, _) => ar_must_change_password resp = false
         | (inl _, _) => False
         end
  | (inl _, _) => False
  end.
Proof.
  destruct (change_password demo_jwt_decode demo_hash demo_verify
              {| currentPassword := lit "secret";
                 newPassword := lit " fresh " |}
              (bearer_request (lit "u1")) (demo_entropy 5) demo_db)
    as [[e | u] db1] eqn:Ec.
  - vm_compute in Ec. discriminate.
  - destruct (changed_password_takes_effect demo_sha256 demo_jwt_encode
                demo_jwt_decode demo_hash demo_verify 15 30 _ _ bare_request
                _ (demo_entropy 20) _ _ _ Ec)
      as (caller & Hreq & _ & _ & Ht & Hlater).
    split; [exact Ht |].
    destruct (login demo_sha256 demo_jwt_encode demo_verify 15 30
                {| username := lit "alice"; password := lit "fresh" |}
                bare_request (demo_entropy 20) db1)
      as [[e | resp] db2] eqn:El.
    + vm_compute in Ec. injection Ec as <- <-.
      vm_compute in El. discriminate.
    + apply (Hlater _ _ _ El).
      vm_compute in Hreq. injection Hreq as <-.
      vm_compute in Ec. injection Ec as _ <-.
      vm_compute in El. injection El as <- _. reflexivity.
Defined.

(** ** Design guidance entries *)

Lemma existsb_str_eqb_In (s : str) (l : list str) :
  existsb (str_eqb s) l = true -> In s l.
Proof.
  intros H. apply existsb_exists in H as (x & Hin & Heq).
  apply str_eqb_eq in Heq. now subst x.
Qed.

Lemma has_id_absent (guidance_id : str) (table : list GuidanceRow) :
  existsb (has_id guidance_id) table = false ->
  ~ In guidance_id (map g_id table).
Proof.
  intros H Hin. apply in_map_iff in Hin as (row & Hid & Hrow).
  assert (existsb (has_id guidance_id) table = true) as Ht.
  { apply existsb_exists. exists row. split; [exact Hrow |].
    unfold has_id. now apply str_eqb_eq. }
  congruence.
Qed.

Lemma find_has_id_snoc (guidance_id : str) (table : list GuidanceRow)
    (row : GuidanceRow) :
  existsb (has_id guidance_id) table = false ->
  g_id row = guidance_id ->
  find (has_id guidance_id) (table ++ [row]) = Some row.
Proof.
  intros Hfree Hid. rewrite find_snoc.
  destruct (find (has_id guidance_id) table) as [r |] eqn:Ef.
  - apply find_some in Ef as [Hin Hr].
    assert (existsb (has_id guidance_id) table = true) as Ht
      by (apply existsb_exists; now exists r).
    congruence.
  - unfold has_id. rewrite Hid, str_eqb_refl. reflexivity.
Qed.

Lemma set_description_id (guidance_id user_id description : str)
    (row : GuidanceRow) :
  g_id (set_description guidance_id user_id description row) = g_id row.
Proof. unfold set_description. now destruct (owned_entry _ _ row). Qed.

Lemma set_description_ids (guidance_id user_id description : str)
    (table : list GuidanceRow) :
  map g_id (map (set_description guidance_id user_id description) table)
  = map g_id table.
Proof.
  rewrite map_map. apply map_ext. intros row. apply set_description_id.
Qed.

(** Deleting rows keeps the remaining ids pairwise different. *)
Lemma ids_unique_after_delete (keep : GuidanceRow -> bool) :
  forall table : list GuidanceRow,
    NoDup (map g_id table) -> NoDup (map g_id (filter keep table)).
Proof.
  intros table. induction table as [| row table IH]; cbn [filter map].
  - intros _. constructor.
  - intros Hnd. apply NoDup_cons_iff in Hnd as [Hfresh Hrest].
    destruct (keep row); cbn [map]; [| exact (IH Hrest)].
    apply NoDup_cons; [| exact (IH Hrest)].
    intros Hin. apply Hfresh. apply in_map_iff in Hin as (other & Hid & Hin).
    apply filter_In in Hin as [Hin _]. apply in_map_iff. now exists other.
Qed.

(** What the three routes do to the table, case by case. *)
Lemma create_design_guidance_cases (payload : DesignGuidanceCreateRequest)
    (user : UserRow) (guidance_id : str) (now : time)
    (table : list GuidanceRow) :
  let description := strip (cr_description payload) in
  let source :=
    lower (strip (if is_empty (cr_source payload) then lit "text"
                  else cr_source payload)) in
  let row := {| g_id := guidance_id; g_user_id := u_id user;
                g_description := description; g_source := source;
                g_created_at := now |} in
  match create_design_guidance payload user guidance_id now table with
  | (inr item, table') =>
      description <> [] /\ (length description <= 2000)%nat
      /\ In source guidance_sources
      /\ existsb (has_id guidance_id) table = false
      /\ item = guidance_item row /\ table' = table ++ [row]
  | (inl (HTTPException code _), table') => table' = table /\ code = 400%Z
  | (inl LibraryError, table') => table' = table
  end.
Proof.
  cbv zeta. unfold create_design_guidance.
  destruct (is_empty (strip (cr_description payload))) eqn:Ed;
    [now split |].
  destruct (2000 <? length (strip (cr_description payload)))%nat eqn:El;
    [now split |].
  destruct (existsb _ guidance_sources) eqn:Es; cbn [negb]; [| now split].
  destruct (existsb (has_id guidance_id) table) eqn:Ef; [reflexivity |].
  unfold selected_item. rewrite find_has_id_snoc by (assumption || reflexivity).
  apply is_empty_false in Ed. apply Nat.ltb_ge in El.
  apply existsb_str_eqb_In in Es. repeat split; assumption.
Qed.

Lemma find_owned_after_update (guidance_id user_id description : str)
    (table : list GuidanceRow) (row : GuidanceRow) :
  NoDup (map g_id table) ->
  find (owned_entry guidance_id user_id) table = Some row ->
  find (has_id guidance_id)
       (map (set_description guidance_id user_id description) table)
  = Some (set_description guidance_id user_id description row).
Proof.
  induction table as [| a table IH]; simpl; [discriminate |].
  intros Hnd Hf. inversion Hnd as [| x xs Hnotin Hrest]; subst.
  destruct (owned_entry guidance_id user_id a) eqn:Ea.
  - injection Hf as <-. unfold has_id. rewrite set_description_id.
    apply andb_prop in Ea as [Ea _]. now rewrite Ea.
  - unfold has_id at 1. rewrite set_description_id.
    destruct (str_eqb (g_id a) guidance_id) eqn:Eid; [| now apply IH].
    exfalso. apply Hnotin. apply str_eqb_eq in Eid. rewrite Eid.
    apply find_some in Hf as [Hin Hr]. apply andb_prop in Hr as [Hr _].
    apply str_eqb_eq in Hr. apply in_map_iff. now exists row.
Qed.

Lemma update_design_guidance_cases (guidance_id : str)
    (payload : DesignGuidanceUpdateRequest) (user : UserRow)
    (table : list GuidanceRow) :
  let description := strip (ur_description payload) in
  match update_design_guidance guidance_id payload user table with
  | (inr _, table') | (inl LibraryError, table') =>
      description <> [] /\ (length description <= 2000)%nat
      /\ (exists row,
            find (owned_entry guidance_id (u_id user)) table = Some row)
      /\ table'
         = map (set_description guidance_id (u_id user) description) table
  | (inl (HTTPException code _), table') =>
      table' = table
      /\ (code = 400%Z
          \/ code = 404%Z
             /\ find (owned_entry guidance_id (u_id user)) table = None)
  end.
Proof.
  cbv zeta. unfold update_design_guidance.
  destruct (is_empty (strip (ur_description payload))) eqn:Ed;
    [split; auto |].
  destruct (2000 <? length (strip (ur_description payload)))%nat eqn:El;
    [split; auto |].
  destruct (find (owned_entry guidance_id (u_id user)) table) as [row |] eqn:Ef;
    [| split; auto].
  apply is_empty_false in Ed. apply Nat.ltb_ge in El.
  unfold selected_item.
  destruct (find (has_id guidance_id) _);
    (split; [exact Ed |]; split; [exact El |]; split;
     [now exists row | reflexivity]).
Qed.

Lemma guidance_ok_set_description (guidance_id user_id raw : str)
    (row : GuidanceRow) :
  strip raw <> [] -> (length (strip raw) <= 2000)%nat ->
  guidance_ok row ->
  guidance_ok (set_description guidance_id user_id (strip raw) row).
Proof.
  intros Hne Hlen Hok. unfold set_description.
  destruct (owned_entry guidance_id user_id row); [| exact Hok].
  destruct Hok as (_ & _ & _ & Hs).
  repeat split; cbn [g_description g_source]; try assumption.
  apply strip_idempotent.
Qed.

Lemma filter_map_fixed {A} (p : A -> bool) (f : A -> A) (l : list A) :
  (forall a, p (f a) = p a) -> (forall a, p a = true -> f a = a) ->
  filter p (map f l) = filter p l.
Proof.
  intros Hp Hf. induction l as [| a l IH]; [reflexivity |].
  cbn [map filter]. rewrite Hp. destruct (p a) eqn:E; [| exact IH].
  now rewrite (Hf a E), IH.
Qed.

Lemma filter_filter_weaker {A} (p q : A -> bool) (l : list A) :
  (forall a, p a = true -> q a = true) ->
  filter p (filter q l) = filter p l.
Proof.
  intros H. induction l as [| a l IH]; [reflexivity |].
  cbn [filter]. destruct (q a) eqn:Eq.
  - cbn [filter]. now rewrite IH.
  - destruct (p a) eqn:Ep; [| exact IH].
    rewrite (H a Ep) in Eq. discriminate.
Qed.

Lemma foreign_not_owned (user : UserRow) (guidance_id : str)
    (row : GuidanceRow) :
  foreign_to user row = true ->
  owned_entry guidance_id (u_id user) row = false.
Proof.
  unfold foreign_to, owned_entry. intros H. apply negb_true_iff in H.
  rewrite H. apply andb_false_r.
Qed.

Lemma filter_foreign_set_description (user : UserRow)
    (guidance_id description : str) (table : list GuidanceRow) :
  filter (foreign_to user)
    (map (set_description guidance_id (u_id user) description) table)
  = filter (foreign_to user) table.
Proof.
  apply filter_map_fixed.
  - intros a. unfold set_description.
    now destruct (owned_entry guidance_id (u_id user) a).
  - intros a Ha. unfold set_description.
    now rewrite (foreign_not_owned user guidance_id a Ha).
Qed.

Lemma filter_foreign_delete (user : UserRow) (guidance_id : str)
    (table : list GuidanceRow) :
  filter (foreign_to user)
    (filter (fun row => negb (owned_entry guidance_id (u_id user) row)) table)
  = filter (foreign_to user) table.
Proof.
  apply filter_filter_weaker. intros a Ha.
  now rewrite (foreign_not_owned user guidance_id a Ha).
Qed.

Lemma demo_guidance_ids : NoDup (map g_id demo_guidance).
Proof.
  repeat constructor; vm_compute; intuition discriminate.
Qed.

Lemma demo_guidance_ok : Forall guidance_ok demo_guidance.
Proof.
  unfold demo_guidance.
  repeat (apply Forall_cons;
          [split; [| split; [| split]];
           [vm_compute; discriminate | reflexivity
            | apply Nat.leb_le; reflexivity | vm_compute; auto] |]).
  apply Forall_nil.
Qed.

(** X25. The three writing routes keep the table well formed: if the
    ids are pairwise different and every entry has a stripped, non-empty
    description of at most 2000 characters and one of the sources text,
    pdf and import, the same holds after create, update and delete,
    whether the route returns or raises. *)
Theorem guidance_entries_stay_valid :
  forall (table : list GuidanceRow) (user : UserRow) (guidance_id : str)
         (now : time) (created : DesignGuidanceCreateRequest)
         (updated : DesignGuidanceUpdateRequest),
    NoDup (map g_id table) -> Forall guidance_ok table ->
    (NoDup (map g_id
              (snd (create_design_guidance created user guidance_id now table)))
     /\ Forall guidance_ok
          (snd (create_design_guidance created user guidance_id now table)))
    /\ (NoDup (map g_id
                 (snd (update_design_guidance guidance_id updated user table)))
        /\ Forall guidance_ok
             (snd (update_design_guidance guidance_id updated user table)))
    /\ (NoDup (map g_id (snd (delete_design_guidance guidance_id user table)))
        /\ Forall guidance_ok
             (snd (delete_design_guidance guidance_id user table))).
Proof.
  intros table user guidance_id now created updated Hnd Hok.
  split; [| split].
  - pose proof (create_design_guidance_cases created user guidance_id now
                  table) as H. cbv zeta in H.
    destruct (create_design_guidance created user guidance_id now table)
      as [[[code detail |] | item] table']; cbn [snd].
    + destruct H as [-> _]. now split.
    + subst table'. now split.
    + destruct H as (Hne & Hlen & Hs & Hfree & _ & ->). split.
      * rewrite map_app. cbn [map g_id].
        apply NoDup_app; [exact Hnd | repeat constructor; intros [] |].
        intros x Hx [<- | []]. now apply (has_id_absent _ _ Hfree).
      * apply Forall_app. split; [exact Hok |].
        constructor; [| constructor].
        repeat split; cbn [g_description g_source]; try assumption.
        apply strip_idempotent.
  - pose proof (update_design_guidance_cases guidance_id updated user table)
      as H. cbv zeta in H.
    assert (Hmap : forall table',
      strip (ur_description updated) <> [] /\
      (length (strip (ur_description updated)) <= 2000)%nat /\
      (exists row,
         find (owned_entry guidance_id (u_id user)) table = Some row) /\
      table' = map (set_description guidance_id (u_id user)
                      (strip (ur_description updated))) table ->
      NoDup (map g_id table') /\ Forall guidance_ok table').
    { intros table' (Hne & Hlen & _ & ->). split.
      - now rewrite set_description_ids.
      - apply Forall_forall. intros r Hr.
        apply in_map_iff in Hr as (r0 & <- & Hr0).
        apply guidance_ok_set_description; try assumption.
        now apply (proj1 (Forall_forall _ _) Hok). }
    destruct (update_design_guidance guidance_id updated user table)
      as [[[code detail |] | item] table']; cbn [snd].
    + destruct H as [-> _]. now split.
    + now apply Hmap.
    + now apply Hmap.
  - unfold delete_design_guidance.
    destruct (find _ table); cbn [snd]; [| now split].
    split; [now apply ids_unique_after_delete |].
    apply Forall_forall. intros r Hr. apply filter_In in Hr as [Hr _].
    now apply (proj1 (Forall_forall _ _) Hok).
Qed.

Lemma guidance_entries_stay_valid_witness :
  Forall guidance_ok demo_guidance
  /\ Forall guidance_ok
       (snd (create_design_guidance
               {| cr_description := lit "  Bold headings "; cr_source := [] |}
               alice (lit "g3") 3%Z demo_guidance))
  /\ NoDup (map g_id
              (snd (update_design_guidance (lit "g1")
                      {| ur_description := lit " Cool colours " |} alice
                      demo_guidance))).
Proof.
  pose proof demo_guidance_ids as Hnd. pose proof demo_guidance_ok as Hok.
  split; [exact Hok |].
  destruct (guidance_entries_stay_valid demo_guidance alice (lit "g3") 3%Z
              {| cr_description := lit "  Bold headings "; cr_source := [] |}
              {| ur_description := lit " Cool colours " |} Hnd Hok)
    as [[_ Hc] _].
  destruct (guidance_entries_stay_valid demo_guidance alice (lit "g1") 3%Z
              {| cr_description := lit "  Bold headings "; cr_source := [] |}
              {| ur_description := lit " Cool colours " |} Hnd Hok)
    as (_ & [Hu _] & _).
  split; [exact Hc | exact Hu].
Defined.

(** X26. No route writes to another user's entries: the rows that do
    not belong to the caller are the same, in the same order, after create,
    update and delete, whatever id is named and whether the route returns
    or raises. *)
Theorem guidance_routes_respect_ownership :
  forall (table : list GuidanceRow) (user : UserRow) (guidance_id : str)
         (now : time) (created : DesignGuidanceCreateRequest)
         (updated : DesignGuidanceUpdateRequest),
    filter (foreign_to user)
      (snd (create_design_guidance created user guidance_id now table))
    = filter (foreign_to user) table
    /\ filter (foreign_to user)
         (snd (update_design_guidance guidance_id updated user table))
       = filter (foreign_to user) table
    /\ filter (foreign_to user)
         (snd (delete_design_guidance guidance_id user table))
       = filter (foreign_to user) table.
Proof.
  intros table user guidance_id now created updated. split; [| split].
  - pose proof (create_design_guidance_cases created user guidance_id now
                  table) as H. cbv zeta in H.
    destruct (create_design_guidance created user guidance_id now table)
      as [[[code detail |] | item] table']; cbn [snd].
    + now destruct H as [-> _].
    + now subst table'.
    + destruct H as (_ & _ & _ & _ & _ & ->).
      rewrite filter_app. cbn [filter]. unfold foreign_to at 2.
      cbn [g_user_id]. rewrite str_eqb_refl. cbn [negb]. apply app_nil_r.
  - pose proof (update_design_guidance_cases guidance_id updated user table)
      as H. cbv zeta in H.
    destruct (update_design_guidance guidance_id updated user table)
      as [[[code detail |] | item] table']; cbn [snd].
    + now destruct H as [-> _].
    + destruct H as (_ & _ & _ & ->). apply filter_foreign_set_description.
    + destruct H as (_ & _ & _ & ->). apply filter_foreign_set_description.
  - unfold delete_design_guidance.
    destruct (find _ table); cbn [snd]; [| reflexivity].
    apply filter_foreign_delete.
Qed.

(** X27. With pairwise different ids, a successful update answers with
    the entry as it is now stored: the named id, the stripped new
    description, and the source and creation time the entry had; the entry
    belonged to the caller, the table keeps its length, and every entry
    with another id is still there. *)
Theorem guidance_update_returns_stored_entry :
  forall (table table' : list GuidanceRow) (user : UserRow)
         (guidance_id : str) (payload : DesignGuidanceUpdateRequest)
         (item : GuidanceItem),
    NoDup (map g_id table) ->
    update_design_guidance guidance_id payload user table
    = (inr item, table') ->
    exists row,
      In row table /\ g_id row = guidance_id /\ g_user_id row = u_id user
      /\ item = {| gi_id := guidance_id;
                   gi_description := strip (ur_description payload);
                   gi_source := g_source row;
                   gi_created_at := g_created_at row |}
      /\ In {| g_id := guidance_id; g_user_id := u_id user;
               g_description := strip (ur_description payload);
               g_source := g_source row;
               g_created_at := g_created_at row |} table'
      /\ length table' = length table
      /\ (forall other, In other table -> g_id other <> guidance_id ->
                        In other table').
Proof.
  intros table table' user guidance_id payload item Hnd E.
  pose proof (update_design_guidance_cases guidance_id payload user table)
    as H. cbv zeta in H. rewrite E in H.
  destruct H as (_ & _ & (row & Hf) & Ht).
  pose proof (find_owned_after_update guidance_id (u_id user)
                (strip (ur_description payload)) table row Hnd Hf) as Hsel.
  unfold update_design_guidance in E.
  destruct (is_empty (strip (ur_description payload))); [discriminate |].
  destruct (2000 <? length (strip (ur_description payload)))%nat;
    [discriminate |].
  rewrite Hf in E. unfold selected_item in E. rewrite Hsel in E.
  injection E as <- _.
  pose proof (find_some _ _ Hf) as [Hin Hown].
  unfold set_description in *.
  assert (Hrow : set_description guidance_id (u_id user)
                   (strip (ur_description payload)) row
                 = {| g_id := guidance_id; g_user_id := u_id user;
                      g_description := strip (ur_description payload);
                      g_source := g_source row;
                      g_created_at := g_created_at row |}).
  { unfold set_description. rewrite Hown.
    apply andb_prop in Hown as [Hi Hu].
    apply str_eqb_eq in Hi, Hu. now rewrite Hi, Hu. }
  apply andb_prop in Hown as [Hi Hu]. apply str_eqb_eq in Hi, Hu.
  exists row. split; [exact Hin |]. split; [exact Hi |]. split; [exact Hu |].
  split.
  { fold (set_description guidance_id (u_id user)
            (strip (ur_description payload)) row). now rewrite Hrow. }
  split.
  { rewrite Ht, <- Hrow. now apply in_map. }
  split; [rewrite Ht; apply length_map |].
  intros other Hother Hne. rewrite Ht. apply in_map_iff. exists other.
  split; [| exact Hother].
  unfold set_description, owned_entry.
  apply str_eqb_neq in Hne. now rewrite Hne.
Qed.

Lemma guidance_update_returns_stored_entry_witness :
  match update_design_guidance (lit "g1")
          {| ur_description := lit " Cool colours " |} alice demo_guidance
  with
  | (inr item, table') =>
      gi_description item = lit "Cool colours"
      /\ gi_source item = lit "text"
      /\ length table' = 2%nat
  | (inl _, _) => False
  end.
Proof.
  destruct (update_design_guidance (lit "g1")
              {| ur_description := lit " Cool colours " |} alice
              demo_guidance) as [[e | item] table'] eqn:E.
  - vm_compute in E. discriminate.
  - destruct (guidance_update_returns_stored_entry _ _ _ _ _ _
                demo_guidance_ids E)
      as (row & Hin & Hid & _ & -> & _ & Hlen & _).
    destruct Hin as [<- | [<- | []]]; [| discriminate Hid].
    split; [reflexivity |]. split; [reflexivity | exact Hlen].
Defined.

(** X28. A deleted entry is gone for its owner: after a successful
    delete no row of the caller carries that id, every other row is kept,
    a second delete answers 404 and every update of that id is refused with
    400 or 404, none of them writing; with pairwise different ids exactly
    one row was removed. *)
Theorem deleted_guidance_is_gone :
  forall (table table' : list GuidanceRow) (user : UserRow)
         (guidance_id : str),
    delete_design_guidance guidance_id user table = (inr tt, table') ->
    (forall row, In row table' <->
                 In row table
                 /\ owned_entry guidance_id (u_id user) row = false)
    /\ delete_design_guidance guidance_id user table'
       = (inl (HTTPException 404 (lit "Design guidance not found")), table')
    /\ (forall payload,
          exists code detail,
            update_design_guidance guidance_id payload user table'
            = (inl (HTTPException code detail), table')
            /\ (code = 400 \/ code = 404)%Z)
    /\ (NoDup (map g_id table) -> length table = S (length table')).
Proof.
  intros table table' user guidance_id E. unfold delete_design_guidance in E.
  destruct (find (owned_entry guidance_id (u_id user)) table) as [row |] eqn:Ef;
    [| discriminate].
  injection E as <-.
  set (keep := fun row => negb (owned_entry guidance_id (u_id user) row)).
  assert (Hgone : find (owned_entry guidance_id (u_id user))
                    (filter keep table) = None).
  { destruct (find _ (filter keep table)) as [r |] eqn:Er; [| reflexivity].
    apply find_some in Er as [Hin Hr]. apply filter_In in Hin as [_ Hk].
    unfold keep in Hk. rewrite Hr in Hk. discriminate. }
  split; [| split; [| split]].
  - intros r. rewrite filter_In. unfold keep. rewrite negb_true_iff.
    reflexivity.
  - unfold delete_design_guidance. now rewrite Hgone.
  - intros payload. unfold update_design_guidance.
    destruct (is_empty _); [eexists _, _; split; [reflexivity | now left] |].
    destruct (_ <? _)%nat; [eexists _, _; split; [reflexivity | now left] |].
    rewrite Hgone. eexists _, _. split; [reflexivity | now right].
  - intros Hnd. clear Hgone. revert row Ef.
    induction table as [| a table IH]; intros row Ef; [discriminate |].
    cbn [find] in Ef. cbn [filter]. unfold keep at 1.
    cbn [map] in Hnd. inversion Hnd as [| x xs Hnotin Hrest]; subst.
    destruct (owned_entry guidance_id (u_id user) a) eqn:Ea.
    + cbn [negb length]. f_equal.
      assert (Hall : forall r, In r table -> keep r = true).
      { intros r Hr. unfold keep, owned_entry.
        destruct (str_eqb (g_id r) guidance_id) eqn:Er; [| reflexivity].
        exfalso. apply Hnotin. apply andb_prop in Ea as [Ea _].
        apply str_eqb_eq in Ea, Er. rewrite Ea, <- Er. now apply in_map. }
      clear -Hall. induction table as [| b table IH]; [reflexivity |].
      cbn [filter]. rewrite (Hall b (or_introl eq_refl)). cbn [length].
      f_equal. apply IH. intros r Hr. apply Hall. now right.
    + cbn [negb length]. f_equal. now apply (IH Hrest row).
Qed.

Lemma deleted_guidance_is_gone_witness :
  match delete_design_guidance (lit "g1") alice demo_guidance with
  | (inr _, table') =>
      length demo_guidance = S (length table')
      /\ delete_design_guidance (lit "g1") alice table'
         = (inl (HTTPException 404 (lit "Design guidance not found")), table')
  | (inl _, _) => False
  end.
Proof.
  destruct (delete_design_guidance (lit "g1") alice demo_guidance)
    as [[e | []] table'] eqn:E.
  - vm_compute in E. discriminate.
  - destruct (deleted_guidance_is_gone _ _ _ _ E) as (_ & Hagain & _ & Hlen).
    split; [exact (Hlen demo_guidance_ids) | exact Hagain].
Defined.

(** ** The chat proxy and the background worker *)

Lemma bearer_value_shape (key : str) :
  bearer_value key = []
  \/ startswith (lower (bearer_value key)) (lit "bearer ") = true.
Proof.
  unfold bearer_value.
  destruct (strip key) as [| c r] eqn:E; [now left |].
  cbn [is_empty negb andb].
  destruct (startswith (lower (c :: r)) (lit "bearer ")) eqn:Es;
    cbn [negb]; right; [exact Es | reflexivity].
Qed.

Section ChatFacts.

Variable post : nat -> PostOutcome.

(** The loop run from its start: one or two calls, the second only after
    a read timeout of the first. *)
Lemma post_loop_cases (call : PostCall) :
  match post_loop post call (seq 1 attempts)
          {| ls_response := None; ls_last_exc := None |} [] with
  | (result, calls) =>
      Forall (eq call) calls
      /\ (is_read_timeout (post 0%nat) = false /\ calls = [call]
          \/ is_read_timeout (post 0%nat) = true /\ calls = [call; call])
      /\ match result with
         | inl message => post (length calls - 1)%nat = OtherException message
         | inr state =>
             match ls_last_exc state with
             | Some message =>
                 post (length calls - 1)%nat = ReadTimeout message
                 \/ post (length calls - 1)%nat = RequestError message
             | None =>
                 exists response,
                   ls_response state = Some response
                   /\ post (length calls - 1)%nat = Responded response
             end
         end
  end.
Proof.
  cbn [seq attempts post_loop length app].
  destruct (post 0%nat) as [r | m | m | m] eqn:E0; cbn [is_read_timeout].
  - split; [repeat constructor |]. split; [now left |].
    cbn [ls_last_exc ls_response length Nat.sub]. now exists r.
  - destruct (post 1%nat) as [r | m1 | m1 | m1] eqn:E1;
      (split; [repeat constructor |]); (split; [now right |]);
      cbn [ls_last_exc ls_response length Nat.sub]; auto.
    now exists r.
  - split; [repeat constructor |]. split; [now left |].
    cbn [ls_last_exc ls_response length Nat.sub]. now right.
  - split; [repeat constructor |]. split; [now left |].
    cbn [length Nat.sub]. exact E0.
Qed.

End ChatFacts.

(** X29. The chat proxy calls the upstream API at most twice and a
    second time only when the first call ran into a read timeout; without
    a key it does not call at all and answers 500.  Every call carries the
    same Authorization value, which is empty or begins with "bearer " in
    some capitalisation.  The answer is 502 exactly when the last call made
    timed out or failed as a request error; otherwise the upstream status
    is passed on when it is 400 or more and replaced by 200 when it is
    less, with the parsed body or, when the body is not JSON, its text
    under "error". *)
Theorem chat_proxy_retry_and_status :
  forall (POLO_API_KEY : str) (post : nat -> PostOutcome) (payload : Json),
    let call := {| call_authorization := bearer_value POLO_API_KEY;
                   call_json := payload |} in
    let last calls := post (length calls - 1)%nat in
    match ai_chat POLO_API_KEY post payload with
    | (answer, calls) =>
        Forall (eq call) calls
        /\ (call_authorization call = []
            \/ startswith (lower (call_authorization call)) (lit "bearer ")
               = true)
        /\ (calls = [] /\ POLO_API_KEY = []
            \/ calls = [call] /\ POLO_API_KEY <> []
               /\ is_read_timeout (post 0%nat) = false
            \/ calls = [call; call] /\ POLO_API_KEY <> []
               /\ is_read_timeout (post 0%nat) = true)
        /\ match answer with
           | inl (HTTPException code _) =>
               code = 500%Z /\ calls = []
               \/ code = 502%Z /\ transport_failed (last calls)
           | inl LibraryError =>
               exists message, last calls = OtherException message
           | inr reply =>
               exists response,
                 last calls = Responded response
                 /\ jr_content reply = response_data response
                 /\ jr_status_code reply
                    = (if (400 <=? resp_status_code response)%Z
                       then resp_status_code response else 200%Z)
           end
    end.
Proof.
  intros key post payload call last. unfold ai_chat.
  destruct (is_empty key) eqn:Ek.
  - apply is_empty_true in Ek. split; [constructor |].
    split; [apply bearer_value_shape |]. split; [now left |]. now left.
  - apply is_empty_false in Ek. fold call.
    pose proof (post_loop_cases post call) as H.
    destruct (post_loop post call (seq 1 attempts) _ [])
      as [[message | state] calls].
    + destruct H as (Hall & Hn & Hlast).
      split; [exact Hall |]. split; [apply bearer_value_shape |].
      split; [right; destruct Hn as [[H0 ->] | [H0 ->]]; auto |].
      now exists message.
    + destruct H as (Hall & Hn & Hlast).
      assert (Hcalls :
        calls = [] /\ key = []
        \/ calls = [call] /\ key <> [] /\ is_read_timeout (post 0%nat) = false
        \/ calls = [call; call] /\ key <> []
           /\ is_read_timeout (post 0%nat) = true)
        by (right; destruct Hn as [[H0 ->] | [H0 ->]]; auto).
      destruct (ls_last_exc state) as [message |].
      * split; [exact Hall |]. split; [apply bearer_value_shape |].
        split; [exact Hcalls |]. right. split; [reflexivity |].
        unfold last. destruct Hlast as [-> | ->]; exact I.
      * destruct Hlast as (response & -> & Hlast).
        destruct (400 <=? resp_status_code response)%Z eqn:Es;
          (split; [exact Hall |]; split; [apply bearer_value_shape |];
           split; [exact Hcalls |]; exists response;
           cbn [jr_content jr_status_code]; rewrite ?Es; auto).
Qed.

Lemma chat_proxy_retry_and_status_witness :
  match ai_chat (lit " sk-1 ") (slow_upstream 201) (JString (lit "hi")) with
  | (inr reply, calls) =>
      jr_status_code reply = 200%Z
      /\ length calls = 2%nat
      /\ Forall (fun c => call_authorization c = lit "Bearer sk-1") calls
  | (inl _, _) => False
  end.
Proof.
  pose proof (chat_proxy_retry_and_status (lit " sk-1 ") (slow_upstream 201)
                (JString (lit "hi"))) as H.
  cbv zeta in H.
  destruct (ai_chat (lit " sk-1 ") (slow_upstream 201) (JString (lit "hi")))
    as [[e | reply] calls] eqn:E.
  - vm_compute in E. discriminate.
  - destruct H as (Hall & _ & Hn & response & Hlast & _ & Hs).
    destruct Hn as [[-> _] | [(-> & _ & Hn) | (-> & _ & _)]].
    + vm_compute in E. discriminate.
    + discriminate Hn.
    + cbn [length Nat.sub slow_upstream] in Hlast. injection Hlast as <-.
      split; [exact Hs |]. split; [reflexivity |].
      eapply Forall_impl; [| exact Hall].
      intros c <-. reflexivity.
Defined.

Section WorkerFacts.

Variable POLO_API_KEY : str.
Variable post : nat -> PostOutcome.
Variable json_loads : str -> str + Json.
Variable json_dumps : Json -> str.
Variable str_of_int : Z -> str.

Local Abbreviation run := (run_task POLO_API_KEY post json_loads json_dumps
                             str_of_int).

(** The worker's calls, and what a stored result stands for. *)
Lemma run_task_cases (task : TaskRow) :
  (length (snd (run task)) <= 2)%nat
  /\ (forall data,
        fst (run task) = inr data ->
        POLO_API_KEY <> []
        /\ exists payload response,
            json_loads (t_payload task) = inr payload
            /\ Forall (eq {| call_authorization := bearer_value POLO_API_KEY;
                             call_json := payload |}) (snd (run task))
            /\ post (length (snd (run task)) - 1)%nat = Responded response
            /\ (resp_status_code response < 400)%Z
            /\ data = response_data response).
Proof.
  unfold run_task.
  destruct (json_loads (t_payload task)) as [message | payload];
    [split; [cbn; lia | discriminate] |].
  destruct (is_empty POLO_API_KEY) eqn:Ek;
    [split; [cbn; lia | discriminate] |].
  apply is_empty_false in Ek.
  pose proof (post_loop_cases post
                {| call_authorization := bearer_value POLO_API_KEY;
                   call_json := payload |}) as H.
  destruct (post_loop post _ (seq 1 attempts) _ [])
    as [[message | state] calls].
  - destruct H as (_ & Hn & _).
    split; [destruct Hn as [[_ ->] | [_ ->]]; cbn; lia | discriminate].
  - destruct H as (Hall & Hn & Hlast).
    assert (Hlen : (length calls <= 2)%nat)
      by (destruct Hn as [[_ ->] | [_ ->]]; cbn; lia).
    destruct (ls_last_exc state) as [message |];
      [split; [exact Hlen | discriminate] |].
    destruct Hlast as (response & -> & Hlast).
    destruct (400 <=? resp_status_code response)%Z eqn:Es; cbn [fst snd];
      (split; [exact Hlen |]); [discriminate |].
    intros data Hd. injection Hd as <-. split; [exact Ek |].
    exists payload, response. apply Z.leb_gt in Es. auto.
Qed.

End WorkerFacts.

Lemma finished_completed (task_id result : str) (now_started now : time)
    (t : TaskRow) :
  t_id t = task_id ->
  finished now_started now
    (set_completed task_id result now (set_running task_id now_started t)).
Proof.
  intros Hid. unfold set_completed, set_running, has_task_id.
  rewrite Hid, str_eqb_refl. cbn [t_id]. rewrite str_eqb_refl.
  repeat split. left. split; [reflexivity | discriminate].
Qed.

Lemma finished_error (task_id error : str) (now_started now : time)
    (t : TaskRow) :
  t_id t = task_id ->
  finished now_started now
    (set_error task_id error now (set_running task_id now_started t)).
Proof.
  intros Hid. unfold set_error, set_running, has_task_id.
  rewrite Hid, str_eqb_refl. cbn [t_id]. rewrite str_eqb_refl.
  repeat split. right. split; [reflexivity | discriminate].
Qed.

Lemma set_running_id (task_id : str) (now : time) (t : TaskRow) :
  t_id (set_running task_id now t) = t_id t.
Proof. unfold set_running. now destruct (has_task_id task_id t). Qed.

(** X30. The background worker never leaves a task running.  For a
    task id that is stored, when the worker is done the task is marked
    completed with a result or error with a message, and carries both its
    start and its completion time; it is completed only when a key is set,
    the stored payload parsed, and the last of at most two upstream calls
    was answered with a status below 400, whose data is the stored result.
    Every other task is as it was; for an id that is not stored nothing is
    written and no call is made. *)
Theorem worker_finishes_task :
  forall (POLO_API_KEY : str) (post : nat -> PostOutcome)
         (json_loads : str -> str + Json) (json_dumps : Json -> str)
         (str_of_int : Z -> str) (task_id : str)
         (now_started now_completed : time) (tasks : list TaskRow),
    match execute_ai_task POLO_API_KEY post json_loads json_dumps str_of_int
            task_id now_started now_completed tasks with
    | (tasks', calls) =>
        (length calls <= 2)%nat
        /\ map t_id tasks' = map t_id tasks
        /\ filter (fun t => negb (has_task_id task_id t)) tasks'
           = filter (fun t => negb (has_task_id task_id t)) tasks
        /\ (forall t, In t tasks' -> t_id t = task_id ->
                      finished now_started now_completed t)
        /\ (forall t, In t tasks' -> t_id t = task_id ->
                      t_status t = lit "completed" ->
                      POLO_API_KEY <> []
                      /\ exists response,
                          post (length calls - 1)%nat = Responded response
                          /\ (resp_status_code response < 400)%Z
                          /\ t_result t
                             = Some (json_dumps (response_data response)))
        /\ (find (has_task_id task_id) tasks = None ->
            tasks' = tasks /\ calls = [])
    end.
Proof.
  intros key post json_loads json_dumps str_of_int task_id now1 now2 tasks.
  unfold execute_ai_task.
  destruct (find (has_task_id task_id) tasks) as [task |] eqn:Ef.
  - pose proof (run_task_cases key post json_loads json_dumps str_of_int task)
      as [Hlen Hdata].
    destruct (run_task key post json_loads json_dumps str_of_int task)
      as [[message | data] calls]; cbn [fst snd] in *.
    + split; [exact Hlen |]. split.
      { rewrite !map_map. apply map_ext. intros t.
        unfold set_error, set_running.
        destruct (has_task_id task_id t) eqn:Et; cbn [t_id];
          unfold has_task_id in *; cbn [t_id]; rewrite Et; reflexivity. }
      split.
      { rewrite map_map. apply filter_map_fixed.
        - intros t. unfold set_error, set_running, has_task_id.
          destruct (str_eqb (t_id t) task_id) eqn:Et; cbn [t_id];
            rewrite Et; cbn [t_id]; now rewrite Et.
        - intros t Ht. apply negb_true_iff in Ht.
          unfold set_error, set_running. rewrite Ht. now rewrite Ht. }
      split.
      { intros t Hin Hid. rewrite map_map in Hin.
        apply in_map_iff in Hin as (t0 & <- & _).
        apply finished_error.
        unfold set_error in Hid. rewrite <- (set_running_id task_id now1 t0).
        now destruct (has_task_id task_id (set_running task_id now1 t0)). }
      split; [| discriminate].
      intros t Hin Hid Hs. exfalso. rewrite map_map in Hin.
      apply in_map_iff in Hin as (t0 & <- & _).
      assert (Hid0 : has_task_id task_id (set_running task_id now1 t0) = true).
      { unfold has_task_id. apply str_eqb_eq.
        unfold set_error in Hid.
        now destruct (has_task_id task_id (set_running task_id now1 t0)). }
      unfold set_error in Hs. rewrite Hid0 in Hs. cbn [t_status] in Hs.
      vm_compute in Hs. discriminate.
    + destruct (Hdata data eq_refl)
        as (Hk & payload & response & _ & _ & Hlast & Hstatus & ->).
      split; [exact Hlen |]. split.
      { rewrite !map_map. apply map_ext. intros t.
        unfold set_completed, set_running.
        destruct (has_task_id task_id t) eqn:Et; cbn [t_id];
          unfold has_task_id in *; cbn [t_id]; rewrite Et; reflexivity. }
      split.
      { rewrite map_map. apply filter_map_fixed.
        - intros t. unfold set_completed, set_running, has_task_id.
          destruct (str_eqb (t_id t) task_id) eqn:Et; cbn [t_id];
            rewrite Et; cbn [t_id]; now rewrite Et.
        - intros t Ht. apply negb_true_iff in Ht.
          unfold set_completed, set_running. rewrite Ht. now rewrite Ht. }
      split.
      { intros t Hin Hid. rewrite map_map in Hin.
        apply in_map_iff in Hin as (t0 & <- & _).
        apply finished_completed.
        unfold set_completed in Hid.
        rewrite <- (set_running_id task_id now1 t0).
        now destruct (has_task_id task_id (set_running task_id now1 t0)). }
      split; [| discriminate].
      intros t Hin Hid _. split; [exact Hk |]. exists response.
      split; [exact Hlast |]. split; [exact Hstatus |].
      rewrite map_map in Hin. apply in_map_iff in Hin as (t0 & <- & _).
      assert (Hid0 : has_task_id task_id (set_running task_id now1 t0) = true).
      { unfold has_task_id. apply str_eqb_eq.
        unfold set_completed in Hid.
        now destruct (has_task_id task_id (set_running task_id now1 t0)). }
      unfold set_completed. now rewrite Hid0.
  - split; [cbn; lia |]. split; [reflexivity |]. split; [reflexivity |].
    split.
    { intros t Hin Hid. exfalso.
      pose proof (find_none _ _ Ef t Hin) as Hn. unfold has_task_id in Hn.
      apply str_eqb_neq in Hn. contradiction. }
    split; [| now split].
    intros t Hin Hid. exfalso.
    pose proof (find_none _ _ Ef t Hin) as Hn. unfold has_task_id in Hn.
    apply str_eqb_neq in Hn. contradiction.
Qed.

Lemma worker_finishes_task_witness :
  match execute_ai_task (lit "sk-1") (slow_upstream 200) demo_loads demo_dumps
          demo_str_of_int (lit "a") 5%Z 9%Z [demo_task "a"; demo_task "b"]
  with
  | (tasks', calls) =>
      length calls = 2%nat
      /\ exists done,
          tasks' = [done; demo_task "b"]
          /\ finished 5%Z 9%Z done
          /\ t_status done = lit "completed"
          /\ exists response,
              slow_upstream 200 1%nat = Responded response
              /\ t_result done = Some (demo_dumps (response_data response))
  end.
Proof.
  pose proof (worker_finishes_task (lit "sk-1") (slow_upstream 200) demo_loads
                demo_dumps demo_str_of_int (lit "a") 5%Z 9%Z
                [demo_task "a"; demo_task "b"]) as H.
  destruct (execute_ai_task (lit "sk-1") (slow_upstream 200) demo_loads
              demo_dumps demo_str_of_int (lit "a") 5%Z 9%Z
              [demo_task "a"; demo_task "b"]) as [tasks' calls] eqn:E.
  destruct H as (_ & _ & _ & Hfin & Hdone & _).
  vm_compute in E. injection E as <- <-.
  split; [reflexivity |]. eexists. split; [reflexivity |].
  split; [apply Hfin; [now left | reflexivity] |].
  split; [reflexivity |].
  destruct (Hdone _ (or_introl eq_refl) eq_refl eq_refl)
    as (_ & response & Hlast & _ & Hres).
  exists response. split; [exact Hlast | exact Hres].
Defined.
